(** * Runners of the load generator: a shallow embedding of [loadgen/runners.py]

    The file follows the Python module class by class.  Every class is a
    Rocq module holding a record for the attributes set in [__init__] and one
    definition per method, written in a small state-and-exception monad so
    that a mutation made before a [raise] stays visible afterwards, as in
    Python.

    What the harness can observe is kept in a [World]: the log of the calls
    made to the external collaborators ([ModelFactory.create], [Model.predict],
    the query callback) and of the exceptions that [concurrent.futures]
    swallows and logs. *)

From stdpp Require Import gmap strings list fin_maps.

Open Scope Z_scope.

(** ** Python values shared by all runners *)

(** The exception classes the module can raise.  [PredictionError] stands for
    whatever [Model.predict] raises. *)
Inductive exn :=
  | AssertionError
  | AttributeError
  | KeyError
  | TypeError
  | ValueError
  | StopIteration
  | PredictionError.

#[export] Instance exn_eq_dec : EqDecision exn.
Proof. solve_decision. Defined.

(** The specification files contract violations (a runner used before it is
    acquired, while a batch is pending, or flushed with nothing pending) under
    one name.  In the module these are a failed [assert] and the dereference
    of an attribute that is still [None] or not yet set. *)
Definition LifecycleError (e : exn) : Prop :=
  e = AssertionError ∨ e = AttributeError.

Inductive result (A : Type) :=
  | Ok (a : A)
  | Raise (e : exn).
Arguments Ok {A} a.
Arguments Raise {A} e.

(** Where code runs: the harness thread, a pool thread, a pool process or a
    remote actor. *)
Inductive ExecUnit :=
  | MainThread
  | WorkerThread (t : nat)
  | WorkerProcess (p : nat)
  | RemoteActor (a : nat).

#[export] Instance ExecUnit_eq_dec : EqDecision ExecUnit.
Proof. solve_decision. Defined.

(** Query ids are Python ints, a [Model] is known by the order in which the
    factory built it, a callback by a name. *)
Abbreviation QueryId := Z (only parsing).
Abbreviation Model := nat (only parsing).
Abbreviation Callback := nat (only parsing).

Inductive ModelFactory := Factory.

(** ** The monad: state threaded through exceptions *)

Definition M (S A : Type) : Type := S → result A * S.

#[export] Instance M_ret {S} : MRet (M S) := λ A a s, (Ok a, s).
#[export] Instance M_bind {S} : MBind (M S) := λ A B k c s,
  match c s with
  | (Ok a, s') => k a s'
  | (Raise e, s') => (Raise e, s')
  end.

Definition raise {S A} (e : exn) : M S A := λ s, (Raise e, s).

(** [assert b] *)
Definition assert {S} (b : bool) : M S unit :=
  if b then mret () else raise AssertionError.

(** [o.attr] where [o] may be [None]. *)
Definition deref {S A} (o : option A) : M S A :=
  match o with
  | Some a => mret a
  | None => raise AttributeError
  end.

(** [o(...)] where [o] may be [None]. *)
Definition callable {S A} (o : option A) : M S A :=
  match o with
  | Some a => mret a
  | None => raise TypeError
  end.

(** [for a in l: body(a)] *)
Fixpoint for_ {S A} (l : list A) (body : A → M S unit) : M S unit :=
  match l with
  | [] => mret ()
  | a :: l' => body a ;; for_ l' body
  end.

(** A computed [result] becomes a return or a raise. *)
Definition lift_result {S A} (r : result A) : M S A := λ s, (r, s).

Definition is_None {A} (o : option A) : bool :=
  match o with
  | None => true
  | Some _ => false
  end.

Section World.
Context {ModelInput QueryResult : Type}.

Inductive Event :=
  | ECreate (u : ExecUnit) (m : Model)
      (* [model_factory.create()] ran on [u] and returned [m] *)
  | EPredict (u : ExecUnit) (m : Model) (x : ModelInput)
      (* [m.predict(x)] was called on [u] *)
  | ECallback (cb : Callback) (d : gmap QueryId QueryResult)
      (* the query callback [cb] was called with the dict [d] *)
  | ELogged (e : exn).
      (* [concurrent.futures] caught [e] in a done-callback and logged it *)

Record World := {
  log : list Event;
  next_model : nat;
}.

Definition new_world : World := {| log := []; next_model := 0 |}.

Definition record (ev : Event) (w : World) : World :=
  {| log := log w ++ [ev]; next_model := next_model w |}.

(** A method runs on an object [self] in a world. *)
Definition self {Self} : M (Self * World) Self := λ s, (Ok s.1, s).

Definition update {Self} (f : Self → Self) : M (Self * World) unit :=
  λ s, (Ok (), (f s.1, s.2)).

Definition emit {Self} (ev : Event) : M (Self * World) unit :=
  λ s, (Ok (), (s.1, record ev s.2)).

(** [model_factory.create()] on unit [u]: the next instance. *)
Definition factory_create (_ : ModelFactory) (u : ExecUnit) (w : World)
    : Model * World :=
  (next_model w,
   {| log := log w ++ [ECreate u (next_model w)];
      next_model := S (next_model w) |}).

Definition create {Self} (model_factory : ModelFactory) (u : ExecUnit)
    : M (Self * World) Model :=
  λ s, let mw := factory_create model_factory u s.2 in (Ok mw.1, (s.1, mw.2)).

(** [callback(d)] *)
Definition call {Self} (callback : Callback) (d : gmap QueryId QueryResult)
    : M (Self * World) unit :=
  emit (ECallback callback d).

(** What the log says. *)
Definition callbacks (l : list Event)
    : list (Callback * gmap QueryId QueryResult) :=
  omap (λ ev, match ev with ECallback cb d => Some (cb, d) | _ => None end) l.

Definition creations (l : list Event) : list (ExecUnit * Model) :=
  omap (λ ev, match ev with ECreate u m => Some (u, m) | _ => None end) l.

Definition predictions (l : list Event)
    : list (ExecUnit * Model * ModelInput) :=
  omap (λ ev, match ev with EPredict u m x => Some (u, m, x) | _ => None end) l.

Definition logged (l : list Event) : list exn :=
  omap (λ ev, match ev with ELogged e => Some e | _ => None end) l.

(** The deliveries of one query id: the results the callback received
    for it, over the whole log. *)
Definition delivered (q : QueryId) (l : list Event) : list QueryResult :=
  omap (λ cd, cd.2 !! q) (callbacks l).

(** [{k: v for k, v in pairs}]: a later pair overrides an earlier one. *)
Definition dict_of_pairs (pairs : list (QueryId * QueryResult))
    : gmap QueryId QueryResult :=
  foldl (λ d kv, <[kv.1 := kv.2]> d) ∅ pairs.

Section Predict.
Context (predict : ModelInput → option QueryResult).

(** [m.predict(x)] on unit [u]; [None] is a prediction that raises. *)
Definition model_predict {Self} (u : ExecUnit) (m : Model) (x : ModelInput)
    : M (Self * World) QueryResult :=
  emit (EPredict u m x) ;;
  match predict x with
  | Some r => mret r
  | None => raise PredictionError
  end.
End Predict.
End World.

Arguments Event : clear implicits.
Arguments World : clear implicits.

(** A batch is a Python dict: its items in insertion order, keys unique. *)
Abbreviation QueryInput ModelInput := (list (QueryId * ModelInput)) (only parsing).

Definition wf_queries {ModelInput} (queries : QueryInput ModelInput) : Prop :=
  NoDup queries.*1.

(** ** [class ModelRunnerInline] *)
Module ModelRunnerInline.
Section Inline.
Context {ModelInput QueryResult : Type}.
Context (predict : ModelInput → option QueryResult).
#[local] Abbreviation World := (World ModelInput QueryResult).

Record Self := { model : Model }.

Definition __init__ (model_factory : ModelFactory) (w : World)
    : Self * World :=
  let mw := factory_create model_factory MainThread w in
  ({| model := mw.1 |}, mw.2).

Definition issue_query (queries : QueryInput ModelInput)
    (callback : Callback) : M (Self * World) unit :=
  for_ queries (λ '(query_id, model_input),
    s ← self;
    output ← model_predict predict MainThread (model s) model_input;
    call callback {[ query_id := output ]}).
End Inline.
End ModelRunnerInline.

(** ** [class ModelRunnerPoolExecutor] and its three subclasses

    [ModelRunnerThreadPoolExecutor], [ModelRunnerThreadPoolExecutorWithTLS]
    and [ModelRunnerProcessPoolExecutor] inherit [issue_query] and
    [_future_callback]; they differ in [__init__], [__enter__] and
    [get_predictor].  One record holds the attributes of all three, with
    the subclass in [kind].

    The executor of [concurrent.futures] is modelled with its worker threads
    (or processes): a worker is started by [submit] when no worker is idle
    and fewer than [max_workers] exist, runs the initializer, and then takes
    work items from the queue.  A schedule is the list of the workers that
    take their next step; a method of the runner and one step of a worker
    are atomic. *)
Module ModelRunnerPoolExecutor.
Section PoolExecutor.
Context {ModelInput QueryResult : Type}.
Context (predict : ModelInput → option QueryResult).
#[local] Abbreviation World := (World ModelInput QueryResult).

Inductive Kind :=
  | ThreadPoolExecutor
  | ThreadPoolExecutorWithTLS
  | ProcessPoolExecutor.

(** The callables [get_predictor] can return. *)
Inductive Predictor :=
  | BoundPredict (m : Model)   (* [self.model.predict] *)
  | TlsPredict                 (* [ModelRunnerThreadPoolExecutorWithTLS._tls_predict] *)
  | ProcessPredict.            (* [ModelRunnerProcessPoolExecutor._predict] *)

(** A [concurrent.futures.Future] is known by the order of its submission. *)
#[local] Abbreviation Future := nat (only parsing).

Inductive WorkerStatus :=
  | Starting       (* started, the initializer has not run *)
  | Initializing   (* inside [_tls_init], between its two statements *)
  | Polling        (* about to look at the work queue *)
  | Blocked        (* found the queue empty, released the idle semaphore, waits *)
  | Running (f : Future) (fn : Predictor) (x : ModelInput)
  | Dead.          (* the initializer raised *)

(** [globals] is the class attribute [ModelRunnerProcessPoolExecutor._model]
    as a worker process sees it: the copy made when the process was forked. *)
Record Worker := {
  status : WorkerStatus;
  globals : option Model;
}.

Record Executor := {
  max_workers : nat;
  initializer : bool;     (* was [initializer=_tls_init] given *)
  workers : list Worker;  (* the position is the worker's number *)
  idle_semaphore : nat;
  work_queue : list (Future * Predictor * ModelInput);
  next_future : Future;
  finished : gmap Future (result QueryResult);
}.

Record Self := {
  kind : Kind;
  max_concurrency : nat;
  futures : gmap Future QueryId;
  executor : option Executor;
  callback_fn : option Callback;
  (* ModelRunnerThreadPoolExecutor *)
  model : option Model;
  (* ModelRunnerThreadPoolExecutorWithTLS *)
  model_factory : option ModelFactory;
  (* class attribute [tls]: the current [threading.local] object, and the
     attribute [model] of each such object as each thread sees it *)
  tls : option nat;
  tls_model : gmap (nat * nat) Model;
  next_local : nat;
  (* class attribute [ModelRunnerProcessPoolExecutor._model] *)
  _model : option Model;
}.

Definition set_futures (v : gmap Future QueryId) (s : Self) : Self :=
  {| kind := kind s; max_concurrency := max_concurrency s; futures := v;
     executor := executor s; callback_fn := callback_fn s; model := model s;
     model_factory := model_factory s; tls := tls s; tls_model := tls_model s;
     next_local := next_local s; _model := _model s |}.

Definition set_executor (v : option Executor) (s : Self) : Self :=
  {| kind := kind s; max_concurrency := max_concurrency s; futures := futures s;
     executor := v; callback_fn := callback_fn s; model := model s;
     model_factory := model_factory s; tls := tls s; tls_model := tls_model s;
     next_local := next_local s; _model := _model s |}.

Definition set_callback_fn (v : option Callback) (s : Self) : Self :=
  {| kind := kind s; max_concurrency := max_concurrency s; futures := futures s;
     executor := executor s; callback_fn := v; model := model s;
     model_factory := model_factory s; tls := tls s; tls_model := tls_model s;
     next_local := next_local s; _model := _model s |}.

Definition set_model (v : option Model) (s : Self) : Self :=
  {| kind := kind s; max_concurrency := max_concurrency s; futures := futures s;
     executor := executor s; callback_fn := callback_fn s; model := v;
     model_factory := model_factory s; tls := tls s; tls_model := tls_model s;
     next_local := next_local s; _model := _model s |}.

Definition set_model_factory (v : option ModelFactory) (s : Self) : Self :=
  {| kind := kind s; max_concurrency := max_concurrency s; futures := futures s;
     executor := executor s; callback_fn := callback_fn s; model := model s;
     model_factory := v; tls := tls s; tls_model := tls_model s;
     next_local := next_local s; _model := _model s |}.

Definition set__model (v : option Model) (s : Self) : Self :=
  {| kind := kind s; max_concurrency := max_concurrency s; futures := futures s;
     executor := executor s; callback_fn := callback_fn s; model := model s;
     model_factory := model_factory s; tls := tls s; tls_model := tls_model s;
     next_local := next_local s; _model := v |}.

(** [cls.tls = threading.local()]: a new local object becomes the class
    attribute. *)
Definition set_tls_new_local (s : Self) : Self :=
  {| kind := kind s; max_concurrency := max_concurrency s; futures := futures s;
     executor := executor s; callback_fn := callback_fn s; model := model s;
     model_factory := model_factory s; tls := Some (next_local s);
     tls_model := tls_model s; next_local := S (next_local s);
     _model := _model s |}.

Definition set_tls_model (v : gmap (nat * nat) Model) (s : Self) : Self :=
  {| kind := kind s; max_concurrency := max_concurrency s; futures := futures s;
     executor := executor s; callback_fn := callback_fn s; model := model s;
     model_factory := model_factory s; tls := tls s; tls_model := v;
     next_local := next_local s; _model := _model s |}.

(** *** The executor *)

Definition new_executor (n : nat) (init : bool) : Executor :=
  {| max_workers := n; initializer := init; workers := [];
     idle_semaphore := 0; work_queue := []; next_future := 0%nat;
     finished := ∅ |}.

(** [_adjust_thread_count]: reuse an idle worker, else start one if fewer
    than [max_workers] exist.  A process is forked with the current value
    [g] of the class attribute. *)
Definition adjust_thread_count (g : option Model) (ex : Executor) : Executor :=
  match idle_semaphore ex with
  | S n =>
      {| max_workers := max_workers ex; initializer := initializer ex;
         workers := workers ex; idle_semaphore := n;
         work_queue := work_queue ex; next_future := next_future ex;
         finished := finished ex |}
  | O =>
      if decide (length (workers ex) < max_workers ex)%nat then
        {| max_workers := max_workers ex; initializer := initializer ex;
           workers := workers ex ++
             [{| status := if initializer ex then Starting else Polling;
                 globals := g |}];
           idle_semaphore := 0; work_queue := work_queue ex;
           next_future := next_future ex; finished := finished ex |}
      else ex
  end.

(** [executor.submit(fn, x)]: a new future, its work item at the back of the
    queue. *)
Definition submit (g : option Model) (fn : Predictor) (x : ModelInput)
    (ex : Executor) : Future * Executor :=
  (next_future ex,
   adjust_thread_count g
     {| max_workers := max_workers ex; initializer := initializer ex;
        workers := workers ex; idle_semaphore := idle_semaphore ex;
        work_queue := work_queue ex ++ [(next_future ex, fn, x)];
        next_future := S (next_future ex); finished := finished ex |}).

Definition set_worker (t : nat) (st : WorkerStatus) (ex : Executor) : Executor :=
  {| max_workers := max_workers ex; initializer := initializer ex;
     workers := alter (λ wk, {| status := st; globals := globals wk |}) t
                  (workers ex);
     idle_semaphore := idle_semaphore ex; work_queue := work_queue ex;
     next_future := next_future ex; finished := finished ex |}.

Definition set_work_queue (q : list (Future * Predictor * ModelInput))
    (ex : Executor) : Executor :=
  {| max_workers := max_workers ex; initializer := initializer ex;
     workers := workers ex; idle_semaphore := idle_semaphore ex;
     work_queue := q; next_future := next_future ex; finished := finished ex |}.

Definition release_idle (ex : Executor) : Executor :=
  {| max_workers := max_workers ex; initializer := initializer ex;
     workers := workers ex; idle_semaphore := S (idle_semaphore ex);
     work_queue := work_queue ex; next_future := next_future ex;
     finished := finished ex |}.

Definition set_finished (f : Future) (o : result QueryResult) (ex : Executor)
    : Executor :=
  {| max_workers := max_workers ex; initializer := initializer ex;
     workers := workers ex; idle_semaphore := idle_semaphore ex;
     work_queue := work_queue ex; next_future := next_future ex;
     finished := <[f := o]> (finished ex) |}.

(** *** [__init__] and [__enter__] of the subclasses *)

Definition __init__ (k : Kind) (mf : ModelFactory) (n : nat) (w : World)
    : Self * World :=
  (* [super().__init__(max_concurrency)] *)
  let base :=
    {| kind := k; max_concurrency := n; futures := ∅; executor := None;
       callback_fn := None; model := None; model_factory := None;
       tls := None; tls_model := ∅; next_local := 0%nat; _model := None |} in
  match k with
  | ThreadPoolExecutor =>
      let mw := factory_create mf MainThread w in
      (set_model (Some mw.1) base, mw.2)
  | ThreadPoolExecutorWithTLS =>
      (set_model_factory (Some mf) base, w)
  | ProcessPoolExecutor =>
      let mw := factory_create mf MainThread w in
      (set__model (Some mw.1) base, mw.2)
  end.

(** Both executors of [concurrent.futures] refuse [max_workers <= 0]. *)
Definition __enter__ : M (Self * World) unit :=
  s ← self;
  if decide (max_concurrency s = 0)%nat then raise ValueError
  else
    update (set_executor (Some (new_executor (max_concurrency s)
      match kind s with
      | ThreadPoolExecutorWithTLS => true
      | _ => false
      end))).

(** *** [issue_query] and [_future_callback] *)

Definition get_predictor : M (Self * World) Predictor :=
  s ← self;
  match kind s with
  | ThreadPoolExecutor => m ← deref (model s); mret (BoundPredict m)
  | ThreadPoolExecutorWithTLS => mret TlsPredict
  | ProcessPoolExecutor => mret ProcessPredict
  end.

(** [self.executor.submit(predictor_fn, model_input)] *)
Definition executor_submit (fn : Predictor) (x : ModelInput)
    : M (Self * World) Future :=
  s ← self;
  ex ← deref (executor s);
  let fe := submit (_model s) fn x ex in
  update (set_executor (Some fe.2)) ;;
  mret fe.1.

(** [f.add_done_callback(self._future_callback)] registers the callback on a
    future that no worker has touched yet: the worker that completes the
    future calls it (see [run_work_item]). *)
Definition issue_query (queries : QueryInput ModelInput) (callback : Callback)
    : M (Self * World) unit :=
  s ← self;
  assert (bool_decide (futures s = ∅)) ;;
  update (set_callback_fn (Some callback)) ;;
  predictor_fn ← get_predictor;
  for_ queries (λ '(query_id, model_input),
    f ← executor_submit predictor_fn model_input;
    update (λ s, set_futures (<[f := query_id]> (futures s)) s)).

(** [_future_callback(f)] for a future [f] completed with outcome [o]. *)
Definition _future_callback (f : Future) (o : result QueryResult)
    : M (Self * World) unit :=
  s ← self;
  query_id ←
    match futures s !! f with
    | Some q => update (set_futures (delete f (futures s))) ;; mret q
    | None => raise KeyError
    end;
  query_result ← match o with Ok r => mret r | Raise e => raise e end;
  s ← self;
  callback ← callable (callback_fn s);
  call callback {[ query_id := query_result ]}.

(** *** What runs on the workers *)

Definition unit_of (k : Kind) (t : nat) : ExecUnit :=
  match k with
  | ProcessPoolExecutor => WorkerProcess t
  | _ => WorkerThread t
  end.

(** [_tls_init] has two statements, and another thread can run between them.
    The first one rebinds the class attribute to a new [threading.local];
    the second one builds the model and stores it in whatever object the
    class attribute holds by then, in the slot of the calling thread [t]. *)
Definition _tls_init_1 : M (Self * World) unit :=
  update set_tls_new_local.

Definition _tls_init_2 (t : nat) : M (Self * World) unit :=
  s ← self;
  mf ← deref (model_factory s);
  m ← create mf (WorkerThread t);
  s ← self;
  l ← deref (tls s);
  update (set_tls_model (<[(l, t) := m]> (tls_model s))).

(** [_tls_predict(input)] on thread [t]: [cls.tls.model.predict(input)]. *)
Definition _tls_predict (t : nat) (input : ModelInput)
    : M (Self * World) QueryResult :=
  s ← self;
  l ← deref (tls s);
  m ← deref (tls_model s !! (l, t));
  model_predict predict (WorkerThread t) m input.

(** [_predict(input)] in worker process [t], on its copy [g] of [cls._model]. *)
Definition _predict (t : nat) (g : option Model) (input : ModelInput)
    : M (Self * World) QueryResult :=
  m ← deref g;
  result ← model_predict predict (WorkerProcess t) m input;
  mret result.

Definition apply_predictor (t : nat) (g : option Model) (fn : Predictor)
    (x : ModelInput) : M (Self * World) QueryResult :=
  match fn with
  | BoundPredict m => s ← self; model_predict predict (unit_of (kind s) t) m x
  | TlsPredict => _tls_predict t x
  | ProcessPredict => _predict t g x
  end.

Definition update_executor (f : Executor → Executor) : M (Self * World) unit :=
  update (λ s, set_executor (f <$> executor s) s).

(** A worker runs a work item: the call of the predictor ends in a result or
    an exception, which is stored in the future; then the done-callbacks of
    the future run, and an exception they raise is caught and logged. *)
Definition run_work_item (t : nat) (g : option Model) (f : Future)
    (fn : Predictor) (x : ModelInput) : M (Self * World) unit :=
  λ s,
    let os := apply_predictor t g fn x s in
    let s1 := (update_executor (set_finished f os.1) os.2).2 in
    match _future_callback f os.1 s1 with
    | (Ok _, s2) => (Ok (), s2)
    | (Raise e, s2) => emit (ELogged e) s2
    end.

(** One step of worker [t]; [None] when [t] cannot move (it does not exist,
    it has died, or it waits on an empty queue). *)
Definition step (t : nat) (s : Self * World) : option (Self * World) :=
  ex ← executor s.1;
  wk ← workers ex !! t;
  match status wk with
  | Starting =>
      Some ((_tls_init_1 ;; update_executor (set_worker t Initializing)) s).2
  | Initializing =>
      match _tls_init_2 t s with
      | (Ok _, s') => Some (update_executor (set_worker t Polling) s').2
      | (Raise _, s') => Some (update_executor (set_worker t Dead) s').2
      end
  | Polling =>
      match work_queue ex with
      | [] =>
          Some (update_executor (λ ex, set_worker t Blocked (release_idle ex)) s).2
      | (f, fn, x) :: q =>
          Some (update_executor
                  (λ ex, set_worker t (Running f fn x) (set_work_queue q ex)) s).2
      end
  | Blocked =>
      match work_queue ex with
      | [] => None
      | (f, fn, x) :: q =>
          Some (update_executor
                  (λ ex, set_worker t (Running f fn x) (set_work_queue q ex)) s).2
      end
  | Running f fn x =>
      Some ((run_work_item t (globals wk) f fn x ;;
             update_executor (set_worker t Polling)) s).2
  | Dead => None
  end.

(** A schedule: the workers that step, in order. *)
Fixpoint exec (sched : list nat) (s : Self * World) : option (Self * World) :=
  match sched with
  | [] => Some s
  | t :: sched' => s' ← step t s; exec sched' s'
  end.
End PoolExecutor.

Arguments WorkerStatus : clear implicits.
Arguments Worker : clear implicits.
Arguments Executor : clear implicits.
Arguments Self : clear implicits.
End ModelRunnerPoolExecutor.

(** ** [class ModelRunnerMultiProcessingPool]

    [multiprocessing.Pool(n)] forks [n] worker processes when it is built;
    each one sees the copy of the class attribute [_model] made by the fork.
    [starmap_async] returns at once with a [MapResult]; the workers compute
    behind the back of the harness, and [MapResult.get()] waits for all of
    them, so its value is the whole list, or the exception of a call that
    failed. *)
Module ModelRunnerMultiProcessingPool.
Section MultiProcessingPool.
Context {ModelInput QueryResult : Type}.
Context (predict : ModelInput → option QueryResult).
#[local] Abbreviation World := (World ModelInput QueryResult).

Record Pool := {
  processes : nat;          (* how many worker processes *)
  globals : option Model;   (* [cls._model] as the workers see it *)
}.

Record MapResult := {
  mr_pool : Pool;
  mr_inputs : list (QueryId * ModelInput);
}.

Record Self := {
  max_concurrency : nat;
  task : option MapResult;
  callback_fn : option Callback;
  pool : option Pool;       (* [None]: the attribute is not set yet *)
  _model : option Model;    (* class attribute *)
}.

Definition set_task (v : option MapResult) (s : Self) : Self :=
  {| max_concurrency := max_concurrency s; task := v;
     callback_fn := callback_fn s; pool := pool s; _model := _model s |}.

Definition set_callback_fn (v : option Callback) (s : Self) : Self :=
  {| max_concurrency := max_concurrency s; task := task s;
     callback_fn := v; pool := pool s; _model := _model s |}.

Definition set_pool (v : option Pool) (s : Self) : Self :=
  {| max_concurrency := max_concurrency s; task := task s;
     callback_fn := callback_fn s; pool := v; _model := _model s |}.

Definition __init__ (model_factory : ModelFactory) (n : nat) (w : World)
    : Self * World :=
  let mw := factory_create model_factory MainThread w in
  ({| max_concurrency := n; task := None; callback_fn := None; pool := None;
      _model := Some mw.1 |}, mw.2).

(** [multiprocessing.Pool(0)] raises [ValueError]. *)
Definition __enter__ : M (Self * World) unit :=
  s ← self;
  if decide (max_concurrency s = 0)%nat then raise ValueError
  else update (set_pool (Some {| processes := max_concurrency s;
                                 globals := _model s |})).

(** [_predict_with_id(query_id, input)], in a worker that sees [g]. *)
Definition _predict_with_id (g : option Model) (query_id : QueryId)
    (input : ModelInput) : result (QueryId * QueryResult) :=
  match g with
  | None => Raise AttributeError
  | Some _ =>
      match predict input with
      | Some result => Ok (query_id, result)
      | None => Raise PredictionError
      end
  end.

(** [MapResult.get()] *)
Fixpoint starmap (g : option Model) (inputs : list (QueryId * ModelInput))
    : result (list (QueryId * QueryResult)) :=
  match inputs with
  | [] => Ok []
  | (query_id, input) :: rest =>
      match _predict_with_id g query_id input, starmap g rest with
      | Ok qr, Ok l => Ok (qr :: l)
      | Raise e, _ => Raise e
      | _, Raise e => Raise e
      end
  end.

Definition MapResult_get (t : MapResult) : result (list (QueryId * QueryResult)) :=
  starmap (globals (mr_pool t)) (mr_inputs t).

Definition issue_query (queries : QueryInput ModelInput) (callback : Callback)
    : M (Self * World) unit :=
  s ← self;
  assert (is_None (task s)) ;;
  assert (is_None (callback_fn s)) ;;
  let inputs := queries in
  update (set_callback_fn (Some callback)) ;;
  p ← deref (pool s);
  update (set_task (Some {| mr_pool := p; mr_inputs := inputs |})).

Definition flush_queries : M (Self * World) unit :=
  s ← self;
  t ← deref (task s);
  task_result ← lift_result (MapResult_get t);
  let result := dict_of_pairs task_result in
  callback ← callable (callback_fn s);
  call callback result ;;
  update (set_task None) ;;
  update (set_callback_fn None).
End MultiProcessingPool.

Arguments Self : clear implicits.
Arguments MapResult : clear implicits.
End ModelRunnerMultiProcessingPool.

(** ** [class ModelRunnerRay]

    [ray.util.ActorPool] keeps the idle actors, the calls in flight in the
    order of their submission and the values that wait for an actor.
    [map] submits every value and hands back a generator that yields
    [get_next()] while a call is in flight. *)
Module ModelRunnerRay.
Section Ray.
Context {ModelInput QueryResult : Type}.
Context (predict : ModelInput → option QueryResult).
#[local] Abbreviation World := (World ModelInput QueryResult).

(** A [RayModel] actor: its number and the model it built. *)
Record RayModel := {
  actor : nat;
  model : Model;
}.

Record ActorPool := {
  _idle_actors : list RayModel;
  _in_flight : list (RayModel * (QueryId * ModelInput));
  _pending_submits : list (QueryId * ModelInput);
}.

Record Self := {
  max_concurrency : nat;
  model_factory : ModelFactory;
  instances : list RayModel;
  pool : option ActorPool;   (* [None]: the attribute is not set yet *)
  actors_started : nat;
}.

Definition set_pool (v : option ActorPool) (s : Self) : Self :=
  {| max_concurrency := max_concurrency s; model_factory := model_factory s;
     instances := instances s; pool := v;
     actors_started := actors_started s |}.

Definition __init__ (model_factory : ModelFactory) (n : nat) (w : World)
    : Self * World :=
  ({| max_concurrency := n; model_factory := model_factory; instances := [];
      pool := None; actors_started := 0%nat |}, w).

(** [RayModel.remote(model_factory)]: a new actor, whose [__init__] builds
    its model. *)
Definition RayModel_remote : M (Self * World) RayModel :=
  s ← self;
  m ← create (model_factory s) (RemoteActor (actors_started s));
  update (λ s, {| max_concurrency := max_concurrency s;
                  model_factory := model_factory s; instances := instances s;
                  pool := pool s; actors_started := S (actors_started s) |}) ;;
  mret {| actor := actors_started s; model := m |}.

Fixpoint remote_instances (n : nat) : M (Self * World) (list RayModel) :=
  match n with
  | O => mret []
  | S n' => a ← RayModel_remote; l ← remote_instances n'; mret (a :: l)
  end.

Definition __enter__ : M (Self * World) unit :=
  s ← self;
  l ← remote_instances (max_concurrency s);
  update (λ s, {| max_concurrency := max_concurrency s;
                  model_factory := model_factory s; instances := l;
                  pool := Some {| _idle_actors := l; _in_flight := [];
                                  _pending_submits := [] |};
                  actors_started := actors_started s |}).

(** [RayModel.predict(query_id, input)] on actor [a]. *)
Definition RayModel_predict (a : RayModel) (query_id : QueryId)
    (input : ModelInput) : M (Self * World) (QueryId * QueryResult) :=
  result ← model_predict predict (RemoteActor (actor a)) (model a) input;
  mret (query_id, result).

(** [ActorPool.submit]: the last idle actor takes the value, or the value
    waits. *)
Definition submit (v : QueryId * ModelInput) (p : ActorPool) : ActorPool :=
  match reverse (_idle_actors p) with
  | a :: idle =>
      {| _idle_actors := reverse idle;
         _in_flight := _in_flight p ++ [(a, v)];
         _pending_submits := _pending_submits p |}
  | [] =>
      {| _idle_actors := _idle_actors p; _in_flight := _in_flight p;
         _pending_submits := _pending_submits p ++ [v] |}
  end.

Definition has_next (p : ActorPool) : bool :=
  match _in_flight p with
  | [] => false
  | _ => true
  end.

(** [ActorPool._return_actor] *)
Definition _return_actor (a : RayModel) (p : ActorPool) : ActorPool :=
  let p' := {| _idle_actors := _idle_actors p ++ [a];
               _in_flight := _in_flight p;
               _pending_submits := _pending_submits p |} in
  match _pending_submits p' with
  | v :: rest =>
      submit v {| _idle_actors := _idle_actors p'; _in_flight := _in_flight p';
                  _pending_submits := rest |}
  | [] => p'
  end.

(** [ActorPool.get_next]: the oldest call in flight; its actor goes back to
    the pool before [ray.get] returns the value or raises.  The remote call
    is logged here, where its outcome is fetched. *)
Definition get_next : M (Self * World) (QueryId * QueryResult) :=
  s ← self;
  p ← deref (pool s);
  match _in_flight p with
  | [] => raise StopIteration
  | (a, (query_id, input)) :: rest =>
      update (set_pool (Some (_return_actor a
        {| _idle_actors := _idle_actors p; _in_flight := rest;
           _pending_submits := _pending_submits p |}))) ;;
      RayModel_predict a query_id input
  end.

(** The [for] loop over the generator [results]; every round retires one
    call, so [fuel] = calls in flight + values waiting is enough. *)
Fixpoint for_results (fuel : nat) (callback : Callback) : M (Self * World) unit :=
  match fuel with
  | O => mret ()
  | S fuel' =>
      s ← self;
      p ← deref (pool s);
      if has_next p then
        qr ← get_next;
        let callback_arg := {[ qr.1 := qr.2 ]} in
        call callback callback_arg ;;
        for_results fuel' callback
      else mret ()
  end.

Definition issue_query (queries : QueryInput ModelInput) (callback : Callback)
    : M (Self * World) unit :=
  s ← self;
  p ← deref (pool s);
  (* [self.pool.map(...)]: submit every item *)
  let p' := foldl (λ p v, submit v p) p queries in
  update (set_pool (Some p')) ;;
  for_results (length (_in_flight p') + length (_pending_submits p'))
    callback.
End Ray.

Arguments Self : clear implicits.
Arguments ActorPool : clear implicits.
End ModelRunnerRay.

(** ** The runner interface

    The six strategies behind one interface.  The harness picks a strategy,
    builds the runner, enters it, and then issues batches (and flushes,
    for the strategy that needs it) while the workers run. *)
Section Runner.
Context {ModelInput QueryResult : Type}.
Context (predict : ModelInput → option QueryResult).
#[local] Abbreviation World := (World ModelInput QueryResult).

Inductive Strategy :=
  | InlineRunner
  | ThreadPoolRunner
  | ThreadLocalPoolRunner
  | ProcessPoolRunner
  | BatchPoolRunner
  | DistributedActorPoolRunner.

Inductive Runner :=
  | RInline (s : ModelRunnerInline.Self)
  | RPool (s : ModelRunnerPoolExecutor.Self ModelInput QueryResult)
  | RBatch (s : ModelRunnerMultiProcessingPool.Self ModelInput)
  | RRay (s : ModelRunnerRay.Self ModelInput).

(** Run a method of one class on the runner that holds its object. *)
Definition on {Self A} (inj : Self → Runner) (s : Self)
    (c : M (Self * World) A) : M (Runner * World) A :=
  λ rw, let out := c (s, rw.2) in (out.1, (inj out.2.1, out.2.2)).

Definition new_runner (k : Strategy) (model_factory : ModelFactory)
    (max_concurrency : nat) (w : World) : Runner * World :=
  match k with
  | InlineRunner =>
      prod_map RInline id (ModelRunnerInline.__init__ model_factory w)
  | ThreadPoolRunner =>
      prod_map RPool id
        (ModelRunnerPoolExecutor.__init__
           ModelRunnerPoolExecutor.ThreadPoolExecutor
           model_factory max_concurrency w)
  | ThreadLocalPoolRunner =>
      prod_map RPool id
        (ModelRunnerPoolExecutor.__init__
           ModelRunnerPoolExecutor.ThreadPoolExecutorWithTLS
           model_factory max_concurrency w)
  | ProcessPoolRunner =>
      prod_map RPool id
        (ModelRunnerPoolExecutor.__init__
           ModelRunnerPoolExecutor.ProcessPoolExecutor
           model_factory max_concurrency w)
  | BatchPoolRunner =>
      prod_map RBatch id
        (ModelRunnerMultiProcessingPool.__init__ model_factory max_concurrency w)
  | DistributedActorPoolRunner =>
      prod_map RRay id (ModelRunnerRay.__init__ model_factory max_concurrency w)
  end.

(** Modelled from the spec: the base class [ModelRunner] of
    [loadgen.harness] is not among the sources; a runner that does not
    override [__enter__] or [flush_queries] inherits a method that does
    nothing (section 4.1: flush is "absent/no-op otherwise"). *)
Definition ModelRunner_default : M (Runner * World) unit := mret ().

Definition acquire : M (Runner * World) unit :=
  λ rw,
    match rw.1 with
    | RInline s => ModelRunner_default rw
    | RPool s => on RPool s ModelRunnerPoolExecutor.__enter__ rw
    | RBatch s => on RBatch s ModelRunnerMultiProcessingPool.__enter__ rw
    | RRay s => on RRay s ModelRunnerRay.__enter__ rw
    end.

Definition issue_query (queries : QueryInput ModelInput) (callback : Callback)
    : M (Runner * World) unit :=
  λ rw,
    match rw.1 with
    | RInline s =>
        on RInline s (ModelRunnerInline.issue_query predict queries callback) rw
    | RPool s =>
        on RPool s (ModelRunnerPoolExecutor.issue_query queries callback) rw
    | RBatch s =>
        on RBatch s
          (ModelRunnerMultiProcessingPool.issue_query queries callback) rw
    | RRay s =>
        on RRay s (ModelRunnerRay.issue_query predict queries callback) rw
    end.

Definition flush_queries : M (Runner * World) unit :=
  λ rw,
    match rw.1 with
    | RBatch s =>
        on RBatch s (ModelRunnerMultiProcessingPool.flush_queries predict) rw
    | _ => ModelRunner_default rw
    end.

(** One step of worker [t] of the executor, for the runners that have one. *)
Definition worker_step (t : nat) (rw : Runner * World)
    : option (Runner * World) :=
  match rw.1 with
  | RPool s => prod_map RPool id <$> ModelRunnerPoolExecutor.step predict t (s, rw.2)
  | _ => None
  end.

(** What happens to a runner between acquisition and release. *)
Inductive Op :=
  | OpIssue (queries : QueryInput ModelInput) (callback : Callback)
  | OpFlush
  | OpWorker (t : nat).

(** An exception goes to the harness; the runner stays as the failed call
    left it.  A worker that cannot move does not move. *)
Definition do_op (rw : Runner * World) (op : Op) : Runner * World :=
  match op with
  | OpIssue queries callback => (issue_query queries callback rw).2
  | OpFlush => (flush_queries rw).2
  | OpWorker t => default rw (worker_step t rw)
  end.

Definition lifetime (k : Strategy) (max_concurrency : nat) (ops : list Op)
    : Runner * World :=
  foldl do_op (acquire (new_runner k Factory max_concurrency new_world)).2 ops.

(** The worker units of a runner: the threads or processes its executor has
    started, the processes of its pool, its actors. *)
Definition worker_units (r : Runner) : list ExecUnit :=
  match r with
  | RInline _ => []
  | RPool s =>
      match ModelRunnerPoolExecutor.executor s with
      | Some ex =>
          ModelRunnerPoolExecutor.unit_of (ModelRunnerPoolExecutor.kind s)
            <$> seq 0 (length (ModelRunnerPoolExecutor.workers ex))
      | None => []
      end
  | RBatch s =>
      match ModelRunnerMultiProcessingPool.pool s with
      | Some p => WorkerProcess <$> seq 0 (ModelRunnerMultiProcessingPool.processes p)
      | None => []
      end
  | RRay s => (λ a, RemoteActor (ModelRunnerRay.actor a)) <$> ModelRunnerRay.instances s
  end.

(** How often [create()] ran on unit [u]. *)
Definition times_created (u : ExecUnit) (l : list (Event ModelInput QueryResult)) : nat :=
  length (filter (λ um, um.1 = u) (creations l)).
End Runner.

Arguments Runner : clear implicits.
Arguments Op : clear implicits.

(** ** What the claims speak of *)
Section Specification.
Context {ModelInput QueryResult : Type}.
Context (predict : ModelInput → option QueryResult).
#[local] Abbreviation World := (World ModelInput QueryResult).
#[local] Abbreviation Event := (Event ModelInput QueryResult).

(** Every prediction of the batch returns. *)
Definition predictable (queries : QueryInput ModelInput) : Prop :=
  Forall (λ qx, is_Some (predict qx.2)) queries.

(** One query handled in line on [u] by model [m]: the prediction, then the
    callback with the single-entry dict. *)
Definition handled_inline (u : ExecUnit) (m : Model) (callback : Callback)
    (qx : QueryId * ModelInput) : list Event :=
  EPredict u m qx.2 ::
  match predict qx.2 with
  | Some r => [ECallback callback {[ qx.1 := r ]}]
  | None => []
  end.

(** The callback invocations a batch is owed: one per query, each with the
    single-entry dict of the prediction. *)
Definition owed (callback : Callback) (queries : QueryInput ModelInput)
    : list (Callback * gmap QueryId QueryResult) :=
  omap (λ qx, r ← predict qx.2; Some (callback, {[ qx.1 := r ]})) queries.
End Specification.

(** ** The state of a pool executor runner between two steps *)
Section PoolSpecification.
Context {ModelInput QueryResult : Type}.
Context (predict : ModelInput → option QueryResult).
Import ModelRunnerPoolExecutor.
#[local] Abbreviation Self := (Self ModelInput QueryResult).
#[local] Abbreviation Executor := (Executor ModelInput QueryResult).

(** The work items that workers hold. *)
Definition running (ws : list (Worker ModelInput))
    : list (nat * Predictor * ModelInput) :=
  omap (λ wk, match status wk with
              | Running f fn x => Some (f, fn, x)
              | _ => None
              end) ws.

(** The work items not yet completed: queued, or held by a worker. *)
Definition pending_items (ex : Executor) : list (nat * Predictor * ModelInput) :=
  work_queue ex ++ running (workers ex).

(** The stored outcome of future [f], if it is done. *)
Definition outcome (s : Self) (f : nat) : option (result QueryResult) :=
  ex ← executor s; finished ex !! f.

(** The handles [issue_query] gets for a batch when the next future is
    number [nf]. *)
Definition handles (nf : nat) (queries : QueryInput ModelInput)
    : list (nat * (QueryId * ModelInput)) :=
  zip (seq nf (length queries)) queries.

(** What the callback is owed for the futures of [table], given their
    outcomes: an invocation for each one that returned. *)
Definition settled (callback : Callback)
    (fin : nat → option (result QueryResult)) (table : list (nat * QueryId))
    : list (Callback * gmap QueryId QueryResult) :=
  omap (λ fq, match fin fq.1 with
              | Some (Ok r) => Some (callback, {[ fq.2 := r ]})
              | _ => None
              end) table.

(** The exceptions of the futures of [table] that raised. *)
Definition failures (fin : nat → option (result QueryResult))
    (table : list (nat * QueryId)) : list exn :=
  omap (λ fq, match fin fq.1 with
              | Some (Raise e) => Some e
              | _ => None
              end) table.

(** The handle table and the executor agree: the table holds exactly the
    futures that are not done, all different, with no outcome yet; every
    stored outcome belongs to a future already handed out. *)
Record pool_inv (s : Self) : Prop := {
  inv_unacquired : executor s = None → futures s = ∅;
  inv_nodup : ∀ ex, executor s = Some ex → NoDup (pending_items ex).*1.*1;
  inv_table : ∀ ex f, executor s = Some ex →
    is_Some (futures s !! f) ↔ f ∈ (pending_items ex).*1.*1;
  inv_pending : ∀ ex f, executor s = Some ex →
    is_Some (futures s !! f) → (f < next_future ex)%nat ∧ finished ex !! f = None;
  inv_finished : ∀ ex f, executor s = Some ex →
    is_Some (finished ex !! f) → (f < next_future ex)%nat;
  inv_callback : futures s ≠ ∅ → is_Some (callback_fn s);
}.

(** The workers can make progress: none has died, the initializer has what
    it needs, and queued work has a worker to take it. *)
Record pool_live (s : Self) : Prop := {
  live_factory : ∀ ex, executor s = Some ex →
    initializer ex = true → is_Some (model_factory s);
  live_starting : ∀ ex wk, executor s = Some ex → wk ∈ workers ex →
    status wk = Starting → initializer ex = true;
  live_tls : ∀ ex wk, executor s = Some ex → wk ∈ workers ex →
    status wk = Initializing → initializer ex = true ∧ is_Some (tls s);
  live_not_dead : ∀ ex wk, executor s = Some ex → wk ∈ workers ex →
    status wk ≠ Dead;
  live_max : ∀ ex, executor s = Some ex → (0 < max_workers ex)%nat;
  live_idle : ∀ ex, executor s = Some ex →
    (0 < idle_semaphore ex)%nat → workers ex ≠ [];
  live_queue : ∀ ex, executor s = Some ex →
    work_queue ex ≠ [] → workers ex ≠ [];
}.

(** A predictor call either returns the prediction, or raises because the
    prediction raised or because the model was not found. *)
Definition sound_outcome (o : result QueryResult) (x : ModelInput) : Prop :=
  match o with
  | Ok r => predict x = Some r
  | Raise e => e = AttributeError ∨ (e = PredictionError ∧ predict x = None)
  end.

(** The outcome of a predictor that finds its model. *)
Definition prediction (x : ModelInput) : result QueryResult :=
  match predict x with
  | Some r => Ok r
  | None => Raise PredictionError
  end.

(** The predictors of the runner always find their model: the shared model
    of the thread pool runner, the forked copy of the process pool runner. *)
Definition finds_model (s : Self) : Prop :=
  match kind s with
  | ThreadPoolExecutor =>
      is_Some (model s) ∧
      ∀ ex item, executor s = Some ex → item ∈ pending_items ex →
        ∃ m, item.1.2 = BoundPredict m
  | ThreadPoolExecutorWithTLS => False
  | ProcessPoolExecutor =>
      is_Some (_model s) ∧
      ∀ ex, executor s = Some ex →
        (∀ item, item ∈ pending_items ex → item.1.2 = ProcessPredict) ∧
        (∀ wk, wk ∈ workers ex → is_Some (globals wk))
  end.
(** The work item a worker holds, if any. *)
Definition item_of (st : WorkerStatus ModelInput)
    : list (nat * Predictor * ModelInput) :=
  match st with
  | Running f fn x => [(f, fn, x)]
  | _ => []
  end.

(** All the submissions of one batch. *)
Definition submit_all (g : option Model) (fn : Predictor)
    (queries : QueryInput ModelInput) (ex : Executor) : Executor :=
  foldl (λ ex qx, (submit g fn qx.2 ex).2) ex queries.

(** What [get_predictor] returns, when it returns. *)
Definition predictor_of (s : Self) : option Predictor :=
  match kind s with
  | ThreadPoolExecutor => BoundPredict <$> model s
  | ThreadPoolExecutorWithTLS => Some TlsPredict
  | ProcessPoolExecutor => Some ProcessPredict
  end.

(** The runner after [issue_query] has run to its end from an idle state
    whose executor is [ex]. *)
Definition issued (s : Self) (ex : Executor) (fn : Predictor)
    (queries : QueryInput ModelInput) (callback : Callback) : Self :=
  set_futures
    (list_to_map ((λ fqx, (fqx.1, fqx.2.1)) <$> handles (next_future ex) queries))
    (set_executor (Some (submit_all (_model s) fn queries ex))
       (set_callback_fn (Some callback) s)).
(** How far a worker is from waiting on an empty queue, and how much work
    the executor has left: every step of a worker makes it smaller. *)
Definition rank (st : WorkerStatus ModelInput) : nat :=
  match st with
  | Starting => 3
  | Initializing => 2
  | Polling => 1
  | Blocked => 0
  | Running _ _ _ => 2
  | Dead => 0
  end.

Definition work_left (s : Self) : nat :=
  match executor s with
  | Some ex => 5 * length (work_queue ex) + sum_list (rank ∘ status <$> workers ex)
  | None => 0
  end.
(** Has the worker run the initializer to its end? *)
Definition initialised (st : WorkerStatus ModelInput) : bool :=
  match st with
  | Starting | Initializing => false
  | _ => true
  end.

(** The number of models worker [t] must have built by now, and the number
    all the workers must have built, when the executor has an initializer. *)
Definition created_by (ex : Executor) (t : nat) : nat :=
  match workers ex !! t with
  | Some wk => if initialised (status wk) then 1 else 0
  | None => 0
  end.

Definition built (ex : Executor) : nat :=
  sum_list ((λ wk, if initialised (status wk) then 1 else 0)%nat <$> workers ex).

(** The thread-local runner: models are built by the worker threads, one by
    each thread that has run the initializer; a slot of a thread-local object
    holds a model its thread built, and so does every prediction. *)
Record tls_inv (s : Self) (w : World ModelInput QueryResult) : Prop := {
  tls_kind : kind s = ThreadPoolExecutorWithTLS;
  tls_items : ∀ ex item, executor s = Some ex →
    item ∈ pending_items ex → item.1.2 = TlsPredict;
  tls_executor : ∀ ex, executor s = Some ex →
    initializer ex = true ∧ max_workers ex = max_concurrency s ∧
    (length (workers ex) ≤ max_workers ex)%nat;
  tls_unacquired : executor s = None → creations (log w) = [];
  tls_count : ∀ ex t, executor s = Some ex →
    times_created (WorkerThread t) (log w) = created_by ex t;
  tls_total : ∀ ex, executor s = Some ex →
    length (creations (log w)) = built ex;
  tls_slots : ∀ l t m, tls_model s !! (l, t) = Some m →
    (WorkerThread t, m) ∈ creations (log w);
  tls_predictions : ∀ u m x, (u, m, x) ∈ predictions (log w) →
    ∃ t, u = WorkerThread t ∧ (u, m) ∈ creations (log w);
  tls_creators : ∀ u m, (u, m) ∈ creations (log w) → ∃ t, u = WorkerThread t;
}.

(** The thread-local runner whose executor may have one worker only: that
    worker, once it has run the initializer, finds its model in the
    thread-local object of the class attribute, which nobody rebinds. *)
Definition single_tls_inv (s : Self) : Prop :=
  kind s = ThreadPoolExecutorWithTLS ∧
  ∀ ex, executor s = Some ex →
    max_workers ex = 1%nat ∧ initializer ex = true ∧
    (length (workers ex) ≤ 1)%nat ∧
    (∀ item, item ∈ pending_items ex → item.1.2 = TlsPredict) ∧
    (∀ wk, workers ex !! 0%nat = Some wk → initialised (status wk) = true →
       ∃ l m, tls s = Some l ∧ tls_model s !! (l, 0%nat) = Some m).

(** An executor with one worker works through a batch in the order of its
    submission: the handles [hs] of the batch split into those done, for
    which the callback has run in order, and the rest, which the worker
    holds or the queue has, in order. *)
Definition in_order (callback : Callback) (w0 : World ModelInput QueryResult)
    (hs : list (nat * (QueryId * ModelInput))) (fn : Predictor)
    (s : Self) (w : World ModelInput QueryResult) : Prop :=
  ∃ done rest ex,
    hs = done ++ rest ∧ executor s = Some ex ∧
    running (workers ex) ++ work_queue ex
      = (λ fqx, (fqx.1, fn, fqx.2.2)) <$> rest ∧
    (length (workers ex) ≤ 1)%nat ∧
    callback_fn s = Some callback ∧
    (∀ fqx, fqx ∈ rest → futures s !! fqx.1 = Some fqx.2.1) ∧
    callbacks (log w) = callbacks (log w0) ++ owed predict callback done.*2.

(** The runners with one model, built in [__init__] as the first model of
    the world: nothing else is ever built, and a forked worker sees it. *)
Record shared_inv (s : Self) (w : World ModelInput QueryResult) : Prop := {
  shared_kind : kind s ≠ ThreadPoolExecutorWithTLS;
  shared_model : match kind s with
                 | ThreadPoolExecutor => model s = Some 0%nat
                 | _ => _model s = Some 0%nat
                 end;
  shared_executor : ∀ ex, executor s = Some ex → initializer ex = false;
  shared_creations : creations (log w) = [(MainThread, 0%nat)];
  shared_globals : ∀ ex wk, executor s = Some ex → wk ∈ workers ex →
    globals wk = _model s;
}.
End PoolSpecification.

(** ** The actor pool between two calls *)
Section RaySpecification.
Context {ModelInput : Type}.
Import ModelRunnerRay.

(** The values the pool still has to return, in the order of [get_next]. *)
Definition outstanding (p : ActorPool ModelInput)
    : list (QueryId * ModelInput) :=
  (_in_flight p).*2 ++ _pending_submits p.

(** The pool has an actor, and a value waits only while every actor is
    busy. *)
Definition pool_ok (p : ActorPool ModelInput) : Prop :=
  (_idle_actors p ≠ [] ∨ _in_flight p ≠ []) ∧
  (_pending_submits p ≠ [] → _idle_actors p = []).

(** Entered, and nothing left over from an earlier batch. *)
Definition ray_ready (s : Self ModelInput) : Prop :=
  ∃ p, pool s = Some p ∧ pool_ok p ∧ outstanding p = [].

(** The actors the pool holds, idle or busy. *)
Definition pool_actors (p : ActorPool ModelInput) : list RayModel :=
  _idle_actors p ++ (_in_flight p).*1.
End RaySpecification.

(** ** A runner over its lifetime *)
Section LifetimeSpecification.
Context {ModelInput QueryResult : Type}.
Context (predict : ModelInput → option QueryResult).
#[local] Abbreviation World := (World ModelInput QueryResult).
#[local] Abbreviation Runner := (Runner ModelInput QueryResult).

(** The pool-backed runners, and their two states. *)
Definition pool_backed (r : Runner) : Prop :=
  match r with
  | RPool _ | RBatch _ => True
  | _ => False
  end.

Definition Pending (r : Runner) : Prop :=
  match r with
  | RPool s => ModelRunnerPoolExecutor.futures s ≠ ∅
  | RBatch s => ModelRunnerMultiProcessingPool.task s ≠ None
  | _ => False
  end.

Definition Idle (r : Runner) : Prop :=
  match r with
  | RPool s => ModelRunnerPoolExecutor.futures s = ∅
  | RBatch s =>
      ModelRunnerMultiProcessingPool.task s = None ∧
      ModelRunnerMultiProcessingPool.callback_fn s = None
  | _ => True
  end.

(** What holds of a runner built with [max_concurrency = n] on a new world,
    from its acquisition on. *)
Definition runner_inv (n : nat) (rw : Runner * World) : Prop :=
  match rw.1 with
  | RInline s => creations (log rw.2) = [(MainThread, 0%nat)]
  | RPool s =>
      pool_inv s ∧ pool_live s ∧
      ModelRunnerPoolExecutor.max_concurrency s = n ∧
      match ModelRunnerPoolExecutor.kind s with
      | ModelRunnerPoolExecutor.ThreadPoolExecutorWithTLS => tls_inv s rw.2
      | _ => shared_inv s rw.2
      end
  | RBatch s =>
      creations (log rw.2) = [(MainThread, 0%nat)] ∧
      ModelRunnerMultiProcessingPool._model s = Some 0%nat ∧
      ∀ p, ModelRunnerMultiProcessingPool.pool s = Some p →
        ModelRunnerMultiProcessingPool.globals p = Some 0%nat
  | RRay s =>
      creations (log rw.2) =
        (λ a, (RemoteActor (ModelRunnerRay.actor a), ModelRunnerRay.model a))
          <$> ModelRunnerRay.instances s ∧
      NoDup (ModelRunnerRay.actor <$> ModelRunnerRay.instances s)
  end.

(** The claims on [ModelFactory.create()] as they are worded: once on
    every worker unit; as many models as [max_concurrency]. *)
Definition once_per_worker_unit (rw : Runner * World) : Prop :=
  ∀ u, u ∈ worker_units rw.1 → times_created u (log rw.2) = 1%nat.

Definition exactly_max_concurrency_models (n : nat) (rw : Runner * World) : Prop :=
  length (creations (log rw.2)) = n.

(** The strategy a runner implements. *)
Definition strategy_of (r : Runner) : Strategy :=
  match r with
  | RInline _ => InlineRunner
  | RPool s =>
      match ModelRunnerPoolExecutor.kind s with
      | ModelRunnerPoolExecutor.ThreadPoolExecutor => ThreadPoolRunner
      | ModelRunnerPoolExecutor.ThreadPoolExecutorWithTLS => ThreadLocalPoolRunner
      | ModelRunnerPoolExecutor.ProcessPoolExecutor => ProcessPoolRunner
      end
  | RBatch _ => BatchPoolRunner
  | RRay _ => DistributedActorPoolRunner
  end.

(** The model each worker process of a runner sees as the class attribute
    [_model]. *)
Definition process_models (r : Runner) : list (option Model) :=
  match r with
  | RPool s =>
      match ModelRunnerPoolExecutor.executor s with
      | Some ex => ModelRunnerPoolExecutor.globals <$> ModelRunnerPoolExecutor.workers ex
      | None => []
      end
  | RBatch s =>
      match ModelRunnerMultiProcessingPool.pool s with
      | Some p =>
          replicate (ModelRunnerMultiProcessingPool.processes p)
            (ModelRunnerMultiProcessingPool.globals p)
      | None => []
      end
  | _ => []
  end.

(** Has worker thread [t] of a pool executor run the initializer to its end,
    and how many worker threads have. *)
Definition thread_initialised (r : Runner) (t : nat) : bool :=
  match r with
  | RPool s =>
      match ModelRunnerPoolExecutor.executor s with
      | Some ex => bool_decide (created_by ex t = 1%nat)
      | None => false
      end
  | _ => false
  end.

Definition initialised_count (r : Runner) : nat :=
  match r with
  | RPool s =>
      match ModelRunnerPoolExecutor.executor s with
      | Some ex => built ex
      | None => 0
      end
  | _ => 0
  end.

(** The strategies built on an executor of [concurrent.futures]. *)
Definition pool_strategy (k : Strategy) : Prop :=
  k = ThreadPoolRunner ∨ k = ThreadLocalPoolRunner ∨ k = ProcessPoolRunner.

(** The steps of the workers named by a schedule, one after the other. *)
Definition run_workers (sched : list nat) (rw : Runner * World) : Runner * World :=
  foldl (do_op predict) rw (OpWorker <$> sched).
End LifetimeSpecification.

(** ** Example inputs: an echo model over strings *)

Definition echo (x : string) : option string := Some x.

(** A model that fails on one input. *)
Definition echo_but (bad : string) (x : string) : option string :=
  if decide (x = bad) then None else Some x.

Definition abc : QueryInput string := [(1, "a"); (2, "b"); (3, "c")]%string.

(** Runners built on a new world and entered. *)
Definition inline_runner : ModelRunnerInline.Self * World string string :=
  ModelRunnerInline.__init__ Factory new_world.

Definition entered_pool (k : ModelRunnerPoolExecutor.Kind) (n : nat)
    : ModelRunnerPoolExecutor.Self string string * World string string :=
  (ModelRunnerPoolExecutor.__enter__
     (ModelRunnerPoolExecutor.__init__ k Factory n new_world)).2.

Definition entered_batch (n : nat)
    : ModelRunnerMultiProcessingPool.Self string * World string string :=
  (ModelRunnerMultiProcessingPool.__enter__
     (ModelRunnerMultiProcessingPool.__init__ Factory n new_world)).2.

Definition entered_ray (n : nat)
    : ModelRunnerRay.Self string * World string string :=
  (ModelRunnerRay.__enter__ (ModelRunnerRay.__init__ Factory n new_world)).2.

(** * Proofs *)

(** ** The monad *)

Lemma bind_unfold {S A B} (c : M S A) (k : A → M S B) (s : S) :
  (c ≫= k) s =
  match c s with
  | (Ok a, s') => k a s'
  | (Raise e, s') => (Raise e, s')
  end.
Proof. done. Qed.

Lemma for_app {S A} (l1 l2 : list A) (body : A → M S unit) (s : S) :
  for_ (l1 ++ l2) body s =
  match for_ l1 body s with
  | (Ok _, s') => for_ l2 body s'
  | (Raise e, s') => (Raise e, s')
  end.
Proof.
  revert s. induction l1 as [|a l1 IH]; intros s; simpl; [done|].
  unfold mbind, M_bind. destruct (body a s) as [[[]|e] s']; [apply IH|done].
Qed.

Lemma omap_cons_unfold {A B} (f : A → option B) (a : A) (l : list A) :
  omap f (a :: l) =
  match f a with
  | Some b => b :: omap f l
  | None => omap f l
  end.
Proof. done. Qed.

Lemma callbacks_app {ModelInput QueryResult}
    (l1 l2 : list (Event ModelInput QueryResult)) :
  callbacks (l1 ++ l2) = callbacks l1 ++ callbacks l2.
Proof. apply omap_app. Qed.

Lemma creations_app {ModelInput QueryResult}
    (l1 l2 : list (Event ModelInput QueryResult)) :
  creations (l1 ++ l2) = creations l1 ++ creations l2.
Proof. apply omap_app. Qed.

Lemma logged_app {ModelInput QueryResult}
    (l1 l2 : list (Event ModelInput QueryResult)) :
  logged (l1 ++ l2) = logged l1 ++ logged l2.
Proof. apply omap_app. Qed.

Lemma predictions_app {ModelInput QueryResult}
    (l1 l2 : list (Event ModelInput QueryResult)) :
  predictions (l1 ++ l2) = predictions l1 ++ predictions l2.
Proof. apply omap_app. Qed.

(** ** ModelRunnerInline *)
Section InlineProofs.
Context {ModelInput QueryResult : Type}.
Context (predict : ModelInput → option QueryResult).
Import ModelRunnerInline.
#[local] Abbreviation World := (World ModelInput QueryResult).

Lemma inline_issue_query_ok (s : Self) (w : World)
    (queries : QueryInput ModelInput) (callback : Callback) :
  predictable predict queries →
  issue_query predict queries callback (s, w) =
    (Ok (), (s, {| log := log w ++
                     (queries ≫= handled_inline predict MainThread (model s) callback);
                   next_model := next_model w |})).
Proof.
  unfold issue_query. revert w.
  induction queries as [|[q x] queries IH]; intros w Hp; simpl.
  - rewrite app_nil_r. by destruct w.
  - apply Forall_cons in Hp as [[r Hr] Hp]. simpl in Hr.
    unfold mbind at 1, M_bind at 1. unfold handled_inline at 1. simpl.
    unfold model_predict, mbind, M_bind, emit, call, emit, self. simpl.
    rewrite Hr. simpl. rewrite (IH _ Hp). simpl.
    unfold record. simpl. by rewrite <- !app_assoc.
Qed.

(** The first prediction that raises ends the loop: the queries before it
    were handled, the ones after it are not looked at. *)
Lemma inline_issue_query_raise (s : Self) (w : World)
    (before after : QueryInput ModelInput) (q : QueryId) (x : ModelInput)
    (callback : Callback) :
  predictable predict before →
  predict x = None →
  issue_query predict (before ++ (q, x) :: after) callback (s, w) =
    (Raise PredictionError,
     (s, {| log := log w ++
              (before ≫= handled_inline predict MainThread (model s) callback)
              ++ [EPredict MainThread (model s) x];
            next_model := next_model w |})).
Proof.
  intros Hp Hx. unfold issue_query. rewrite for_app.
  fold (issue_query predict before callback (s, w)).
  rewrite inline_issue_query_ok by done. simpl.
  unfold mbind, M_bind, model_predict, mbind, M_bind, emit, self. simpl.
  rewrite Hx. simpl. unfold record. simpl. by rewrite <- app_assoc.
Qed.

(** C2. For every batch, with [results] the predictions of its inputs,
    [issue_query] of the inline runner handles the pairs in the iteration
    order of the batch: for each pair it calls [predict] and then, before it
    looks at the next pair, the callback with the single-entry dict
    [{query_id: output}].  So the callback is invoked once per pair, in
    order, each time after the prediction it carries. *)
Theorem inline_issue_query_in_order (s : Self) (w : World)
    (queries : QueryInput ModelInput) (results : list QueryResult)
    (callback : Callback) :
  Forall2 (λ qx r, predict qx.2 = Some r) queries results →
  issue_query predict queries callback (s, w) =
    (Ok (),
     (s, {| log := log w ++
              (zip queries results ≫= λ qxr,
                 [EPredict MainThread (model s) qxr.1.2;
                  ECallback callback {[ qxr.1.1 := qxr.2 ]}]);
            next_model := next_model w |})).
Proof.
  intros H. revert w. unfold issue_query.
  induction H as [|[q x] r queries results Hr _ IH]; intros w; simpl.
  - rewrite app_nil_r. by destruct w.
  - simpl in Hr.
    unfold mbind at 1, M_bind at 1.
    unfold model_predict, mbind, M_bind, emit, call, emit, self. simpl.
    rewrite Hr. simpl. rewrite IH. simpl.
    unfold record. simpl. by rewrite <- !app_assoc.
Qed.
End InlineProofs.

(** ** Python dicts built from pairs *)
Section Dict.
Context {QueryResult : Type}.

Lemma dict_of_pairs_snoc (pairs : list (QueryId * QueryResult)) q r :
  dict_of_pairs (pairs ++ [(q, r)]) = <[q := r]> (dict_of_pairs pairs).
Proof. unfold dict_of_pairs. by rewrite foldl_app. Qed.

Lemma dict_of_pairs_dom (pairs : list (QueryId * QueryResult)) :
  dom (dict_of_pairs pairs) = list_to_set pairs.*1.
Proof.
  induction pairs as [|[q r] pairs IH] using rev_ind; [done|].
  rewrite dict_of_pairs_snoc, dom_insert_L, IH, fmap_app, list_to_set_app_L.
  simpl. rewrite (right_id_L ∅ (∪)). apply (comm_L (∪)).
Qed.

(** With unique keys every pair is found under its key. *)
Lemma dict_of_pairs_lookup (pairs : list (QueryId * QueryResult)) q r :
  NoDup pairs.*1 → (q, r) ∈ pairs → dict_of_pairs pairs !! q = Some r.
Proof.
  induction pairs as [|[q' r'] pairs IH] using rev_ind; intros Hnd Hin.
  - by apply elem_of_nil in Hin.
  - rewrite dict_of_pairs_snoc. rewrite fmap_app in Hnd.
    apply NoDup_app in Hnd as (Hnd & Hdisj & _).
    apply elem_of_app in Hin as [Hin|Hin].
    + rewrite lookup_insert_ne; [by apply IH|].
      intros ->. apply (Hdisj q); [|simpl; apply list_elem_of_singleton; done].
      apply list_elem_of_fmap. by exists (q, r).
    + apply list_elem_of_singleton in Hin. injection Hin as -> ->.
      by rewrite lookup_insert_eq.
Qed.
End Dict.

(** ** ModelRunnerMultiProcessingPool *)
Section MultiProcessingPoolProofs.
Context {ModelInput QueryResult : Type}.
Context (predict : ModelInput → option QueryResult).
Import ModelRunnerMultiProcessingPool.
#[local] Abbreviation World := (World ModelInput QueryResult).
#[local] Abbreviation Self := (Self ModelInput).

Lemma starmap_ok (m : Model) (inputs : list (QueryId * ModelInput))
    (results : list QueryResult) :
  Forall2 (λ qx r, predict qx.2 = Some r) inputs results →
  starmap predict (Some m) inputs = Ok (zip inputs.*1 results).
Proof.
  induction 1 as [|[q x] r inputs results Hr _ IH]; simpl; [done|].
  simpl in Hr. by rewrite Hr, IH.
Qed.


(** [get()] raises only what a call raised. *)
Lemma starmap_raise_inv (g : option Model) (inputs : list (QueryId * ModelInput)) e :
  starmap predict g inputs = Raise e →
  ∃ q x, (q, x) ∈ inputs ∧ _predict_with_id predict g q x = Raise e.
Proof.
  induction inputs as [|[q x] inputs IH]; simpl; [done|].
  destruct (_predict_with_id predict g q x) as [qr|e'] eqn:E.
  - destruct (starmap predict g inputs) as [l|e'] eqn:E'; [done|].
    intros [= ->]. destruct IH as (q' & x' & Hin & H); [done|].
    exists q', x'. split; [by right|done].
  - intros [= ->]. exists q, x. split; [by left|done].
Qed.

Lemma issue_query_idle (s : Self) (w : World) (p : Pool)
    (queries : QueryInput ModelInput) (callback : Callback) :
  task s = None → callback_fn s = None → pool s = Some p →
  issue_query queries callback (s, w) =
    (Ok (),
     (set_task (Some {| mr_pool := p; mr_inputs := queries |})
        (set_callback_fn (Some callback) s), w)).
Proof.
  intros Ht Hc Hp. unfold issue_query, mbind, M_bind, self, assert. simpl.
  by rewrite Ht, Hc, Hp.
Qed.

(** Issued before [__enter__]: the callback is stored, then [self.pool]
    is missing. *)
Lemma issue_query_no_pool (s : Self) (w : World)
    (queries : QueryInput ModelInput) (callback : Callback) :
  task s = None → callback_fn s = None → pool s = None →
  issue_query queries callback (s, w) =
    (Raise AttributeError, (set_callback_fn (Some callback) s, w)).
Proof.
  intros Ht Hc Hp. unfold issue_query, mbind, M_bind, self, assert. simpl.
  by rewrite Ht, Hc, Hp.
Qed.

Lemma issue_query_pending (s : Self) (w : World)
    (queries : QueryInput ModelInput) (callback : Callback) :
  task s ≠ None ∨ callback_fn s ≠ None →
  issue_query queries callback (s, w) = (Raise AssertionError, (s, w)).
Proof.
  intros H. unfold issue_query, mbind, M_bind, self, assert. simpl.
  destruct (task s); [done|]. destruct (callback_fn s); [done|].
  by destruct H.
Qed.

Lemma issue_query_ok_inv (s : Self) (w : World)
    (queries : QueryInput ModelInput) (callback : Callback) sw' :
  issue_query queries callback (s, w) = (Ok (), sw') →
  task s = None ∧ callback_fn s = None.
Proof.
  destruct (task s) eqn:Ht.
  { rewrite issue_query_pending; [done|]. left. by rewrite Ht. }
  destruct (callback_fn s) eqn:Hc.
  { rewrite issue_query_pending; [done|]. right. by rewrite Hc. }
  done.
Qed.

Lemma flush_queries_ok (s : Self) (w : World) (t : MapResult ModelInput)
    (callback : Callback) (task_result : list (QueryId * QueryResult)) :
  task s = Some t → callback_fn s = Some callback →
  MapResult_get predict t = Ok task_result →
  flush_queries predict (s, w) =
    (Ok (),
     (set_callback_fn None (set_task None s),
      record (ECallback callback (dict_of_pairs task_result)) w)).
Proof.
  intros Ht Hc Hg.
  unfold flush_queries, mbind, M_bind, self, lift_result. simpl.
  rewrite Ht. simpl. by rewrite Hg, Hc.
Qed.

Lemma flush_queries_raise (s : Self) (w : World) (t : MapResult ModelInput) e :
  task s = Some t → MapResult_get predict t = Raise e →
  flush_queries predict (s, w) = (Raise e, (s, w)).
Proof.
  intros Ht Hg.
  unfold flush_queries, mbind, M_bind, self, lift_result. simpl.
  rewrite Ht. simpl. by rewrite Hg.
Qed.

(** C4. For the batch runner in the idle state, [issue_query] returns at
    once: it stores the grouped task and the callback and invokes nothing
    (the world is unchanged).  The [flush_queries] that follows gets the
    whole result of the grouped task, invokes the callback exactly once,
    with the dict that maps every query id of the batch to its prediction,
    and leaves the runner idle again: task and callback are [None]. *)
Theorem batch_issue_then_flush (s : Self) (w : World) (p : Pool) (m : Model)
    (queries : QueryInput ModelInput) (results : list QueryResult)
    (callback : Callback) :
  task s = None → callback_fn s = None →
  pool s = Some p → globals p = Some m →
  wf_queries queries →
  Forall2 (λ qx r, predict qx.2 = Some r) queries results →
  ∃ s1 s2 d,
    issue_query queries callback (s, w) = (Ok (), (s1, w)) ∧
    task s1 = Some {| mr_pool := p; mr_inputs := queries |} ∧
    callback_fn s1 = Some callback ∧
    flush_queries predict (s1, w) =
      (Ok (), (s2, record (ECallback callback d) w)) ∧
    dom d = list_to_set queries.*1 ∧
    (∀ q x, (q, x) ∈ queries → d !! q = predict x) ∧
    task s2 = None ∧ callback_fn s2 = None ∧ s2 = s.
Proof.
  intros Ht Hc Hp Hg Hwf Hres.
  eexists _, _, _. split; [by apply issue_query_idle|].
  split; [done|]. split; [done|].
  split.
  { eapply flush_queries_ok; [done..|].
    unfold MapResult_get. simpl. rewrite Hg. by apply starmap_ok. }
  assert (Hlen : length queries.*1 = length results).
  { rewrite length_fmap. by eapply Forall2_length. }
  split.
  { by rewrite dict_of_pairs_dom, fst_zip by lia. }
  split.
  { intros q x Hin.
    apply list_elem_of_lookup in Hin as [i Hi].
    destruct (Forall2_lookup_l _ _ _ _ _ Hres Hi) as (r & Hr & Hpr).
    simpl in Hpr. rewrite Hpr. apply dict_of_pairs_lookup.
    - by rewrite fst_zip by lia.
    - apply list_elem_of_lookup. exists i. rewrite lookup_zip_with.
      by rewrite list_lookup_fmap, Hi, Hr. }
  split; [done|]. split; [done|].
  destruct s; simpl in *; by subst.
Qed.

(** C5. For the batch runner with no task pending (a runner just built, or
    one whose last batch was flushed), [flush_queries] raises: [self.task]
    is [None] and has no [get].  Nothing is invoked and nothing changes. *)
Theorem batch_flush_idle (s : Self) (w : World) :
  task s = None →
  ∃ e, LifecycleError e ∧ flush_queries predict (s, w) = (Raise e, (s, w)).
Proof.
  intros Ht. exists AttributeError. split; [by right|].
  unfold flush_queries, mbind, M_bind, self. simpl. by rewrite Ht.
Qed.

Lemma batch_init_idle (n : nat) (w : World) :
  task (__init__ Factory n w).1 = None.
Proof. done. Qed.
End MultiProcessingPoolProofs.

(** Case analysis on the step of a worker. *)
Ltac step_inv H :=
  unfold ModelRunnerPoolExecutor.step in H; simpl in H;
  match type of H with
  | context [ModelRunnerPoolExecutor.executor ?s] =>
      let ex := fresh "ex" in let Hex := fresh "Hex" in
      destruct (ModelRunnerPoolExecutor.executor s) as [ex|] eqn:Hex;
      simpl in H; [|done];
      match type of H with
      | context [ModelRunnerPoolExecutor.workers ex !! ?t] =>
          let wk := fresh "wk" in let Hwk := fresh "Hwk" in
          let Hst := fresh "Hst" in
          destruct (ModelRunnerPoolExecutor.workers ex !! t) as [wk|] eqn:Hwk;
          simpl in H; [|done];
          destruct (ModelRunnerPoolExecutor.status wk) eqn:Hst
      end
  end.

(** ** ModelRunnerPoolExecutor *)
Section PoolExecutorProofs.
Context {ModelInput QueryResult : Type}.
Context (predict : ModelInput → option QueryResult).
Import ModelRunnerPoolExecutor.
#[local] Abbreviation World := (World ModelInput QueryResult).
#[local] Abbreviation Self := (Self ModelInput QueryResult).
#[local] Abbreviation Executor := (Executor ModelInput QueryResult).

#[local] Arguments adjust_thread_count : simpl never.

(** *** [issue_query] *)

Lemma pool_issue_query_pending (s : Self) (w : World)
    (queries : QueryInput ModelInput) (callback : Callback) :
  futures s ≠ ∅ →
  issue_query queries callback (s, w) = (Raise AssertionError, (s, w)).
Proof.
  intros H. unfold issue_query, mbind, M_bind, self, assert. simpl.
  by rewrite bool_decide_eq_false_2.
Qed.

Lemma pool_issue_query_ok_inv (s : Self) (w : World)
    (queries : QueryInput ModelInput) (callback : Callback) sw' :
  issue_query queries callback (s, w) = (Ok (), sw') → futures s = ∅.
Proof.
  destruct (decide (futures s = ∅)) as [|Hne]; [done|].
  by rewrite pool_issue_query_pending.
Qed.

Lemma submit_all_snoc g fn queries q x (ex : Executor) :
  submit_all g fn (queries ++ [(q, x)]) ex =
  (submit g fn x (submit_all g fn queries ex)).2.
Proof. unfold submit_all. by rewrite foldl_app. Qed.

Lemma adjust_thread_count_fields g (ex : Executor) :
  let ex' := adjust_thread_count g ex in
  max_workers ex' = max_workers ex ∧ initializer ex' = initializer ex ∧
  work_queue ex' = work_queue ex ∧ next_future ex' = next_future ex ∧
  finished ex' = finished ex.
Proof.
  unfold adjust_thread_count. destruct (idle_semaphore ex); [|done].
  by case_decide.
Qed.

(** [_adjust_thread_count] keeps the workers it has; what it adds is one
    worker that holds no work item. *)
Lemma adjust_thread_count_workers g (ex : Executor) :
  ∃ new, workers (adjust_thread_count g ex) = workers ex ++ new ∧
    (length (workers ex) ≤ max_workers ex →
     length (workers ex ++ new) ≤ max_workers ex)%nat ∧
    Forall (λ wk, status wk = (if initializer ex then Starting else Polling)
                  ∧ globals wk = g) new.
Proof.
  unfold adjust_thread_count. destruct (idle_semaphore ex).
  - case_decide.
    + eexists [_]. simpl. split; [done|]. split.
      * rewrite length_app. simpl. lia.
      * by repeat constructor.
    + exists []. rewrite app_nil_r. by repeat split.
  - exists []. rewrite app_nil_r. by repeat split.
Qed.

Lemma submit_all_fields g fn queries (ex : Executor) :
  let ex' := submit_all g fn queries ex in
  max_workers ex' = max_workers ex ∧ initializer ex' = initializer ex ∧
  work_queue ex' = work_queue ex ++
    ((λ fqx, (fqx.1, fn, fqx.2.2)) <$> handles (next_future ex) queries) ∧
  next_future ex' = (next_future ex + length queries)%nat ∧
  finished ex' = finished ex.
Proof.
  induction queries as [|[q x] queries IH] using rev_ind; simpl.
  { unfold handles. simpl. rewrite app_nil_r. by rewrite Nat.add_0_r. }
  rewrite submit_all_snoc. simpl in IH. destruct IH as (IH1 & IH2 & IH3 & IH4 & IH5).
  unfold submit; simpl.
  match goal with |- context [adjust_thread_count g ?e] =>
    destruct (adjust_thread_count_fields g e) as (H1 & H2 & H3 & H4 & H5) end.
  simpl in *. rewrite H1, H2, H3, H4, H5, IH1, IH2, IH3, IH4, IH5.
  repeat split.
  - rewrite <- app_assoc. f_equal. unfold handles.
    rewrite length_app. simpl. rewrite seq_app. simpl.
    rewrite zip_with_app by by rewrite length_seq.
    rewrite fmap_app. by simpl.
  - rewrite length_app. simpl. lia.
Qed.

Lemma submit_all_workers g fn queries (ex : Executor) :
  ∃ new, workers (submit_all g fn queries ex) = workers ex ++ new ∧
    (length (workers ex) ≤ max_workers ex →
     length (workers ex ++ new) ≤ max_workers ex)%nat ∧
    Forall (λ wk, status wk = (if initializer ex then Starting else Polling)
                  ∧ globals wk = g) new.
Proof.
  induction queries as [|[q x] queries IH] using rev_ind.
  { exists []. rewrite app_nil_r. by repeat split. }
  rewrite submit_all_snoc. destruct IH as (new & IH1 & IH2 & IH3).
  pose proof (submit_all_fields g fn queries ex) as (F1 & F2 & _).
  unfold submit. simpl.
  match goal with |- context [adjust_thread_count g ?e] =>
    destruct (adjust_thread_count_workers g e) as (new' & H1 & H2 & H3) end.
  simpl in *. exists (new ++ new'). rewrite H1, IH1, app_assoc.
  split; [done|]. split.
  - intros Hle. rewrite IH1, F1 in H2. apply H2. by apply IH2.
  - apply Forall_app. split; [done|]. by rewrite F2 in H3.
Qed.

(** The loop of [issue_query]: it cannot fail once the executor is there. *)
Lemma issue_loop (s : Self) (w : World) (ex : Executor) fn
    (queries : QueryInput ModelInput) :
  executor s = Some ex →
  for_ queries (λ '(query_id, model_input),
    f ← executor_submit fn model_input;
    update (λ s, set_futures (<[f := query_id]> (futures s)) s)) (s, w) =
  (Ok (),
   (set_futures
      (foldl (λ m fqx, <[fqx.1 := fqx.2.1]> m) (futures s)
         (handles (next_future ex) queries))
      (set_executor (Some (submit_all (_model s) fn queries ex)) s), w)).
Proof.
  revert s ex. induction queries as [|[q x] queries IH]; intros s ex Hex.
  { simpl. unfold mret, M_ret. do 2 f_equal. destruct s; simpl in *; by subst. }
  simpl. unfold mbind at 1, M_bind at 1.
  unfold executor_submit, mbind, M_bind, self, update at 1 2. simpl.
  rewrite Hex. simpl.
  erewrite IH by done. simpl.
  destruct (adjust_thread_count_fields (_model s)
    {| max_workers := max_workers ex; initializer := initializer ex;
       workers := workers ex; idle_semaphore := idle_semaphore ex;
       work_queue := work_queue ex ++ [(next_future ex, fn, x)];
       next_future := S (next_future ex); finished := finished ex |})
    as (_ & _ & _ & -> & _).
  done.
Qed.

(** *** What a predictor call and a work item do *)

Lemma model_predict_spec {S} u m x (s : S) (w : World) :
  model_predict predict u m x (s, w) =
    (prediction predict x, (s, record (EPredict u m x) w)).
Proof.
  unfold model_predict, prediction, mbind, M_bind, emit. simpl.
  by destruct (predict x).
Qed.

Lemma sound_prediction x : sound_outcome predict (prediction predict x) x.
Proof.
  unfold sound_outcome, prediction. destruct (predict x); [done|]. by right.
Qed.

(** A predictor call changes nothing but the log, where it leaves at most
    the call of [predict], made on the model the predictor found. *)
Lemma apply_predictor_spec t g fn x (s : Self) (w : World) :
  ∃ o evs,
    apply_predictor predict t g fn x (s, w) =
      (o, (s, {| log := log w ++ evs; next_model := next_model w |})) ∧
    sound_outcome predict o x ∧
    ((evs = [] ∧ o = Raise AttributeError ∧
      match fn with
      | BoundPredict _ => False
      | TlsPredict =>
          tls s = None ∨ ∃ l, tls s = Some l ∧ tls_model s !! (l, t) = None
      | ProcessPredict => g = None
      end) ∨
     ∃ m, o = prediction predict x ∧
       match fn with
       | BoundPredict m' => m = m' ∧ evs = [EPredict (unit_of (kind s) t) m x]
       | TlsPredict =>
           evs = [EPredict (WorkerThread t) m x] ∧
           ∃ l, tls s = Some l ∧ tls_model s !! (l, t) = Some m
       | ProcessPredict => evs = [EPredict (WorkerProcess t) m x] ∧ g = Some m
       end).
Proof.
  destruct fn as [m| |]; simpl.
  - exists (prediction predict x), [EPredict (unit_of (kind s) t) m x].
    unfold mbind, M_bind, self. simpl. rewrite model_predict_spec.
    split; [done|]. split; [apply sound_prediction|]. right. by exists m.
  - unfold _tls_predict, mbind, M_bind, self. simpl.
    destruct (tls s) as [l|] eqn:Hl; simpl.
    2:{ exists (Raise AttributeError), []. rewrite app_nil_r.
        split; [by destruct w|]. split; [by left|]. left. by repeat split; left. }
    destruct (tls_model s !! (l, t)) as [m|] eqn:Hm; simpl.
    2:{ exists (Raise AttributeError), []. rewrite app_nil_r.
        split; [by destruct w|]. split; [by left|]. left.
        repeat split. right. by exists l. }
    rewrite model_predict_spec.
    exists (prediction predict x), [EPredict (WorkerThread t) m x].
    split; [done|]. split; [apply sound_prediction|]. right.
    exists m. split; [done|]. split; [done|]. by exists l.
  - unfold _predict, mbind, M_bind. simpl.
    destruct g as [m|]; simpl.
    2:{ exists (Raise AttributeError), []. rewrite app_nil_r.
        split; [by destruct w|]. split; [by left|]. by left. }
    rewrite model_predict_spec.
    exists (prediction predict x), [EPredict (WorkerProcess t) m x].
    split; [by destruct (prediction predict x)|].
    split; [apply sound_prediction|]. right. by exists m.
Qed.

(** [_future_callback] on a future of the table: the entry goes, and the
    callback gets the result, or the exception of the future comes out. *)
Lemma future_callback_spec f o q cb (s : Self) (w : World) :
  futures s !! f = Some q → callback_fn s = Some cb →
  _future_callback f o (s, w) =
    match o with
    | Ok r => (Ok (), (set_futures (delete f (futures s)) s,
                       record (ECallback cb {[ q := r ]}) w))
    | Raise e => (Raise e, (set_futures (delete f (futures s)) s, w))
    end.
Proof.
  intros Hf Hc. unfold _future_callback, mbind, M_bind, self. simpl.
  rewrite Hf. simpl. destruct o; simpl; [|done]. by rewrite Hc.
Qed.

(** Whatever the table holds, [_future_callback] touches only the table,
    and the log by at most one callback event. *)
Lemma future_callback_frame f o (s : Self) (w : World) :
  ∃ r tbl evs,
    _future_callback f o (s, w) =
      (r, (set_futures tbl s, {| log := log w ++ evs; next_model := next_model w |})) ∧
    (tbl = futures s ∨ tbl = delete f (futures s)) ∧
    (evs = [] ∨ ∃ cb d, evs = [ECallback cb d] ∧ r = Ok ()).
Proof.
  unfold _future_callback, mbind, M_bind, self. simpl.
  destruct (futures s !! f) as [q|] eqn:Hf; simpl.
  2:{ exists (Raise KeyError), (futures s), []. rewrite app_nil_r.
      split; [by destruct s, w|]. split; by left. }
  destruct o as [r|e]; simpl.
  2:{ exists (Raise e), (delete f (futures s)), []. rewrite app_nil_r.
      split; [by destruct w|]. split; [by right|by left]. }
  destruct (callback_fn s) as [cb|] eqn:Hc; simpl.
  2:{ exists (Raise TypeError), (delete f (futures s)), []. rewrite app_nil_r.
      split; [by destruct w|]. split; [by right|by left]. }
  exists (Ok ()), (delete f (futures s)), [ECallback cb {[ q := r ]}].
  split; [done|]. split; [by right|]. right. by eexists _, _.
Qed.

Lemma run_work_item_spec t g f fn x q cb (s : Self) (w : World) ex :
  executor s = Some ex → futures s !! f = Some q → callback_fn s = Some cb →
  ∃ o evs,
    apply_predictor predict t g fn x (s, w) =
      (o, (s, {| log := log w ++ evs; next_model := next_model w |})) ∧
    run_work_item predict t g f fn x (s, w) =
      (Ok (),
       (set_futures (delete f (futures s))
          (set_executor (Some (set_finished f o ex)) s),
        {| log := log w ++ evs ++
             [match o with
              | Ok r => ECallback cb {[ q := r ]}
              | Raise e => ELogged e
              end];
           next_model := next_model w |})).
Proof.
  intros Hex Hf Hc.
  destruct (apply_predictor_spec t g fn x s w) as (o & evs & Happ & _).
  exists o, evs. split; [done|].
  unfold run_work_item. rewrite Happ. simpl. rewrite Hex. simpl.
  rewrite (future_callback_spec f o q cb) by done.
  destruct o; simpl; unfold emit, record; simpl; by rewrite <- app_assoc.
Qed.

(** *** The work items held by the workers *)

Lemma running_app (l1 l2 : list (Worker ModelInput)) :
  running (l1 ++ l2) = running l1 ++ running l2.
Proof. apply omap_app. Qed.

Lemma running_cons wk (l : list (Worker ModelInput)) :
  running (wk :: l) = item_of (status wk) ++ running l.
Proof. unfold running. simpl. by destruct (status wk). Qed.

Lemma running_alter t st wk (ws : list (Worker ModelInput)) :
  ws !! t = Some wk →
  item_of (status wk) ++
    running (alter (λ wk, {| status := st; globals := globals wk |}) t ws)
  ≡ₚ item_of st ++ running ws.
Proof.
  revert t. induction ws as [|w0 ws IH]; intros [|t] Ht;
    simpl in Ht; simplify_eq; cbn [alter list_alter].
  - rewrite !running_cons. simpl. apply Permutation_app_swap_app.
  - rewrite !running_cons. rewrite Permutation_app_swap_app.
    rewrite (IH _ Ht). apply Permutation_app_swap_app.
Qed.

Lemma pending_items_set_worker t st wk (ex : Executor) :
  workers ex !! t = Some wk →
  item_of (status wk) ++ pending_items (set_worker t st ex)
  ≡ₚ item_of st ++ pending_items ex.
Proof.
  intros Ht. unfold pending_items. simpl.
  rewrite !(Permutation_app_comm (work_queue ex)), !app_assoc.
  apply Permutation_app_tail. by apply running_alter.
Qed.

(** *** One step of a worker *)

Lemma tls_init_2_spec t (s : Self) (w : World) :
  _tls_init_2 t (s, w) =
    match model_factory s with
    | None => (Raise AttributeError, (s, w))
    | Some mf =>
        match tls s with
        | None =>
            (Raise AttributeError,
             (s, (factory_create mf (WorkerThread t) w).2))
        | Some l =>
            (Ok (),
             (set_tls_model (<[(l, t) := next_model w]> (tls_model s)) s,
              (factory_create mf (WorkerThread t) w).2))
        end
    end.
Proof.
  unfold _tls_init_2, mbind, M_bind, self, create. simpl.
  destruct (model_factory s); simpl; [|done]. by destruct (tls s).
Qed.

(** What a step does to the handle table, the outcomes and the log: either
    nothing, or it completes one future of the table. *)
Lemma step_summary t (s s' : Self) (w w' : World) :
  pool_inv s → step predict t (s, w) = Some (s', w') →
  ∃ ex ex' wk,
    executor s = Some ex ∧ executor s' = Some ex' ∧ workers ex !! t = Some wk ∧
    callback_fn s' = callback_fn s ∧ next_future ex' = next_future ex ∧
    ((item_of (status wk) = [] ∧
      futures s' = futures s ∧ finished ex' = finished ex ∧
      pending_items ex' ≡ₚ pending_items ex ∧
      callbacks (log w') = callbacks (log w) ∧
      logged (log w') = logged (log w))
     ∨
     (∃ f fn x q cb o,
        status wk = Running f fn x ∧
        futures s !! f = Some q ∧ callback_fn s = Some cb ∧
        futures s' = delete f (futures s) ∧
        finished ex' = <[f := o]> (finished ex) ∧
        pending_items ex ≡ₚ (f, fn, x) :: pending_items ex' ∧
        callbacks (log w') = callbacks (log w) ++
          match o with Ok r => [(cb, {[ q := r ]})] | Raise _ => [] end ∧
        logged (log w') = logged (log w) ++
          match o with Ok _ => [] | Raise e => [e] end ∧
        sound_outcome predict o x ∧
        (finds_model s → o = prediction predict x))).
Proof.
  intros Hinv H. step_inv H.
  - (* the first statement of the initializer *)
    injection H as <- <-. eexists ex, _, wk. repeat (split; [done|]). left.
    rewrite Hst. repeat (split; [done|]). split; [|done].
    pose proof (pending_items_set_worker t Initializing wk ex Hwk) as HP.
    by rewrite Hst in HP.
  - (* its second statement *)
    rewrite tls_init_2_spec in H.
    assert (Hp : ∀ st, st = Polling ∨ st = Dead →
              pending_items (set_worker t st ex) ≡ₚ pending_items ex).
    { intros st Hor.
      pose proof (pending_items_set_worker t st wk ex Hwk) as HP.
      rewrite Hst in HP. by destruct Hor as [-> | ->]. }
    destruct (model_factory s) as [mf|]; [destruct (tls s) as [l|]|];
      simpl in H; rewrite ?Hex in H; simpl in H; injection H as <- <-;
      eexists ex, _, wk; simpl; rewrite ?Hex; simpl;
      repeat (split; [done|]); left; rewrite Hst; repeat (split; [done|]).
    + split; [apply Hp; by left|]. by rewrite callbacks_app, logged_app, !app_nil_r.
    + split; [apply Hp; by right|]. by rewrite callbacks_app, logged_app, !app_nil_r.
    + split; [apply Hp; by right|]. done.
  - (* looking at the queue *)
    destruct (work_queue ex) as [|[[f fn] x] q] eqn:Hq;
      injection H as <- <-; eexists ex, _, wk; simpl; rewrite ?Hex; simpl;
      repeat (split; [done|]); left; rewrite Hst; repeat (split; [done|]).
    + split; [|done].
      pose proof (pending_items_set_worker t Blocked wk (release_idle ex) Hwk) as HP.
      rewrite Hst in HP. simpl in HP. by rewrite HP.
    + split; [|done].
      pose proof (pending_items_set_worker t (Running f fn x) wk
                    (set_work_queue q ex) Hwk) as HP.
      rewrite Hst in HP. simpl in HP. rewrite HP.
      unfold pending_items. simpl. by rewrite Hq.
  - (* woken up *)
    destruct (work_queue ex) as [|[[f fn] x] q] eqn:Hq; [done|].
    injection H as <- <-; eexists ex, _, wk; simpl; rewrite ?Hex; simpl.
    repeat (split; [done|]); left; rewrite Hst; repeat (split; [done|]).
    split; [|done].
    pose proof (pending_items_set_worker t (Running f fn x) wk
                  (set_work_queue q ex) Hwk) as HP.
    rewrite Hst in HP. simpl in HP. rewrite HP.
    unfold pending_items. simpl. by rewrite Hq.
  - (* running a work item *)
    assert (Hin : f ∈ (pending_items ex).*1.*1).
    { apply list_elem_of_fmap. exists (f, fn). split; [done|].
      apply list_elem_of_fmap. exists (f, fn, x). split; [done|].
      unfold pending_items. apply elem_of_app. right.
      unfold running. apply list_elem_of_omap. exists wk.
      split; [by eapply list_elem_of_lookup_2|]. by rewrite Hst. }
    apply (inv_table _ Hinv ex f Hex) in Hin as [q Hq].
    destruct (callback_fn s) as [cb|] eqn:Hcb.
    2:{ destruct (inv_callback _ Hinv) as [? ?]; [|congruence].
        intros Hem. by rewrite Hem in Hq. }
    destruct (run_work_item_spec t (globals wk) f fn x q cb s w ex Hex Hq Hcb)
      as (o & evs & Happ & Hrun).
    unfold mbind, M_bind in H. rewrite Hrun in H. simpl in H.
    injection H as <- <-.
    eexists ex, _, wk. simpl. repeat (split; [done|]). right.
    exists f, fn, x, q, cb, o. repeat (split; [done|]).
    destruct (apply_predictor_spec t (globals wk) fn x s w)
      as (o' & evs' & Happ' & Hsound & Hevs).
    rewrite Happ in Happ'. injection Happ' as <- Hevs'.
    apply app_inv_head in Hevs' as <-.
    split.
    { pose proof (pending_items_set_worker t Polling wk (set_finished f o ex) Hwk) as HP.
      rewrite Hst in HP. simpl in HP. symmetry. exact HP. }
    assert (Hquiet : callbacks evs = [] ∧ logged evs = []).
    { destruct Hevs as [(-> & _)|(m & _ & Hm)]; [done|].
      destruct fn; [destruct Hm as [_ ->]|destruct Hm as [-> _]..]; done. }
    destruct Hquiet as [Hc Hl].
    rewrite !callbacks_app, !logged_app, Hc, Hl. simpl.
    split; [by destruct o|]. split; [by destruct o|]. split; [done|].
    intros Hfm. destruct Hevs as [(_ & -> & Hbad)|(m & -> & _)]; [|done].
    exfalso. unfold finds_model in Hfm. destruct (kind s).
    + destruct Hfm as [_ Hfm].
      destruct (Hfm ex (f, fn, x) Hex) as [m Hm].
      { unfold pending_items. apply elem_of_app. right.
        unfold running. apply list_elem_of_omap. exists wk.
        split; [by eapply list_elem_of_lookup_2|]. by rewrite Hst. }
      simpl in Hm. by subst fn.
    + done.
    + destruct Hfm as [_ Hfm]. destruct (Hfm ex Hex) as [Hfn Hg].
      assert (Hfn' : fn = ProcessPredict).
      { apply (Hfn (f, fn, x)).
        unfold pending_items. apply elem_of_app. right.
        unfold running. apply list_elem_of_omap. exists wk.
        split; [by eapply list_elem_of_lookup_2|]. by rewrite Hst. }
      subst fn. destruct (Hg wk) as [m Hm]; [by eapply list_elem_of_lookup_2|].
      by rewrite Hm in Hbad.
  - done.
Qed.

Lemma step_pool_inv t (s s' : Self) (w w' : World) :
  pool_inv s → step predict t (s, w) = Some (s', w') → pool_inv s'.
Proof.
  intros Hinv H.
  destruct (step_summary _ _ _ _ _ Hinv H)
    as (ex & ex' & wk & Hex & Hex' & Hwk & Hcb & Hnf & Hcase).
  destruct Hcase as [(_ & Hf & Hfin & Hp & _)|
    (f & fn & x & q & cb & o & Hst & Hq & Hcb' & Hf & Hfin & Hp & _)].
  - split.
    + intros He. congruence.
    + intros ex0 He; assert (ex0 = ex') as -> by congruence. rewrite Hp. by apply Hinv.
    + intros ex0 f He; assert (ex0 = ex') as -> by congruence. rewrite Hf, Hp. by apply Hinv.
    + intros ex0 f He; assert (ex0 = ex') as -> by congruence. rewrite Hf, Hfin, Hnf. by apply Hinv.
    + intros ex0 f He; assert (ex0 = ex') as -> by congruence. rewrite Hfin, Hnf. by apply Hinv.
    + rewrite Hf, Hcb. by apply Hinv.
  - pose proof (inv_nodup _ Hinv ex Hex) as Hnd.
    rewrite Hp in Hnd. simpl in Hnd. apply NoDup_cons in Hnd as [Hnin Hnd].
    split.
    + intros He. congruence.
    + by intros ex0 He; assert (ex0 = ex') as -> by congruence.
    + intros ex0 f' He; assert (ex0 = ex') as -> by congruence. rewrite Hf.
      pose proof (inv_table _ Hinv ex f' Hex) as Ht.
      rewrite Hp in Ht. simpl in Ht.
      destruct (decide (f' = f)) as [->|Hne].
      * rewrite lookup_delete_eq. split; [by intros []|done].
      * rewrite lookup_delete_ne by done. rewrite Ht.
        rewrite elem_of_cons. split; [by intros [|]|by right].
    + intros ex0 f' He; assert (ex0 = ex') as -> by congruence. rewrite Hf, Hfin, Hnf.
      destruct (decide (f' = f)) as [->|Hne].
      * rewrite lookup_delete_eq. by intros [].
      * rewrite lookup_delete_ne, lookup_insert_ne by done. by apply Hinv.
    + intros ex0 f' He; assert (ex0 = ex') as -> by congruence. rewrite Hfin, Hnf.
      destruct (decide (f' = f)) as [->|Hne].
      * intros _. by apply (inv_pending _ Hinv ex f Hex).
      * rewrite lookup_insert_ne by done. by apply Hinv.
    + intros Hne. rewrite Hcb, Hcb'. done.
Qed.

Lemma exec_pool_inv sched (s s' : Self) (w w' : World) :
  pool_inv s → exec predict sched (s, w) = Some (s', w') → pool_inv s'.
Proof.
  revert s w. induction sched as [|t sched IH]; intros s w Hinv H; simpl in H.
  - by injection H as <- <-.
  - destruct (step predict t (s, w)) as [[s1 w1]|] eqn:Hstep; [|done].
    simpl in H. eapply IH; [|done]. by eapply step_pool_inv.
Qed.

(** The workers only ever remove entries from the handle table, and never
    change the callback. *)
Lemma exec_table_shrinks sched (s s' : Self) (w w' : World) :
  pool_inv s → exec predict sched (s, w) = Some (s', w') →
  futures s' ⊆ futures s ∧ callback_fn s' = callback_fn s.
Proof.
  revert s w. induction sched as [|t sched IH]; intros s w Hinv H; simpl in H.
  - by injection H as <- <-.
  - destruct (step predict t (s, w)) as [[s1 w1]|] eqn:Hstep; [|done].
    simpl in H.
    destruct (IH s1 w1) as [Hsub Hcb]; [by eapply step_pool_inv|done|].
    destruct (step_summary _ _ _ _ _ Hinv Hstep)
      as (ex & ex' & wk & Hex & Hex' & Hwk & Hcb' & Hnf & Hcase).
    split; [|congruence].
    destruct Hcase as [(_ & Hf & _)|(f & fn & x & q & cb & o & _ & _ & _ & Hf & _)].
    + by rewrite <- Hf.
    + etrans; [done|]. rewrite Hf. apply delete_subseteq.
Qed.

(** The outcome of a future that has left the table stays. *)
Lemma exec_outcome_stable sched (s s' : Self) (w w' : World) f o :
  pool_inv s → exec predict sched (s, w) = Some (s', w') →
  futures s !! f = None → outcome s f = Some o → outcome s' f = Some o.
Proof.
  revert s w. induction sched as [|t sched IH]; intros s w Hinv H Hf Ho;
    simpl in H.
  - by injection H as <- <-.
  - destruct (step predict t (s, w)) as [[s1 w1]|] eqn:Hstep; [|done].
    simpl in H.
    destruct (step_summary _ _ _ _ _ Hinv Hstep)
      as (ex & ex' & wk & Hex & Hex' & Hwk & Hcb' & Hnf & Hcase).
    eapply (IH s1 w1); [by eapply step_pool_inv|done|..].
    + destruct Hcase as [(_ & Hf' & _)|(f' & fn & x & q & cb & o' & _ & _ & _ & Hf' & _)];
        rewrite Hf'; [done|].
      apply lookup_delete_None. by right.
    + unfold outcome in *. rewrite Hex in Ho. rewrite Hex'. simpl in *.
      destruct Hcase as [(_ & _ & Hfin & _)|
        (f' & fn & x & q & cb & o' & _ & Hq & _ & _ & Hfin & _)]; rewrite Hfin; [done|].
      rewrite lookup_insert_ne; [done|]. intros ->. congruence.
Qed.

(** The ledger.  Whatever the schedule, the callback invocations made while
    it runs are, up to their order, one for each future of the table that has
    returned by the end, with the single-entry dict of its query id and its
    result; and the exceptions logged are those of the futures that raised. *)
Lemma exec_ledger sched (s s' : Self) (w w' : World) cb :
  pool_inv s → exec predict sched (s, w) = Some (s', w') →
  callback_fn s = Some cb →
  callbacks (log w') ≡ₚ
    callbacks (log w) ++ settled cb (outcome s') (map_to_list (futures s)) ∧
  logged (log w') ≡ₚ
    logged (log w) ++ failures (outcome s') (map_to_list (futures s)).
Proof.
  revert s w. induction sched as [|t sched IH]; intros s w Hinv H Hcb;
    simpl in H.
  - injection H as <- <-.
    assert (Hnone : ∀ fq, fq ∈ map_to_list (futures s) → outcome s fq.1 = None).
    { intros [f q] Hin. apply elem_of_map_to_list in Hin. simpl.
      unfold outcome. destruct (executor s) as [ex|] eqn:Hex; [|done]. simpl.
      by apply (inv_pending _ Hinv ex f Hex). }
    unfold settled, failures.
    induction (map_to_list (futures s)) as [|fq l IHl]; simpl.
    { by rewrite !app_nil_r. }
    rewrite (Hnone fq) by by left. apply IHl. intros ??. apply Hnone. by right.
  - destruct (step predict t (s, w)) as [[s1 w1]|] eqn:Hstep; [|done].
    simpl in H.
    pose proof (step_pool_inv _ _ _ _ _ Hinv Hstep) as Hinv1.
    destruct (step_summary _ _ _ _ _ Hinv Hstep)
      as (ex & ex' & wk & Hex & Hex' & Hwk & Hcb' & Hnf & Hcase).
    destruct (IH s1 w1 Hinv1 H) as [IHc IHl]; [congruence|].
    destruct Hcase as [(_ & Hf & _ & _ & Hc & Hl)|
      (f & fn & x & q & cb' & o & _ & Hq & Hcb'' & Hf & Hfin & _ & Hc & Hl & _)].
    + by rewrite IHc, IHl, Hf, Hc, Hl.
    + assert (cb' = cb) as -> by congruence.
      assert (Ho : outcome s' f = Some o).
      { eapply exec_outcome_stable; [exact Hinv1|exact H|..].
        - rewrite Hf. apply lookup_delete_eq.
        - unfold outcome. rewrite Hex'. simpl. rewrite Hfin.
          apply lookup_insert_eq. }
      rewrite IHc, IHl, Hf, Hc, Hl. unfold settled, failures.
      rewrite <- !(map_to_list_delete (futures s) f q Hq).
      simpl. rewrite Ho. rewrite <- !app_assoc. by destruct o.
Qed.

(** *** What a step leaves alone *)

Lemma globals_alter t st (ws : list (Worker ModelInput)) :
  globals <$> alter (λ wk, {| status := st; globals := globals wk |}) t ws
  = globals <$> ws.
Proof.
  revert t. induction ws as [|w0 ws IH]; intros [|t]; simpl; [done..|].
  f_equal. apply IH.
Qed.

Lemma run_work_item_frame t g f fn x (s : Self) (w : World) :
  ∃ tbl o evs,
    run_work_item predict t g f fn x (s, w) =
      (Ok (),
       (set_futures tbl (set_executor (set_finished f o <$> executor s) s),
        {| log := log w ++ evs; next_model := next_model w |})) ∧
    creations evs = [] ∧
    ∀ u m x', (u, m, x') ∈ predictions evs →
      x' = x ∧
      match fn with
      | BoundPredict m' => m = m' ∧ u = unit_of (kind s) t
      | TlsPredict =>
          u = WorkerThread t ∧ ∃ l, tls s = Some l ∧ tls_model s !! (l, t) = Some m
      | ProcessPredict => u = WorkerProcess t ∧ g = Some m
      end.
Proof.
  destruct (apply_predictor_spec t g fn x s w) as (o & evs & Happ & _ & Hevs).
  unfold run_work_item. rewrite Happ. simpl.
  match goal with |- context [_future_callback f o (?s1, ?w1)] =>
    destruct (future_callback_frame f o s1 w1) as (r & tbl & evs' & Hcb & _ & Hevs')
  end.
  rewrite Hcb. simpl.
  assert (Hpred : ∀ u m x', (u, m, x') ∈ predictions evs →
      x' = x ∧
      match fn with
      | BoundPredict m' => m = m' ∧ u = unit_of (kind s) t
      | TlsPredict =>
          u = WorkerThread t ∧ ∃ l, tls s = Some l ∧ tls_model s !! (l, t) = Some m
      | ProcessPredict => u = WorkerProcess t ∧ g = Some m
      end).
  { intros u m x' Hin. destruct Hevs as [(-> & _)|(m' & _ & Hm)].
    { by apply elem_of_nil in Hin. }
    destruct fn; [destruct Hm as [-> ->]|destruct Hm as [-> Hm]..];
      apply list_elem_of_singleton in Hin; by simplify_eq. }
  assert (Hcr : creations evs = []).
  { destruct Hevs as [(-> & _)|(m' & _ & Hm)]; [done|].
    destruct fn; [destruct Hm as [-> ->]|destruct Hm as [-> Hm]..]; done. }
  destruct r as [[]|e].
  - exists tbl, o, (evs ++ evs'). rewrite app_assoc. split; [done|].
    rewrite creations_app, predictions_app, Hcr.
    destruct Hevs' as [->|(cb & d & -> & _)]; simpl; rewrite app_nil_r; done.
  - exists tbl, o, (evs ++ [ELogged e]).
    destruct Hevs' as [->|(cb & d & -> & ?)]; [|done].
    unfold emit, record. simpl. rewrite app_nil_r, app_assoc. split; [done|].
    rewrite creations_app, predictions_app, Hcr. simpl. by rewrite app_nil_r.
Qed.

Lemma step_frame t (s s' : Self) (w w' : World) :
  step predict t (s, w) = Some (s', w') →
  ∃ ex ex',
    executor s = Some ex ∧ executor s' = Some ex' ∧
    kind s' = kind s ∧ max_concurrency s' = max_concurrency s ∧
    model s' = model s ∧ _model s' = _model s ∧
    model_factory s' = model_factory s ∧
    max_workers ex' = max_workers ex ∧ initializer ex' = initializer ex ∧
    globals <$> workers ex' = globals <$> workers ex.
Proof.
  intros H. step_inv H.
  - injection H as <- <-. eexists ex, _. simpl. repeat (split; [done|]).
    apply globals_alter.
  - rewrite tls_init_2_spec in H.
    destruct (model_factory s) as [mf|] eqn:Hmf; [destruct (tls s) as [l|]|];
      simpl in H; rewrite ?Hex in H; simpl in H; injection H as <- <-;
      eexists ex, _; simpl; rewrite ?Hex; simpl;
      repeat (split; [done|]); apply globals_alter.
  - destruct (work_queue ex) as [|[[f fn] x] q] eqn:Hq;
      injection H as <- <-; eexists ex, _; simpl; rewrite ?Hex; simpl;
      repeat (split; [done|]); apply globals_alter.
  - destruct (work_queue ex) as [|[[f fn] x] q] eqn:Hq; [done|].
    injection H as <- <-; eexists ex, _; simpl; rewrite ?Hex; simpl;
      repeat (split; [done|]); apply globals_alter.
  - destruct (run_work_item_frame t (globals wk) f fn x s w)
      as (tbl & o & evs & Hrun & _).
    unfold mbind, M_bind in H. rewrite Hrun in H. simpl in H.
    rewrite Hex in H. simpl in H. injection H as <- <-.
    eexists ex, _. simpl. repeat (split; [done|]). apply globals_alter.
  - done.
Qed.

Lemma step_finds_model t (s s' : Self) (w w' : World) :
  pool_inv s → step predict t (s, w) = Some (s', w') →
  finds_model s → finds_model s'.
Proof.
  intros Hinv H Hfm.
  destruct (step_frame _ _ _ _ _ H)
    as (ex & ex' & Hex & Hex' & Hk & _ & Hm & Hm' & _ & _ & _ & Hg).
  destruct (step_summary _ _ _ _ _ Hinv H)
    as (ex0 & ex0' & wk & Hex0 & Hex0' & _ & _ & _ & Hcase).
  assert (ex0 = ex) as -> by congruence.
  assert (ex0' = ex') as -> by congruence.
  assert (Hsub : ∀ item, item ∈ pending_items ex' → item ∈ pending_items ex).
  { intros item Hin.
    destruct Hcase as [(_ & _ & _ & Hp & _)|(f & fn & x & q & cb & o & _ & _ & _ & _ & _ & Hp & _)];
      rewrite Hp in *; [done|by right]. }
  unfold finds_model in *. rewrite Hk, Hm, Hm'. destruct (kind s); [|done|].
  - destruct Hfm as [? Hfm]. split; [done|].
    intros ex1 item He1 Hin. assert (ex1 = ex') as -> by congruence.
    by apply (Hfm ex item Hex), Hsub.
  - destruct Hfm as [? Hfm]. split; [done|].
    intros ex1 He1. assert (ex1 = ex') as -> by congruence.
    destruct (Hfm ex Hex) as [Hfn Hgl]. split.
    + intros item Hin. by apply Hfn, Hsub.
    + intros wk' Hin.
      assert (Hing : globals wk' ∈ globals <$> workers ex').
      { apply list_elem_of_fmap. by exists wk'. }
      rewrite Hg in Hing. apply list_elem_of_fmap in Hing as (wk0 & -> & Hin0).
      by apply Hgl.
Qed.

(** The outcome stored for a future is that of its own work item. *)
Lemma exec_outcome_sound sched (s s' : Self) (w w' : World) ex f fn x o :
  pool_inv s → exec predict sched (s, w) = Some (s', w') →
  executor s = Some ex → (f, fn, x) ∈ pending_items ex →
  outcome s' f = Some o →
  sound_outcome predict o x ∧ (finds_model s → o = prediction predict x).
Proof.
  revert s w ex. induction sched as [|t sched IH]; intros s w ex Hinv H Hex Hin Ho;
    simpl in H.
  - injection H as <- <-. exfalso.
    assert (Hf : is_Some (futures s !! f)).
    { apply (inv_table _ Hinv ex f Hex), list_elem_of_fmap. exists (f, fn).
      split; [done|]. apply list_elem_of_fmap. by exists (f, fn, x). }
    destruct (inv_pending _ Hinv ex f Hex Hf) as [_ Hnone].
    unfold outcome in Ho. rewrite Hex in Ho. simpl in Ho. congruence.
  - destruct (step predict t (s, w)) as [[s1 w1]|] eqn:Hstep; [|done].
    simpl in H.
    pose proof (step_pool_inv _ _ _ _ _ Hinv Hstep) as Hinv1.
    destruct (step_summary _ _ _ _ _ Hinv Hstep)
      as (ex0 & ex1 & wk & Hex0 & Hex1 & Hwk & Hcb' & Hnf & Hcase).
    assert (ex0 = ex) as -> by congruence.
    destruct Hcase as [(_ & _ & _ & Hp & _)|
      (f0 & fn0 & x0 & q & cb & o0 & _ & Hq & _ & Hf & Hfin & Hp & _ & _ & Hs & Hd)].
    + destruct (IH s1 w1 ex1 Hinv1 H Hex1) as [? Hfm]; [by rewrite Hp|done|].
      split; [done|]. intros ?. apply Hfm. by apply (step_finds_model t s s1 w w1).
    + rewrite Hp in Hin. apply elem_of_cons in Hin as [Heq|Hin].
      * injection Heq as -> -> ->.
        assert (outcome s' f0 = Some o0) as Ho0.
        { eapply exec_outcome_stable; [exact Hinv1|exact H|..].
          - rewrite Hf. apply lookup_delete_eq.
          - unfold outcome. rewrite Hex1. simpl. rewrite Hfin.
            apply lookup_insert_eq. }
        assert (o = o0) as -> by congruence. done.
      * destruct (IH s1 w1 ex1 Hinv1 H Hex1 Hin Ho) as [? Hfm].
        split; [done|]. intros ?. apply Hfm. by apply (step_finds_model t s s1 w w1).
Qed.

(** A future that has left the table has an outcome. *)
Lemma exec_completed sched (s s' : Self) (w w' : World) f :
  pool_inv s → exec predict sched (s, w) = Some (s', w') →
  is_Some (futures s !! f) → futures s' !! f = None →
  is_Some (outcome s' f).
Proof.
  revert s w. induction sched as [|t sched IH]; intros s w Hinv H Hf Hf';
    simpl in H.
  - injection H as <- <-. rewrite Hf' in Hf. by destruct Hf.
  - destruct (step predict t (s, w)) as [[s1 w1]|] eqn:Hstep; [|done].
    simpl in H.
    pose proof (step_pool_inv _ _ _ _ _ Hinv Hstep) as Hinv1.
    destruct (step_summary _ _ _ _ _ Hinv Hstep)
      as (ex0 & ex1 & wk & Hex0 & Hex1 & Hwk & Hcb' & Hnf & Hcase).
    destruct Hcase as [(_ & Hft & _)|
      (f0 & fn0 & x0 & q & cb & o0 & _ & Hq & _ & Hft & Hfin & _)].
    + eapply IH; [exact Hinv1|exact H|by rewrite Hft|done].
    + destruct (decide (f = f0)) as [->|Hne].
      * exists o0. eapply exec_outcome_stable; [exact Hinv1|exact H|..].
        -- rewrite Hft. apply lookup_delete_eq.
        -- unfold outcome. rewrite Hex1. simpl. rewrite Hfin.
           apply lookup_insert_eq.
      * eapply IH; [exact Hinv1|exact H| |done].
        rewrite Hft. by rewrite lookup_delete_ne.
Qed.
End PoolExecutorProofs.
Section PoolIssueProofs.
Context {ModelInput QueryResult : Type}.
Context (predict : ModelInput → option QueryResult).
Import ModelRunnerPoolExecutor.
#[local] Abbreviation World := (World ModelInput QueryResult).
#[local] Abbreviation Self := (Self ModelInput QueryResult).
#[local] Abbreviation Executor := (Executor ModelInput QueryResult).
#[local] Arguments adjust_thread_count : simpl never.

Lemma foldl_insert_list_to_map `{Countable K} {V A} (key : A → K)
    (val : A → V) (l : list A) :
  NoDup (key <$> l) →
  foldl (λ (m : gmap K V) a, <[key a := val a]> m) ∅ l =
  list_to_map ((λ a, (key a, val a)) <$> l).
Proof.
  induction l as [|a l IH] using rev_ind; intros Hnd; [done|].
  rewrite fmap_app in Hnd. apply NoDup_app in Hnd as (Hnd & Hdisj & _).
  rewrite foldl_app, fmap_app. simpl. rewrite IH by done.
  rewrite list_to_map_snoc; [done|].
  rewrite <- list_fmap_compose. intros Hin. apply (Hdisj (key a) Hin).
  simpl. by apply list_elem_of_singleton.
Qed.

Lemma handles_fst nf (queries : QueryInput ModelInput) :
  (handles nf queries).*1 = seq nf (length queries).
Proof. unfold handles. rewrite fst_zip; [done|]. by rewrite length_seq. Qed.

Lemma handles_snd nf (queries : QueryInput ModelInput) :
  (handles nf queries).*2 = queries.
Proof. unfold handles. rewrite snd_zip; [done|]. by rewrite length_seq. Qed.

Lemma get_predictor_spec (s : Self) (w : World) :
  get_predictor (s, w) =
    match predictor_of s with
    | Some fn => (Ok fn, (s, w))
    | None => (Raise AttributeError, (s, w))
    end.
Proof.
  unfold get_predictor, predictor_of, mbind, M_bind, self. simpl.
  destruct (kind s); [|done..]. by destruct (model s).
Qed.

(** [issue_query] on an idle, acquired runner returns, and leaves the
    runner as [issued] describes: the callback stored, one work item per
    query at the back of the queue, one table entry per query. *)
Lemma pool_issue_query_idle (s : Self) (w : World) ex fn
    (queries : QueryInput ModelInput) (callback : Callback) :
  futures s = ∅ → executor s = Some ex → predictor_of s = Some fn →
  issue_query queries callback (s, w) =
    (Ok (), (issued s ex fn queries callback, w)).
Proof.
  intros Hf Hex Hfn. unfold issue_query.
  rewrite bind_unfold. unfold self at 1. simpl.
  rewrite bool_decide_eq_true_2 by done. simpl.
  rewrite bind_unfold. unfold mret, M_ret. cbn beta iota.
  rewrite bind_unfold. unfold update at 1. cbn beta iota. simpl fst. simpl snd.
  rewrite bind_unfold, get_predictor_spec.
  change (predictor_of (set_callback_fn (Some callback) s))
    with (predictor_of s).
  rewrite Hfn. erewrite issue_loop by done. simpl. unfold issued.
  rewrite Hf.
  rewrite (foldl_insert_list_to_map fst (λ fqx, fqx.2.1)); [done|].
  rewrite handles_fst. apply NoDup_seq.
Qed.

(** An idle runner has no work item pending. *)
Lemma idle_no_pending (s : Self) ex :
  pool_inv s → futures s = ∅ → executor s = Some ex → pending_items ex = [].
Proof.
  intros Hinv Hf Hex.
  destruct (pending_items ex) as [|[[f fn] x] l] eqn:Hp; [done|].
  assert (Hs : is_Some (futures s !! f)).
  { apply (inv_table _ Hinv ex f Hex). rewrite Hp. simpl. by left. }
  rewrite Hf, lookup_empty in Hs. by destruct Hs.
Qed.

Lemma running_new (new : list (Worker ModelInput)) (b : bool) g :
  Forall (λ wk, status wk = (if b then Starting else Polling) ∧ globals wk = g) new →
  running new = [].
Proof.
  induction 1 as [|wk new [Hst _] _ IH]; [done|].
  rewrite running_cons, IH, Hst. by destruct b.
Qed.

Lemma issued_pending_items (s : Self) ex fn
    (queries : QueryInput ModelInput) :
  pool_inv s → futures s = ∅ → executor s = Some ex →
  pending_items (submit_all (_model s) fn queries ex) =
    (λ fqx, (fqx.1, fn, fqx.2.2)) <$> handles (next_future ex) queries.
Proof.
  intros Hinv Hf Hex.
  pose proof (idle_no_pending s ex Hinv Hf Hex) as Hp.
  unfold pending_items in *. apply app_eq_nil in Hp as [Hq Hr].
  destruct (submit_all_fields (_model s) fn queries ex) as (_ & _ & -> & _).
  destruct (submit_all_workers (_model s) fn queries ex) as (new & -> & _ & Hnew).
  rewrite Hq, running_app, Hr, (running_new new _ _ Hnew). simpl.
  by rewrite app_nil_r.
Qed.

Lemma issued_pool_inv (s : Self) ex fn
    (queries : QueryInput ModelInput) (callback : Callback) :
  pool_inv s → futures s = ∅ → executor s = Some ex →
  pool_inv (issued s ex fn queries callback).
Proof.
  intros Hinv Hf Hex.
  pose proof (issued_pending_items s ex fn queries Hinv Hf Hex) as Hp.
  destruct (submit_all_fields (_model s) fn queries ex) as (_ & _ & _ & Hnf & Hfin).
  assert (Hfs : ((λ fqx : nat * (QueryId * ModelInput), (fqx.1, fn, fqx.2.2)) <$>
                   handles (next_future ex) queries).*1.*1
                = seq (next_future ex) (length queries)).
  { rewrite <- !list_fmap_compose. apply handles_fst. }
  assert (Htbl : ∀ f,
    is_Some (futures (issued s ex fn queries callback) !! f) ↔
    f ∈ seq (next_future ex) (length queries)).
  { intros f. simpl. rewrite <- handles_fst.
    rewrite <- elem_of_dom, dom_list_to_map_L, elem_of_list_to_set.
    by rewrite <- list_fmap_compose. }
  split; simpl.
  - done.
  - intros ? [= <-]. rewrite Hp, Hfs. apply NoDup_seq.
  - intros ? f [= <-]. rewrite Hp, Hfs. apply Htbl.
  - intros ? f [= <-] Hs. apply Htbl, elem_of_seq in Hs.
    rewrite Hnf, Hfin. split; [lia|].
    destruct (finished ex !! f) eqn:E; [|done].
    assert (f < next_future ex)%nat; [|lia].
    apply (inv_finished _ Hinv ex f Hex). by rewrite E.
  - intros ? f [= <-]. rewrite Hnf, Hfin. intros Hs.
    pose proof (inv_finished _ Hinv ex f Hex Hs). lia.
  - done.
Qed.

Lemma issued_finds_model (s : Self) ex fn
    (queries : QueryInput ModelInput) (callback : Callback) :
  pool_inv s → futures s = ∅ → executor s = Some ex →
  predictor_of s = Some fn →
  finds_model s → finds_model (issued s ex fn queries callback).
Proof.
  intros Hinv Hf Hex Hfn Hfm.
  pose proof (issued_pending_items s ex fn queries Hinv Hf Hex) as Hp.
  unfold finds_model, predictor_of in *. simpl.
  destruct (kind s); [|done|].
  - destruct Hfm as [[m Hm] _]. split; [by exists m|].
    intros ? item [= <-] Hin. rewrite Hp in Hin.
    apply list_elem_of_fmap in Hin as (fqx & -> & _). rewrite Hm in Hfn.
    injection Hfn as <-. by exists m.
  - destruct Hfm as [[m Hm] Hfm]. split; [by exists m|].
    intros ? [= <-]. injection Hfn as <-. split.
    + intros item Hin. rewrite Hp in Hin.
      by apply list_elem_of_fmap in Hin as (fqx & -> & _).
    + destruct (submit_all_workers (_model s) ProcessPredict queries ex)
        as (new & -> & _ & Hnew).
      intros wk Hin. apply elem_of_app in Hin as [Hin|Hin].
      * by apply (Hfm ex Hex).
      * rewrite Forall_forall in Hnew. destruct (Hnew wk Hin) as [_ ->].
        by exists m.
Qed.

(** *** Delivery *)

(** What the callback receives, whatever the schedule: from an idle
    runner, once a batch is issued, the invocations made while the workers
    run are, up to their order, one for each query whose predictor call has
    returned, with that query's id and result; the exceptions logged are
    those of the calls that raised; and the outcome stored for a query is
    that of a predictor call on its own input. *)
Lemma pool_delivery (s s' : Self) (w w' : World) ex fn
    (queries : QueryInput ModelInput) (callback : Callback) sched :
  pool_inv s → futures s = ∅ → executor s = Some ex →
  exec predict sched (issued s ex fn queries callback, w) = Some (s', w') →
  let hs := handles (next_future ex) queries in
  callbacks (log w') ≡ₚ
    callbacks (log w) ++
    settled callback (outcome s') ((λ fqx, (fqx.1, fqx.2.1)) <$> hs) ∧
  logged (log w') ≡ₚ
    logged (log w) ++ failures (outcome s') ((λ fqx, (fqx.1, fqx.2.1)) <$> hs) ∧
  (∀ fqx o, fqx ∈ hs → outcome s' fqx.1 = Some o →
     sound_outcome predict o fqx.2.2 ∧
     (finds_model (issued s ex fn queries callback) →
      o = prediction predict fqx.2.2)) ∧
  (futures s' = ∅ → ∀ fqx, fqx ∈ hs → is_Some (outcome s' fqx.1)).
Proof.
  intros Hinv Hf Hex Hexec hs.
  pose proof (issued_pool_inv s ex fn queries callback Hinv Hf Hex) as Hinv1.
  pose proof (issued_pending_items s ex fn queries Hinv Hf Hex) as Hp.
  assert (Hnd : NoDup ((λ fqx : nat * (QueryId * ModelInput), (fqx.1, fqx.2.1)) <$> hs).*1).
  { rewrite <- list_fmap_compose.
    change (NoDup (handles (next_future ex) queries).*1).
    rewrite handles_fst. apply NoDup_seq. }
  destruct (exec_ledger predict sched _ _ _ _ callback Hinv1 Hexec eq_refl)
    as [Hc Hl].
  simpl in Hc, Hl. unfold settled, failures in *.
  rewrite map_to_list_to_map in Hc, Hl by done.
  split; [done|]. split; [done|]. split.
  - intros [f [q x]] o Hin Ho. simpl in *.
    eapply (exec_outcome_sound predict sched _ _ _ _ _ f fn x o Hinv1 Hexec);
      [done| |done].
    rewrite Hp. apply list_elem_of_fmap. by exists (f, (q, x)).
  - intros Hdrained [f [q x]] Hin. simpl.
    eapply (exec_completed predict sched _ _ _ _ f Hinv1 Hexec).
    + simpl. rewrite <- elem_of_dom, dom_list_to_map_L, elem_of_list_to_set.
      rewrite <- list_fmap_compose. apply list_elem_of_fmap.
      by exists (f, (q, x)).
    + by rewrite Hdrained.
Qed.

Lemma settled_all_predicted (fin : nat → option (result QueryResult))
    callback (hs : list (nat * (QueryId * ModelInput))) :
  (∀ fqx, fqx ∈ hs → fin fqx.1 = Some (prediction predict fqx.2.2)) →
  settled callback fin ((λ fqx, (fqx.1, fqx.2.1)) <$> hs) =
    owed predict callback hs.*2 ∧
  failures fin ((λ fqx, (fqx.1, fqx.2.1)) <$> hs) =
    omap (λ qx, match predict qx.2 with
                | Some _ => None
                | None => Some PredictionError
                end) hs.*2.
Proof.
  unfold settled, failures, owed.
  induction hs as [|[f [q x]] hs IH]; intros H; [done|].
  pose proof (H (f, (q, x)) ltac:(by left)) as Hf. simpl in Hf.
  destruct IH as [IH1 IH2]; [intros ??; apply H; by right|].
  rewrite !fmap_cons, !omap_cons_unfold, IH1, IH2. simpl. rewrite Hf.
  unfold prediction. by destruct (predict x).
Qed.

(** Exactly once, for the runners whose predictor finds its model: when the
    table has drained, the invocations made for the batch are, up to their
    order, exactly the ones owed: one per query whose prediction returns,
    with the single-entry dict of its id and its prediction. *)
Lemma pool_exactly_once (s s' : Self) (w w' : World) ex fn
    (queries : QueryInput ModelInput) (callback : Callback) sched :
  pool_inv s → futures s = ∅ → executor s = Some ex →
  predictor_of s = Some fn → finds_model s →
  exec predict sched (issued s ex fn queries callback, w) = Some (s', w') →
  futures s' = ∅ →
  callbacks (log w') ≡ₚ callbacks (log w) ++ owed predict callback queries.
Proof.
  intros Hinv Hf Hex Hfn Hfm Hexec Hdrained.
  destruct (pool_delivery s s' w w' ex fn queries callback sched Hinv Hf Hex Hexec)
    as (Hc & _ & Hsound & Hdone).
  pose proof (issued_finds_model s ex fn queries callback Hinv Hf Hex Hfn Hfm) as Hfm1.
  destruct (settled_all_predicted (outcome s') callback
              (handles (next_future ex) queries)) as [Hs _].
  { intros fqx Hin. destruct (Hdone Hdrained fqx Hin) as [o Ho].
    rewrite Ho. f_equal. by apply (Hsound fqx o Hin Ho). }
  by rewrite Hc, Hs, handles_snd.
Qed.

End PoolIssueProofs.
Section PoolLivenessProofs.
Context {ModelInput QueryResult : Type}.
Context (predict : ModelInput → option QueryResult).
Import ModelRunnerPoolExecutor.
#[local] Abbreviation World := (World ModelInput QueryResult).
#[local] Abbreviation Self := (Self ModelInput QueryResult).
#[local] Abbreviation Executor := (Executor ModelInput QueryResult).
#[local] Arguments adjust_thread_count : simpl never.

(** What a step does to the workers and the queue. *)
Lemma step_workers t (s s' : Self) (w w' : World) :
  step predict t (s, w) = Some (s', w') →
  ∃ ex ex' wk st',
    executor s = Some ex ∧ executor s' = Some ex' ∧
    workers ex !! t = Some wk ∧
    workers ex' =
      alter (λ wk, {| status := st'; globals := globals wk |}) t (workers ex) ∧
    model_factory s' = model_factory s ∧
    max_workers ex' = max_workers ex ∧ initializer ex' = initializer ex ∧
    ((status wk = Starting ∧ st' = Initializing ∧
      work_queue ex' = work_queue ex ∧
      idle_semaphore ex' = idle_semaphore ex ∧ is_Some (tls s'))
     ∨ (status wk = Initializing ∧
        work_queue ex' = work_queue ex ∧
        idle_semaphore ex' = idle_semaphore ex ∧ tls s' = tls s ∧
        (st' = Polling ∨
         (st' = Dead ∧ (model_factory s = None ∨ tls s = None))))
     ∨ (status wk = Polling ∧ st' = Blocked ∧
        work_queue ex = [] ∧ work_queue ex' = [] ∧
        idle_semaphore ex' = S (idle_semaphore ex) ∧ tls s' = tls s)
     ∨ ((status wk = Polling ∨ status wk = Blocked) ∧
        ∃ f fn x, st' = Running f fn x ∧
          work_queue ex = (f, fn, x) :: work_queue ex' ∧
          idle_semaphore ex' = idle_semaphore ex ∧ tls s' = tls s)
     ∨ (∃ f fn x, status wk = Running f fn x ∧ st' = Polling ∧
          work_queue ex' = work_queue ex ∧
          idle_semaphore ex' = idle_semaphore ex ∧ tls s' = tls s)).
Proof.
  intros H. step_inv H.
  - injection H as <- <-. eexists ex, _, wk, Initializing. simpl.
    repeat (split; [done|]). left. by repeat split.
  - rewrite tls_init_2_spec in H.
    destruct (model_factory s) as [mf|] eqn:Hmf; [destruct (tls s) as [l|] eqn:Hl|];
      simpl in H; rewrite ?Hex in H; simpl in H; injection H as <- <-.
    + eexists ex, _, wk, Polling. simpl. repeat (split; [done|]).
      right; left. repeat (split; [done|]). by left.
    + eexists ex, _, wk, Dead. simpl; rewrite ?Hex; simpl. repeat (split; [done|]).
      right; left. repeat (split; [done|]). right. split; [done|]. by right.
    + eexists ex, _, wk, Dead. simpl; rewrite ?Hex; simpl. repeat (split; [done|]).
      right; left. repeat (split; [done|]). right. split; [done|]. by left.
  - destruct (work_queue ex) as [|[[f fn] x] q] eqn:Hq; injection H as <- <-.
    + eexists ex, _, wk, Blocked. simpl; rewrite ?Hex; simpl.
      repeat (split; [done|]). right; right; left. by repeat split.
    + eexists ex, _, wk, (Running f fn x). simpl; rewrite ?Hex; simpl.
      repeat (split; [done|]). right; right; right; left.
      split; [by left|]. by exists f, fn, x.
  - destruct (work_queue ex) as [|[[f fn] x] q] eqn:Hq; [done|].
    injection H as <- <-.
    eexists ex, _, wk, (Running f fn x). simpl; rewrite ?Hex; simpl.
    repeat (split; [done|]). right; right; right; left.
    split; [by right|]. by exists f, fn, x.
  - destruct (run_work_item_frame predict t (globals wk) f fn x s w)
      as (tbl & o & evs & Hrun & _).
    unfold mbind, M_bind in H. rewrite Hrun in H. simpl in H.
    rewrite Hex in H. simpl in H. injection H as <- <-.
    eexists ex, _, wk, Polling. simpl. repeat (split; [done|]).
    right; right; right; right. by exists f, fn, x.
  - done.
Qed.

Lemma elem_of_alter_status t st (ws : list (Worker ModelInput)) wk' :
  wk' ∈ alter (λ wk, {| status := st; globals := globals wk |}) t ws →
  wk' ∈ ws ∨ status wk' = st.
Proof.
  revert t. induction ws as [|w0 ws IH]; intros [|t] Hin;
    cbn [alter list_alter] in Hin.
  - by left.
  - by left.
  - apply elem_of_cons in Hin as [->|Hin]; [by right|]. left. by right.
  - apply elem_of_cons in Hin as [->|Hin]; [left; by left|].
    destruct (IH t Hin); [left; by right|by right].
Qed.

Lemma rank_alter t st wk (ws : list (Worker ModelInput)) :
  ws !! t = Some wk →
  (sum_list (rank ∘ status <$>
      alter (λ wk, {| status := st; globals := globals wk |}) t ws)
   + rank (status wk) = sum_list (rank ∘ status <$> ws) + rank st)%nat.
Proof.
  revert t. induction ws as [|w0 ws IH]; intros [|t] Ht;
    simpl in Ht; simplify_eq; cbn [alter list_alter]; rewrite !fmap_cons;
    simpl.
  - lia.
  - specialize (IH t Ht). lia.
Qed.

(** Every step of a worker leaves less work. *)
Lemma step_work_left t (s s' : Self) (w w' : World) :
  step predict t (s, w) = Some (s', w') →
  (work_left s' < work_left s)%nat.
Proof.
  intros H.
  destruct (step_workers _ _ _ _ _ H)
    as (ex & ex' & wk & st' & Hex & Hex' & Hwk & Hws & _ & _ & _ & Hcase).
  unfold work_left. rewrite Hex, Hex', Hws.
  pose proof (rank_alter t st' wk (workers ex) Hwk) as Hr.
  destruct Hcase as [(Hst & -> & Hq & _)|[(Hst & Hq & _ & _ & [->|[-> _]])|
    [(Hst & -> & Hq & Hq' & _)|[(Hst & f & fn & x & -> & Hq & _)|
    (f & fn & x & Hst & -> & Hq & _)]]]];
    rewrite ?Hq, ?Hq' in *; try rewrite Hst in Hr; simpl in *; lia.
Qed.

(** So a schedule cannot be longer than the work there is. *)
Lemma exec_bounded sched (s s' : Self) (w w' : World) :
  exec predict sched (s, w) = Some (s', w') →
  (length sched + work_left s' ≤ work_left s)%nat.
Proof.
  revert s w. induction sched as [|t sched IH]; intros s w H; simpl in H.
  - injection H as <- <-. simpl. lia.
  - destruct (step predict t (s, w)) as [[s1 w1]|] eqn:Hstep; [|done].
    simpl in H. apply IH in H. apply step_work_left in Hstep. simpl. lia.
Qed.

Lemma step_pool_live t (s s' : Self) (w w' : World) :
  pool_live s → step predict t (s, w) = Some (s', w') → pool_live s'.
Proof.
  intros Hl H.
  destruct (step_workers _ _ _ _ _ H)
    as (ex & ex' & wk & st' & Hex & Hex' & Hwk & Hws & Hmf & Hmax & Hini & Hcase).
  assert (Hin : wk ∈ workers ex) by by eapply list_elem_of_lookup_2.
  assert (Hne : workers ex' ≠ []).
  { rewrite Hws. intros Hnil. apply (f_equal length) in Hnil.
    rewrite length_alter in Hnil. apply lookup_lt_Some in Hwk. simpl in Hnil. lia. }
  assert (Htls : is_Some (tls s) → is_Some (tls s')).
  { destruct Hcase as [(_ & _ & _ & _ & ?)|[(_ & _ & _ & -> & _)|
      [(_ & _ & _ & _ & _ & ->)|[(_ & _ & _ & _ & _ & _ & _ & ->)|
      (_ & _ & _ & _ & _ & _ & _ & ->)]]]]; done. }
  assert (Hst' : st' ≠ Starting ∧ st' ≠ Dead ∧
                 (st' = Initializing → initializer ex = true ∧ is_Some (tls s'))).
  { destruct Hcase as [(Hst & -> & _ & _ & ?)|[(Hst & _ & _ & _ & [->|[-> Hbad]])|
      [(_ & -> & _)|[(_ & f & fn & x & -> & _)|(f & fn & x & _ & -> & _)]]]];
      try done.
    - repeat split; try done. by apply (live_starting _ Hl ex wk).
    - exfalso. destruct (live_tls _ Hl ex wk Hex Hin Hst) as [Hi [l Htl]].
      destruct (live_factory _ Hl ex Hex Hi) as [mf Hmf'].
      destruct Hbad; congruence. }
  destruct Hst' as (Hns & Hnd & Hni).
  split.
  - intros ex0 He. assert (ex0 = ex') as -> by congruence.
    rewrite Hini, Hmf. by apply Hl.
  - intros ex0 wk' He Hin' Hs. assert (ex0 = ex') as -> by congruence.
    rewrite Hws in Hin'. apply elem_of_alter_status in Hin' as [Hin'|Heq].
    + rewrite Hini. by apply (live_starting _ Hl ex wk').
    + congruence.
  - intros ex0 wk' He Hin' Hs. assert (ex0 = ex') as -> by congruence.
    rewrite Hws in Hin'. apply elem_of_alter_status in Hin' as [Hin'|Heq].
    + rewrite Hini. destruct (live_tls _ Hl ex wk' Hex Hin' Hs). split; [done|].
      by apply Htls.
    + rewrite Hini. apply Hni. congruence.
  - intros ex0 wk' He Hin'. assert (ex0 = ex') as -> by congruence.
    rewrite Hws in Hin'. apply elem_of_alter_status in Hin' as [Hin'|Heq].
    + by apply (live_not_dead _ Hl ex wk').
    + congruence.
  - intros ex0 He. assert (ex0 = ex') as -> by congruence.
    rewrite Hmax. by apply Hl.
  - intros ex0 He _. by assert (ex0 = ex') as -> by congruence.
  - intros ex0 He _. by assert (ex0 = ex') as -> by congruence.
Qed.

Lemma exec_pool_live sched (s s' : Self) (w w' : World) :
  pool_live s → exec predict sched (s, w) = Some (s', w') → pool_live s'.
Proof.
  revert s w. induction sched as [|t sched IH]; intros s w Hl H; simpl in H.
  - by injection H as <- <-.
  - destruct (step predict t (s, w)) as [[s1 w1]|] eqn:Hstep; [|done].
    simpl in H. eapply IH; [|done]. by eapply step_pool_live.
Qed.

(** A worker that is alive can step, unless it waits on an empty queue. *)
Lemma step_enabled t (s : Self) (w : World) ex wk :
  executor s = Some ex → workers ex !! t = Some wk →
  status wk ≠ Dead → (status wk = Blocked → work_queue ex ≠ []) →
  is_Some (step predict t (s, w)).
Proof.
  intros Hex Hwk Hnd Hb. unfold step. simpl. rewrite Hex. simpl.
  rewrite Hwk. simpl. destruct (status wk) eqn:Hst; try done.
  - by destruct (_tls_init_2 t (s, w)) as [[[]|] ?].
  - by destruct (work_queue ex) as [|[[??]?]?].
  - destruct (work_queue ex) as [|[[??]?]?]; [|done]. by destruct Hb.
Qed.

Lemma running_nil_or (ws : list (Worker ModelInput)) :
  running ws = [] ∨
  ∃ t wk f fn x, ws !! t = Some wk ∧ status wk = Running f fn x.
Proof.
  induction ws as [|w0 ws IH]; [by left|].
  rewrite running_cons. destruct (status w0) eqn:Hst; simpl;
    try (destruct IH as [IH|(t & wk & f & fn & x & Ht & Hs)];
         [by left|right; by exists (S t), wk, f, fn, x]).
  right. by exists 0%nat, w0, f, fn, x.
Qed.

(** When no worker can step, nothing is pending. *)
Lemma stuck_drained (s : Self) (w : World) :
  pool_inv s → pool_live s →
  (∀ t, step predict t (s, w) = None) → futures s = ∅.
Proof.
  intros Hinv Hl Hstuck.
  destruct (executor s) as [ex|] eqn:Hex; [|by apply Hinv].
  assert (Hno : ∀ t wk, workers ex !! t = Some wk →
            status wk = Blocked ∧ work_queue ex = []).
  { intros t wk Hwk.
    assert (Hnd : status wk ≠ Dead).
    { apply (live_not_dead _ Hl ex wk Hex). by eapply list_elem_of_lookup_2. }
    destruct (work_queue ex) as [|item q] eqn:Hq.
    - destruct (status wk) eqn:Hst; try done;
        (destruct (step_enabled t s w ex wk Hex Hwk) as [? Hs];
         [by rewrite Hst|by rewrite Hst|by rewrite Hstuck in Hs]).
    - destruct (step_enabled t s w ex wk Hex Hwk) as [? Hs];
        [done|by rewrite Hq|by rewrite Hstuck in Hs]. }
  assert (Hp : pending_items ex = []).
  { unfold pending_items.
    destruct (running_nil_or (workers ex)) as [->|(t & wk & f & fn & x & Ht & Hs)].
    - rewrite app_nil_r. destruct (work_queue ex) as [|item q] eqn:Hq; [done|].
      destruct (workers ex) as [|wk ws] eqn:Hws.
      + exfalso. apply (live_queue _ Hl ex Hex); [by rewrite Hq|done].
      + destruct (Hno 0%nat wk) as [_ ?]; [done|]. congruence.
    - destruct (Hno t wk Ht) as [? _]. congruence. }
  apply map_empty. intros f.
  destruct (futures s !! f) eqn:E; [|done].
  assert (Hs : is_Some (futures s !! f)) by by rewrite E.
  apply (inv_table _ Hinv ex f Hex) in Hs. rewrite Hp in Hs.
  by apply elem_of_nil in Hs.
Qed.

(** Liveness: from every state a schedule leads to a drained table. *)
Lemma drain_exists (s : Self) (w : World) :
  pool_inv s → pool_live s →
  ∃ sched s' w', exec predict sched (s, w) = Some (s', w') ∧ futures s' = ∅.
Proof.
  remember (work_left s) as n eqn:Hn. revert s w Hn.
  induction n as [n IH] using lt_wf_ind. intros s w Hn Hinv Hl.
  set (len := match executor s with
              | Some ex => length (workers ex)
              | None => 0%nat
              end).
  destruct (decide (Exists (λ t, is_Some (step predict t (s, w))) (seq 0 len)))
    as [Hex|Hnex].
  - apply Exists_exists in Hex as (t & _ & [[s1 w1] Hstep]).
    destruct (IH (work_left s1)) with (s := s1) (w := w1)
      as (sched & s' & w' & Hexec & Hd).
    + subst n. by eapply step_work_left.
    + done.
    + by eapply step_pool_inv.
    + by eapply step_pool_live.
    + exists (t :: sched), s', w'. simpl. rewrite Hstep. by simpl.
  - exists [], s, w. split; [done|]. apply (stuck_drained s w Hinv Hl).
    intros t. destruct (step predict t (s, w)) as [sw|] eqn:Hstep; [|done].
    exfalso. apply Hnex, Exists_exists. exists t. split; [|by rewrite Hstep].
    apply elem_of_seq. split; [lia|]. simpl.
    destruct sw as [s1 w1].
    destruct (step_workers _ _ _ _ _ Hstep)
      as (ex & ex' & wk & st' & Hex & _ & Hwk & _).
    unfold len. rewrite Hex. by apply lookup_lt_Some in Hwk.
Qed.

(** *** The runner after [__init__] and [__enter__] *)

Lemma submit_workers_nonempty g fn x (ex : Executor) :
  (0 < max_workers ex)%nat →
  (0 < idle_semaphore ex → workers ex ≠ [])%nat →
  workers (submit g fn x ex).2 ≠ [].
Proof.
  intros Hmax Hidle. unfold submit. simpl. unfold adjust_thread_count. simpl.
  destruct (idle_semaphore ex) as [|n]; simpl.
  - case_decide as Hlt; simpl.
    + by destruct (workers ex).
    + intros Hnil. rewrite Hnil in Hlt. simpl in Hlt. lia.
  - apply Hidle. lia.
Qed.

Lemma submit_all_live g fn queries (ex : Executor) :
  (0 < max_workers ex)%nat →
  (0 < idle_semaphore ex → workers ex ≠ [])%nat →
  (work_queue ex ≠ [] → workers ex ≠ []) →
  let ex' := submit_all g fn queries ex in
  (0 < idle_semaphore ex' → workers ex' ≠ [])%nat ∧
  (work_queue ex' ≠ [] → workers ex' ≠ []).
Proof.
  intros Hmax Hidle Hq.
  induction queries as [|[q x] queries IH] using rev_ind; [done|].
  rewrite submit_all_snoc. simpl in *.
  destruct (submit_all_fields g fn queries ex) as (Hm & _).
  assert (workers (submit g fn x (submit_all g fn queries ex)).2 ≠ []).
  { apply submit_workers_nonempty; [by rewrite Hm|]. apply IH. }
  done.
Qed.

Lemma issued_pool_live (s : Self) ex fn
    (queries : QueryInput ModelInput) (callback : Callback) :
  pool_live s → executor s = Some ex →
  pool_live (issued s ex fn queries callback).
Proof.
  intros Hl Hex.
  destruct (submit_all_fields (_model s) fn queries ex) as (Hm & Hi & _).
  destruct (submit_all_workers (_model s) fn queries ex) as (new & Hws & _ & Hnew).
  destruct (submit_all_live (_model s) fn queries ex) as [Hidle Hq];
    [by apply Hl..|].
  rewrite Forall_forall in Hnew.
  split; simpl.
  - intros ? [= <-]. rewrite Hi. by apply Hl.
  - intros ? wk [= <-] Hin Hst. rewrite Hi. rewrite Hws in Hin.
    apply elem_of_app in Hin as [Hin|Hin]; [by apply (live_starting _ Hl ex wk)|].
    destruct (Hnew wk Hin) as [Hst' _]. rewrite Hst in Hst'.
    by destruct (initializer ex).
  - intros ? wk [= <-] Hin Hst. rewrite Hi. rewrite Hws in Hin.
    apply elem_of_app in Hin as [Hin|Hin]; [by apply (live_tls _ Hl ex wk)|].
    destruct (Hnew wk Hin) as [Hst' _]. rewrite Hst in Hst'.
    by destruct (initializer ex).
  - intros ? wk [= <-] Hin Hst. rewrite Hws in Hin.
    apply elem_of_app in Hin as [Hin|Hin]; [by apply (live_not_dead _ Hl ex wk)|].
    destruct (Hnew wk Hin) as [Hst' _]. rewrite Hst in Hst'.
    by destruct (initializer ex).
  - intros ? [= <-]. rewrite Hm. by apply Hl.
  - by intros ? [= <-].
  - by intros ? [= <-].
Qed.

(** A runner built and entered with at least one worker allowed is idle,
    consistent and live, and it has a predictor to hand out. *)
Lemma entered_ok (k : Kind) (n : nat) (w : World) :
  (0 < n)%nat →
  let sw := __init__ k Factory n w in
  ∃ s1,
    __enter__ sw = (Ok (), (s1, sw.2)) ∧
    futures s1 = ∅ ∧
    executor s1 = Some (new_executor n
      match k with ThreadPoolExecutorWithTLS => true | _ => false end) ∧
    kind s1 = k ∧
    pool_inv s1 ∧ pool_live s1 ∧ is_Some (predictor_of s1) ∧
    (k ≠ ThreadPoolExecutorWithTLS → finds_model s1).
Proof.
  intros Hn sw. unfold __enter__, mbind, M_bind, self. simpl.
  assert (Hmc : max_concurrency sw.1 = n) by by destruct k.
  rewrite Hmc. rewrite decide_False by lia. unfold update. simpl.
  eexists. split; [done|]. simpl.
  assert (Hk : kind sw.1 = k) by by destruct k.
  rewrite Hk. split; [by destruct k|]. split; [done|]. split; [done|].
  split; [|split; [|split]].
  - split; simpl; try done.
    + intros ? [= <-]. constructor.
    + intros ? f [= <-]. assert (futures sw.1 = ∅) as -> by by destruct k.
      rewrite lookup_empty. split; [by intros []|]. simpl.
      intros Hin. by apply elem_of_nil in Hin.
    + intros ? f [= <-]. assert (futures sw.1 = ∅) as -> by by destruct k.
      rewrite lookup_empty. by intros [].
    + intros ? f [= <-]. simpl. rewrite lookup_empty. by intros [].
    + assert (futures sw.1 = ∅) as -> by by destruct k. done.
  - split; simpl.
    + intros ? [= <-]. simpl. by destruct k.
    + intros ? wk [= <-] Hin. by apply elem_of_nil in Hin.
    + intros ? wk [= <-] Hin. by apply elem_of_nil in Hin.
    + intros ? wk [= <-] Hin. by apply elem_of_nil in Hin.
    + by intros ? [= <-].
    + intros ? [= <-]. simpl. lia.
    + by intros ? [= <-].
  - unfold predictor_of. simpl. rewrite Hk. destruct k; simpl; by eexists.
  - intros Hne. unfold finds_model. simpl. rewrite Hk.
    destruct k; [|done|]; simpl.
    + split; [by eexists|]. intros ? item [= <-] Hin. by apply elem_of_nil in Hin.
    + split; [by eexists|]. intros ? [= <-]. split.
      * intros item Hin. by apply elem_of_nil in Hin.
      * intros wk Hin. by apply elem_of_nil in Hin.
Qed.
End PoolLivenessProofs.
(** ** ModelRunnerRay *)
Section RayProofs.
Context {ModelInput QueryResult : Type}.
Context (predict : ModelInput → option QueryResult).
Import ModelRunnerRay.
#[local] Abbreviation World := (World ModelInput QueryResult).
#[local] Abbreviation Self := (Self ModelInput).
#[local] Abbreviation ActorPool := (ActorPool ModelInput).

Lemma submit_ok v (p : ActorPool) :
  pool_ok p → pool_ok (submit v p) ∧ outstanding (submit v p) = outstanding p ++ [v].
Proof.
  intros [H1 H2]. unfold submit, pool_ok, outstanding.
  destruct (reverse (_idle_actors p)) as [|a idle] eqn:Hrev; simpl.
  - assert (Hidle : _idle_actors p = []).
    { apply (f_equal reverse) in Hrev. by rewrite reverse_involutive in Hrev. }
    split; [|by rewrite app_assoc]. split; [|done].
    right. destruct H1 as [H1|H1]; [by rewrite Hidle in H1|done].
  - assert (Hidle : _idle_actors p ≠ []).
    { intros Hnil. by rewrite Hnil in Hrev. }
    assert (Hp : _pending_submits p = []).
    { destruct (_pending_submits p) eqn:E; [done|].
      exfalso. apply Hidle, H2. done. }
    rewrite Hp. split.
    + split; [|done]. right. by destruct (_in_flight p).
    + by rewrite fmap_app, !app_nil_r.
Qed.

Lemma submit_all_ok (queries : QueryInput ModelInput) (p : ActorPool) :
  pool_ok p →
  pool_ok (foldl (λ p v, submit v p) p queries) ∧
  outstanding (foldl (λ p v, submit v p) p queries) = outstanding p ++ queries.
Proof.
  induction queries as [|v queries IH] using rev_ind; intros Hok.
  - simpl. by rewrite app_nil_r.
  - rewrite foldl_app. simpl. destruct (IH Hok) as [IH1 IH2].
    destruct (submit_ok v _ IH1) as [H1 H2].
    split; [done|]. by rewrite H2, IH2, app_assoc.
Qed.

(** Retiring the oldest call keeps the pool in order and leaves the rest
    of the values outstanding. *)
Lemma return_actor_ok a (v : QueryId * ModelInput) rest idle pending :
  pool_ok {| _idle_actors := idle; _in_flight := (a, v) :: rest;
             _pending_submits := pending |} →
  let p' := _return_actor a {| _idle_actors := idle; _in_flight := rest;
                               _pending_submits := pending |} in
  pool_ok p' ∧ outstanding p' = rest.*2 ++ pending.
Proof.
  intros [H1 H2]. simpl in *. unfold _return_actor. simpl.
  destruct pending as [|v' pending]; simpl.
  - unfold pool_ok, outstanding. simpl. split; [|done]. split; [|done].
    left. by destruct idle.
  - rewrite H2 by done. unfold submit. simpl.
    unfold pool_ok, outstanding. simpl. split.
    + split; [|done]. right. by destruct rest.
    + rewrite fmap_app. simpl. by rewrite <- app_assoc.
Qed.

Lemma outstanding_nil (p : ActorPool) :
  pool_ok p → _in_flight p = [] → outstanding p = [].
Proof.
  intros [H1 H2] Hnil. unfold outstanding. rewrite Hnil. simpl.
  destruct (_pending_submits p) eqn:E; [done|].
  destruct H1 as [H1|H1]; [|done]. exfalso. apply H1, H2. done.
Qed.

(** The loop over the generator: it serves the outstanding values in
    order, and stops at the first one whose prediction raises. *)
Lemma for_results_spec fuel callback (s : Self) (w : World) p :
  pool s = Some p → pool_ok p → (length (outstanding p) ≤ fuel)%nat →
  ∃ r s' w' p',
    for_results predict fuel callback (s, w) = (r, (s', w')) ∧
    s' = set_pool (Some p') s ∧ pool_ok p' ∧
    creations (log w') = creations (log w) ∧
    next_model w' = next_model w ∧
    ((r = Ok () ∧ predictable predict (outstanding p) ∧ outstanding p' = [] ∧
      callbacks (log w') =
        callbacks (log w) ++ owed predict callback (outstanding p))
     ∨
     (r = Raise PredictionError ∧
      ∃ before q x after,
        outstanding p = before ++ (q, x) :: after ∧
        predictable predict before ∧ predict x = None ∧
        outstanding p' = after ∧
        callbacks (log w') = callbacks (log w) ++ owed predict callback before)).
Proof.
  revert s w p. induction fuel as [|fuel IH]; intros s w p Hp Hok Hlen.
  - exists (Ok ()), s, w, p. simpl.
    assert (Hnil : outstanding p = []).
    { destruct (outstanding p); [done|]. simpl in Hlen. lia. }
    rewrite Hnil. split; [done|]. split; [by destruct s; simpl in *; subst|].
    split; [done|]. split; [done|]. split; [done|]. left.
    split; [done|]. split; [constructor|]. split; [done|]. by rewrite app_nil_r.
  - simpl. rewrite bind_unfold. unfold self at 1. simpl.
    rewrite Hp. simpl. rewrite bind_unfold. unfold mret at 1, M_ret at 1.
    unfold has_next.
    destruct (_in_flight p) as [|[a [q x]] rest] eqn:Hfl.
    + exists (Ok ()), s, w, p. rewrite (outstanding_nil p Hok Hfl). simpl.
      split; [done|]. split; [by destruct s; simpl in *; subst|].
      split; [done|]. split; [done|]. split; [done|]. left.
      split; [done|]. split; [constructor|]. split; [done|]. by rewrite app_nil_r.
    + rewrite bind_unfold. unfold get_next.
      rewrite bind_unfold. unfold self at 1. simpl. rewrite Hp. simpl.
      rewrite bind_unfold. unfold mret at 1, M_ret at 1.
      rewrite Hfl. rewrite bind_unfold. unfold update at 1. simpl.
      unfold RayModel_predict. rewrite bind_unfold.
      rewrite model_predict_spec. unfold prediction.
      set (p1 := _return_actor a
                   {| _idle_actors := _idle_actors p; _in_flight := rest;
                      _pending_submits := _pending_submits p |}).
      destruct (return_actor_ok a (q, x) rest (_idle_actors p) (_pending_submits p))
        as [Hok1 Hout1].
      { destruct p. simpl in *. by subst. }
      fold p1 in Hok1, Hout1.
      assert (Hout : outstanding p = (q, x) :: outstanding p1).
      { rewrite Hout1. unfold outstanding. by rewrite Hfl. }
      destruct (predict x) as [r|] eqn:Hx.
      * simpl. rewrite bind_unfold. unfold call, emit. simpl.
        destruct (IH (set_pool (Some p1) s)
                    (record (ECallback callback {[q := r]})
                       (record (EPredict (RemoteActor (actor a)) (model a) x) w)) p1)
          as (r' & s' & w' & p' & Hrun & Hs' & Hok' & Hcr & Hnm & Hcase);
          [done|done|rewrite Hout in Hlen; simpl in Hlen; lia|].
        rewrite Hrun. exists r', s', w', p'. split; [done|].
        split; [by rewrite Hs'|]. split; [done|].
        split; [by rewrite Hcr; simpl; rewrite !creations_app; simpl; rewrite !app_nil_r|].
        split; [done|].
        assert (Hcb : callbacks (log (record (ECallback callback {[q := r]})
                       (record (EPredict (RemoteActor (actor a)) (model a) x) w)))
                      = callbacks (log w) ++ [(callback, {[q := r]})]).
        { simpl. rewrite !callbacks_app. simpl. by rewrite app_nil_r. }
        rewrite Hout.
        destruct Hcase as [(-> & Hpr & Hnil & Hc)|
          (-> & before & q' & x' & after & Hsplit & Hpr & Hx' & Hafter & Hc)].
        -- left. split; [done|]. split; [constructor; [simpl; by rewrite Hx|done]|].
           split; [done|]. rewrite Hc, Hcb. unfold owed at 2.
           rewrite omap_cons_unfold. simpl. rewrite Hx. simpl.
           by rewrite <- app_assoc.
        -- right. split; [done|].
           exists ((q, x) :: before), q', x', after. rewrite Hsplit.
           split; [done|]. split; [constructor; [simpl; by rewrite Hx|done]|].
           split; [done|]. split; [done|]. rewrite Hc, Hcb. unfold owed at 2.
           rewrite omap_cons_unfold. simpl. rewrite Hx. simpl.
           by rewrite <- app_assoc.
      * simpl. exists (Raise PredictionError), (set_pool (Some p1) s),
          (record (EPredict (RemoteActor (actor a)) (model a) x) w), p1.
        split; [done|]. split; [done|]. split; [done|].
        split; [by simpl; rewrite creations_app; simpl; rewrite app_nil_r|].
        split; [done|]. right. split; [done|].
        exists [], q, x, (outstanding p1). rewrite Hout.
        split; [done|]. split; [constructor|]. split; [done|]. split; [done|].
        simpl. rewrite callbacks_app. simpl. by rewrite !app_nil_r.
Qed.

Lemma owed_predictable callback (queries : QueryInput ModelInput)
    (results : list QueryResult) :
  Forall2 (λ qx r, predict qx.2 = Some r) queries results →
  owed predict callback queries =
    zip_with (λ qx r, (callback, {[ qx.1 := r ]})) queries results.
Proof.
  unfold owed. induction 1 as [|[q x] r queries results Hr _ IH]; [done|].
  rewrite omap_cons_unfold. simpl in *. rewrite Hr. simpl. by rewrite IH.
Qed.

Lemma predictable_results (queries : QueryInput ModelInput) :
  predictable predict queries →
  ∃ results, Forall2 (λ qx r, predict qx.2 = Some r) queries results.
Proof.
  induction 1 as [|[q x] queries [r Hr] _ [results IH]].
  - by exists [].
  - exists (r :: results). by constructor.
Qed.

Lemma ray_issue_query_spec (s : Self) (w : World) p
    (queries : QueryInput ModelInput) (callback : Callback) :
  pool s = Some p → pool_ok p →
  ∃ r s' w' p',
    issue_query predict queries callback (s, w) = (r, (s', w')) ∧
    s' = set_pool (Some p') s ∧ pool_ok p' ∧
    creations (log w') = creations (log w) ∧
    next_model w' = next_model w ∧
    ((r = Ok () ∧ predictable predict (outstanding p ++ queries) ∧
      outstanding p' = [] ∧
      callbacks (log w') =
        callbacks (log w) ++ owed predict callback (outstanding p ++ queries))
     ∨
     (r = Raise PredictionError ∧
      ∃ before q x after,
        outstanding p ++ queries = before ++ (q, x) :: after ∧
        predictable predict before ∧ predict x = None ∧
        outstanding p' = after ∧
        callbacks (log w') = callbacks (log w) ++ owed predict callback before)).
Proof.
  intros Hp Hok. unfold issue_query.
  rewrite bind_unfold. unfold self at 1. simpl. rewrite Hp. simpl.
  rewrite bind_unfold. unfold mret at 1, M_ret at 1.
  rewrite bind_unfold. unfold update at 1. simpl.
  destruct (submit_all_ok queries p Hok) as [Hok1 Hout1].
  set (p1 := foldl (λ p v, submit v p) p queries) in *.
  destruct (for_results_spec
              (length (_in_flight p1) + length (_pending_submits p1)) callback
              (set_pool (Some p1) s) w p1)
    as (r & s' & w' & p' & Hrun & Hs' & Hok' & Hcr & Hnm & Hcase).
  { done. }
  { done. }
  { unfold outstanding. by rewrite length_app, length_fmap. }
  exists r, s', w', p'. rewrite Hrun. split; [done|].
  split; [by rewrite Hs'|]. split; [done|]. split; [done|]. split; [done|].
  by rewrite <- Hout1.
Qed.

(** When [issue_query] of the actor pool runner returns, every query of
    the batch has been delivered, in order. *)
Lemma ray_issue_query_ok_inv (s s' : Self) (w w' : World)
    (queries : QueryInput ModelInput) (callback : Callback) :
  ray_ready s →
  issue_query predict queries callback (s, w) = (Ok (), (s', w')) →
  ∃ results,
    Forall2 (λ qx r, predict qx.2 = Some r) queries results ∧
    callbacks (log w') =
      callbacks (log w) ++
      zip_with (λ qx r, (callback, {[ qx.1 := r ]})) queries results ∧
    ray_ready s'.
Proof.
  intros (p & Hp & Hok & Hnil) Hrun.
  destruct (ray_issue_query_spec s w p queries callback Hp Hok)
    as (r & s1 & w1 & p' & Hrun' & Hs' & Hok' & _ & _ & Hcase).
  rewrite Hrun in Hrun'. injection Hrun' as <- <- <-.
  rewrite Hnil in Hcase. simpl in Hcase.
  destruct Hcase as [(_ & Hpr & Hnil' & Hc)|(? & _)]; [|done].
  destruct (predictable_results queries Hpr) as [results Hres].
  exists results. split; [done|]. split.
  - by rewrite Hc, (owed_predictable callback queries results).
  - exists p'. by rewrite Hs'.
Qed.

(** The call does return when the predictions do. *)
Lemma ray_issue_query_returns (s : Self) (w : World)
    (queries : QueryInput ModelInput) (callback : Callback) :
  ray_ready s → predictable predict queries →
  ∃ s' w', issue_query predict queries callback (s, w) = (Ok (), (s', w')).
Proof.
  intros (p & Hp & Hok & Hnil) Hpr.
  destruct (ray_issue_query_spec s w p queries callback Hp Hok)
    as (r & s1 & w1 & p' & Hrun' & _ & _ & _ & _ & Hcase).
  rewrite Hnil in Hcase. simpl in Hcase.
  destruct Hcase as [(-> & _)|(_ & before & q & x & after & Hsplit & _ & Hx & _)].
  - by exists s1, w1.
  - exfalso. rewrite Hsplit in Hpr. apply Forall_app in Hpr as [_ Hpr].
    apply Forall_cons in Hpr as [[r' Hr'] _]. simpl in Hr'. congruence.
Qed.

(** C8. For the actor pool runner, entered and with nothing left over:
    [issue_query] returns when the predictions of the batch do, and whenever
    it returns, every query of the batch has been delivered before the
    return: the callback was invoked once per query, in the order of the
    batch, with the single-entry dict of the query id and its prediction,
    and the pool holds no call of the batch any more. *)
Theorem ray_issue_query_blocks (s : Self) (w : World)
    (queries : QueryInput ModelInput) (callback : Callback) :
  ray_ready s →
  (predictable predict queries →
   ∃ s' w', issue_query predict queries callback (s, w) = (Ok (), (s', w'))) ∧
  (∀ s' w',
     issue_query predict queries callback (s, w) = (Ok (), (s', w')) →
     ∃ results,
       Forall2 (λ qx r, predict qx.2 = Some r) queries results ∧
       callbacks (log w') =
         callbacks (log w) ++
         zip_with (λ qx r, (callback, {[ qx.1 := r ]})) queries results ∧
       ray_ready s').
Proof.
  intros Hready. split.
  - by apply ray_issue_query_returns.
  - intros s' w'. by apply ray_issue_query_ok_inv.
Qed.

(** And a prediction that raises makes it raise, after the queries before
    it have been delivered; the pool keeps the calls behind it. *)
Lemma ray_issue_query_raises (s : Self) (w : World)
    (before after : QueryInput ModelInput) q x (callback : Callback) :
  ray_ready s → predictable predict before → predict x = None →
  ∃ s' w',
    issue_query predict (before ++ (q, x) :: after) callback (s, w) =
      (Raise PredictionError, (s', w')) ∧
    callbacks (log w') = callbacks (log w) ++ owed predict callback before.
Proof.
  intros (p & Hp & Hok & Hnil) Hpr Hx.
  destruct (ray_issue_query_spec s w p (before ++ (q, x) :: after) callback Hp Hok)
    as (r & s1 & w1 & p' & Hrun' & _ & _ & _ & _ & Hcase).
  rewrite Hnil in Hcase. simpl in Hcase. exists s1, w1.
  destruct Hcase as [(_ & Hall & _)|
    (-> & before' & q' & x' & after' & Hsplit & Hpr' & Hx' & _ & Hc)].
  - exfalso. apply Forall_app in Hall as [_ Hall].
    apply Forall_cons in Hall as [[r' Hr'] _]. simpl in Hr'. congruence.
  - split; [done|]. rewrite Hc. do 2 f_equal.
    clear -Hsplit Hpr Hpr' Hx Hx'. revert before' Hsplit Hpr'.
    induction before as [|[q0 x0] before IH]; intros [|[q1 x1] before'] Hsplit Hpr';
      simpl in Hsplit; simplify_eq; [done| | |].
    + apply Forall_cons in Hpr' as [[r' Hr'] _]. simpl in Hr'. congruence.
    + apply Forall_cons in Hpr as [[r' Hr'] _]. simpl in Hr'. congruence.
    + f_equal. apply Forall_cons in Hpr as [_ Hpr].
      apply Forall_cons in Hpr' as [_ Hpr']. by apply IH.
Qed.

Lemma fmap_seq_shift {A} (f g : nat → A) n :
  (∀ i, f i = g (S i)) → f <$> seq 0 n = g <$> seq 1 n.
Proof.
  intros H. rewrite <- fmap_S_seq, <- list_fmap_compose.
  apply list_fmap_ext. intros i j _. apply H.
Qed.

(** [__enter__] starts [max_concurrency] actors, each of which builds one
    model. *)
Lemma remote_instances_spec n (s : Self) (w : World) :
  ∃ l,
    remote_instances n (s, w) =
      (Ok l,
       ({| max_concurrency := max_concurrency s;
           model_factory := model_factory s; instances := instances s;
           pool := pool s; actors_started := actors_started s + n |},
        {| log := log w ++
             ((λ i, ECreate (RemoteActor (actors_started s + i))
                      (next_model w + i)%nat) <$> seq 0 n);
           next_model := next_model w + n |})) ∧
    l = (λ i, {| actor := actors_started s + i;
                 model := next_model w + i |}) <$> seq 0 n.
Proof.
  revert s w. induction n as [|n IH]; intros s w.
  - exists []. simpl. rewrite app_nil_r, !Nat.add_0_r. by destruct s, w.
  - cbn [remote_instances]. rewrite bind_unfold. unfold RayModel_remote.
    rewrite bind_unfold. unfold self at 1. simpl.
    rewrite bind_unfold.
    match goal with |- context [remote_instances n (?s1, ?w1)] =>
      destruct (IH s1 w1) as (l & Hrun & Hl); rewrite Hrun end.
    unfold mret, M_ret. simpl fst in *. simpl snd in *.
    cbn [max_concurrency model_factory instances pool actors_started log next_model] in *.
    exists ({| actor := actors_started s; model := next_model w |} :: l).
    repeat match goal with |- context [list_fmap ?A ?B ?f ?l] =>
      change (list_fmap A B f l) with (f <$> l) end.
    rewrite !Nat.add_0_r.
    rewrite <- (fmap_seq_shift
      (λ i, {| actor := S (actors_started s) + i; model := S (next_model w) + i |})
      (λ i, {| actor := actors_started s + i; model := next_model w + i |}) n)
      by (intros i; f_equal; lia).
    rewrite <- (fmap_seq_shift
      (λ i, ECreate (RemoteActor (S (actors_started s) + i)) (S (next_model w) + i))
      (λ i, ECreate (RemoteActor (actors_started s + i)) (next_model w + i)%nat) n)
      by (intros i; f_equal; [f_equal|]; lia).
    split; [|by rewrite Hl].
    rewrite <- app_assoc. simpl.
    by rewrite <- !Nat.add_succ_r.
Qed.

Lemma ray_entered (n : nat) (w : World) :
  (0 < n)%nat →
  ∃ s1 w1,
    __enter__ (__init__ Factory n w) = (Ok (), (s1, w1)) ∧
    ray_ready s1 ∧
    instances s1 = (λ i, {| actor := i; model := next_model w + i |}) <$> seq 0 n ∧
    log w1 = log w ++
      ((λ i, ECreate (RemoteActor i) (next_model w + i)%nat) <$> seq 0 n).
Proof.
  intros Hn. unfold __enter__, __init__.
  rewrite bind_unfold. unfold self at 1. simpl.
  rewrite bind_unfold.
  match goal with |- context [remote_instances n (?s1, ?w1)] =>
    destruct (remote_instances_spec n s1 w1) as (l & Hrun & Hl); rewrite Hrun end.
  simpl in *. unfold update. simpl. eexists _, _. split; [done|]. simpl.
  split; [|done].
  eexists. split; [done|]. split; [|done].
  split; simpl; [|done]. left. subst l. destruct n; [lia|done].
Qed.
End RayProofs.

(** ** Where the models are built *)
Section PoolCreationProofs.
Context {ModelInput QueryResult : Type}.
Context (predict : ModelInput → option QueryResult).
Import ModelRunnerPoolExecutor.
#[local] Abbreviation World := (World ModelInput QueryResult).
#[local] Abbreviation Self := (Self ModelInput QueryResult).
#[local] Abbreviation Executor := (Executor ModelInput QueryResult).
#[local] Arguments adjust_thread_count : simpl never.

(** [issue_query] on any state: the assertion fails; or the callback is
    stored and then nothing is submitted; or the batch is issued.  The
    world is never touched. *)
Lemma pool_issue_query_cases (s : Self) (w : World)
    (queries : QueryInput ModelInput) (callback : Callback) :
  ∃ r s',
    issue_query queries callback (s, w) = (r, (s', w)) ∧
    (s' = s
     ∨ s' = set_callback_fn (Some callback) s
     ∨ ∃ ex fn, futures s = ∅ ∧ executor s = Some ex ∧
         predictor_of s = Some fn ∧ r = Ok () ∧
         s' = issued s ex fn queries callback).
Proof.
  destruct (decide (futures s = ∅)) as [Hf|Hf].
  2:{ rewrite pool_issue_query_pending by done. eexists _, _. split; [done|]. by left. }
  destruct (executor s) as [ex|] eqn:Hex; destruct (predictor_of s) as [fn|] eqn:Hfn.
  - rewrite (pool_issue_query_idle s w ex fn) by done.
    eexists _, _. split; [done|]. right; right. by exists ex, fn.
  - unfold issue_query. rewrite bind_unfold. unfold self at 1. simpl.
    rewrite bool_decide_eq_true_2 by done. simpl.
    rewrite bind_unfold. unfold mret, M_ret. cbn beta iota.
    rewrite bind_unfold. unfold update at 1. cbn beta iota. simpl fst. simpl snd.
    rewrite bind_unfold, get_predictor_spec.
    change (predictor_of (set_callback_fn (Some callback) s))
      with (predictor_of s).
    rewrite Hfn. eexists _, _. split; [done|]. by right; left.
  - unfold issue_query. rewrite bind_unfold. unfold self at 1. simpl.
    rewrite bool_decide_eq_true_2 by done. simpl.
    rewrite bind_unfold. unfold mret, M_ret. cbn beta iota.
    rewrite bind_unfold. unfold update at 1. cbn beta iota. simpl fst. simpl snd.
    rewrite bind_unfold, get_predictor_spec.
    change (predictor_of (set_callback_fn (Some callback) s))
      with (predictor_of s).
    rewrite Hfn. destruct queries as [|[q x] queries].
    + eexists _, _. split; [done|]. by right; left.
    + simpl. rewrite bind_unfold. unfold executor_submit at 1.
      rewrite 2!bind_unfold. unfold self at 1. simpl. rewrite Hex. simpl.
      eexists _, _. split; [done|]. by right; left.
  - unfold issue_query. rewrite bind_unfold. unfold self at 1. simpl.
    rewrite bool_decide_eq_true_2 by done. simpl.
    rewrite bind_unfold. unfold mret, M_ret. cbn beta iota.
    rewrite bind_unfold. unfold update at 1. cbn beta iota. simpl fst. simpl snd.
    rewrite bind_unfold, get_predictor_spec.
    change (predictor_of (set_callback_fn (Some callback) s))
      with (predictor_of s).
    rewrite Hfn. eexists _, _. split; [done|]. by right; left.
Qed.

Lemma pool_issue_query_inv (s : Self) (w : World)
    (queries : QueryInput ModelInput) (callback : Callback) :
  pool_inv s → pool_live s →
  let s' := (issue_query queries callback (s, w)).2.1 in
  pool_inv s' ∧ pool_live s'.
Proof.
  intros Hinv Hl.
  destruct (pool_issue_query_cases s w queries callback) as (r & s' & Hrun & Hcase).
  rewrite Hrun. simpl.
  destruct Hcase as [->|[->|(ex & fn & Hf & Hex & Hfn & -> & ->)]].
  - done.
  - split; [|by destruct Hl]. destruct Hinv. by split.
  - split; [by apply issued_pool_inv|by apply issued_pool_live].
Qed.

(** What a step adds to the log and to the thread-local slots. *)
Lemma step_events t (s s' : Self) (w w' : World) :
  pool_live s → step predict t (s, w) = Some (s', w') →
  ∃ ex wk evs,
    executor s = Some ex ∧ workers ex !! t = Some wk ∧
    log w' = log w ++ evs ∧
    ((status wk = Initializing ∧
      evs = [ECreate (WorkerThread t) (next_model w)] ∧
      ∃ l, tls s = Some l ∧
        tls_model s' = <[(l, t) := next_model w]> (tls_model s))
     ∨
     ((status wk = Starting ∨ status wk = Polling ∨ status wk = Blocked) ∧
      evs = [] ∧ tls_model s' = tls_model s)
     ∨
     (∃ f fn x, status wk = Running f fn x ∧
        tls_model s' = tls_model s ∧ creations evs = [] ∧
        ∀ u m x', (u, m, x') ∈ predictions evs →
          x' = x ∧
          match fn with
          | BoundPredict m' => m = m' ∧ u = unit_of (kind s) t
          | TlsPredict =>
              u = WorkerThread t ∧
              ∃ l, tls s = Some l ∧ tls_model s !! (l, t) = Some m
          | ProcessPredict => u = WorkerProcess t ∧ globals wk = Some m
          end)).
Proof.
  intros Hl H. step_inv H.
  - injection H as <- <-. exists ex, wk, []. rewrite app_nil_r.
    repeat (split; [done|]). right; left. split; [by left|done].
  - assert (Hin : wk ∈ workers ex) by by eapply list_elem_of_lookup_2.
    destruct (live_tls _ Hl ex wk Hex Hin Hst) as [Hi [l Htl]].
    destruct (live_factory _ Hl ex Hex Hi) as [mf Hmf].
    rewrite tls_init_2_spec, Hmf, Htl in H. simpl in H. injection H as <- <-.
    exists ex, wk, [ECreate (WorkerThread t) (next_model w)].
    repeat (split; [done|]). left. repeat (split; [done|]). by exists l.
  - destruct (work_queue ex) as [|[[f fn] x] q] eqn:Hq; injection H as <- <-;
      exists ex, wk, []; rewrite app_nil_r; repeat (split; [done|]);
      right; left; (split; [by right; left|done]).
  - destruct (work_queue ex) as [|[[f fn] x] q] eqn:Hq; [done|].
    injection H as <- <-. exists ex, wk, []. rewrite app_nil_r.
    repeat (split; [done|]). right; left. split; [by right; right|done].
  - destruct (run_work_item_frame predict t (globals wk) f fn x s w)
      as (tbl & o & evs & Hrun & Hcr & Hpred).
    unfold mbind, M_bind in H. rewrite Hrun in H. simpl in H.
    rewrite Hex in H. simpl in H. injection H as <- <-.
    exists ex, wk, evs. repeat (split; [done|]). right; right.
    by exists f, fn, x.
  - done.
Qed.

Lemma times_created_app u (l1 l2 : list (Event ModelInput QueryResult)) :
  times_created u (l1 ++ l2) = (times_created u l1 + times_created u l2)%nat.
Proof.
  unfold times_created. by rewrite creations_app, filter_app, length_app.
Qed.

Lemma times_created_quiet u (evs : list (Event ModelInput QueryResult)) :
  creations evs = [] → times_created u evs = 0%nat.
Proof. unfold times_created. by intros ->. Qed.

Lemma weight_alter (f : WorkerStatus ModelInput → nat) t st wk
    (ws : list (Worker ModelInput)) :
  ws !! t = Some wk →
  (sum_list (f ∘ status <$>
      alter (λ wk, {| status := st; globals := globals wk |}) t ws)
   + f (status wk) = sum_list (f ∘ status <$> ws) + f st)%nat.
Proof.
  revert t. induction ws as [|w0 ws IH]; intros [|t] Ht;
    simpl in Ht; simplify_eq; cbn [alter list_alter]; rewrite !fmap_cons;
    simpl.
  - lia.
  - specialize (IH t Ht). lia.
Qed.

Lemma created_by_alter t t' st wk (ex ex' : Executor) :
  workers ex !! t = Some wk →
  workers ex' =
    alter (λ wk, {| status := st; globals := globals wk |}) t (workers ex) →
  created_by ex' t' =
    if decide (t' = t) then (if initialised st then 1 else 0)%nat
    else created_by ex t'.
Proof.
  intros Hwk Hws. unfold created_by. rewrite Hws.
  case_decide as Heq.
  - subst t'. rewrite list_lookup_alter_eq, Hwk. done.
  - by rewrite list_lookup_alter_ne.
Qed.

Lemma step_tls_inv t (s s' : Self) (w w' : World) :
  pool_inv s → pool_live s → tls_inv s w →
  step predict t (s, w) = Some (s', w') → tls_inv s' w'.
Proof.
  intros Hinv Hl Ht H.
  destruct (step_frame predict _ _ _ _ _ H)
    as (ex & ex' & Hex & Hex' & Hk & Hmc & _ & _ & _ & Hmax & Hini & _).
  destruct (step_workers predict _ _ _ _ _ H)
    as (ex0 & ex0' & wk & st' & Hex0 & Hex0' & Hwk & Hws & _ & _ & _ & Hcase).
  assert (ex0 = ex) as -> by congruence.
  assert (ex0' = ex') as -> by congruence.
  destruct (step_events t s s' w w' Hl H)
    as (ex0 & wk0 & evs & Hex0'' & Hwk0 & Hlog & Hev).
  assert (ex0 = ex) as -> by congruence.
  assert (wk0 = wk) as -> by congruence.
  destruct (step_summary predict _ _ _ _ _ Hinv H)
    as (ex0 & ex0'' & wk0 & Hexa & Hexb & _ & _ & _ & Hsum).
  assert (ex0 = ex) as -> by congruence.
  assert (ex0'' = ex') as -> by congruence.
  assert (Hsub : ∀ item, item ∈ pending_items ex' → item ∈ pending_items ex).
  { intros item Hin.
    destruct Hsum as [(_ & _ & _ & Hp & _)|(f & fn & x & q & cb & o & _ & _ & _ & _ & _ & Hp & _)];
      rewrite Hp in *; [done|by right]. }
  assert (Hw : (built ex' + (if initialised (status wk) then 1 else 0)
                = built ex + (if initialised st' then 1 else 0))%nat).
  { unfold built. rewrite Hws.
    exact (weight_alter (λ st, if initialised st then 1 else 0)%nat
             t st' wk (workers ex) Hwk). }
  assert (Hst : (status wk = Initializing ∧ st' = Polling ∧
                 evs = [ECreate (WorkerThread t) (next_model w)] ∧
                 ∃ l, tls s = Some l ∧
                   tls_model s' = <[(l, t) := next_model w]> (tls_model s))
                ∨ (initialised st' = initialised (status wk) ∧
                   creations evs = [] ∧ tls_model s' = tls_model s)).
  { destruct Hev as [(Hs & -> & Hl')|[(Hs & -> & Htm)|(f & fn & x & Hs & Htm & Hcr & _)]].
    - left. split; [done|].
      destruct Hcase as [(Hs' & _)|[(_ & _ & _ & _ & [->|[-> Hbad]])|
        [(Hs' & _)|[([Hs'|Hs'] & _)|(f & fn & x & Hs' & _)]]]]; try congruence.
      + done.
      + exfalso. assert (Hin : wk ∈ workers ex) by by eapply list_elem_of_lookup_2.
        destruct (live_tls _ Hl ex wk Hex Hin Hs) as [Hi [l Htl]].
        destruct (live_factory _ Hl ex Hex Hi) as [mf Hmf].
        destruct Hbad; congruence.
    - right. split; [|done].
      destruct Hcase as [(Hs' & -> & _)|[(Hs' & _)|
        [(Hs' & -> & _)|[([Hs'|Hs'] & f & fn & x & -> & _)|(f & fn & x & Hs' & _)]]]];
        try (by rewrite Hs'); destruct Hs as [Hs|[Hs|Hs]]; congruence.
    - right. split; [|done].
      destruct Hcase as [(Hs' & _)|[(Hs' & _)|
        [(Hs' & _)|[([Hs'|Hs'] & _)|(f' & fn' & x' & Hs' & -> & _)]]]];
        try congruence. by rewrite Hs'. }
  split.
  - rewrite Hk. apply Ht.
  - intros ex0 item He Hin. assert (ex0 = ex') as -> by congruence.
    by apply (tls_items _ _ Ht ex), Hsub.
  - intros ex0 He. assert (ex0 = ex') as -> by congruence.
    destruct (tls_executor _ _ Ht ex Hex) as (? & ? & ?).
    rewrite Hini, Hmax, Hmc, Hws, length_alter. done.
  - intros He. congruence.
  - intros ex0 t' He. assert (ex0 = ex') as -> by congruence.
    rewrite Hlog, times_created_app, (tls_count _ _ Ht ex t' Hex).
    rewrite (created_by_alter t t' st' wk ex ex' Hwk Hws).
    destruct Hst as [(Hs & -> & -> & _)|(Hi & Hcr & _)].
    + unfold times_created. simpl. rewrite filter_cons. simpl.
      case_decide as Heq.
      * injection Heq as <-. rewrite decide_True by done. simpl.
        unfold created_by. rewrite Hwk, Hs. done.
      * rewrite decide_False by congruence. simpl. lia.
    + rewrite (times_created_quiet _ evs Hcr), Nat.add_0_r.
      case_decide as Heq; [|done]. subst t'.
      unfold created_by. rewrite Hwk, Hi. done.
  - intros ex0 He. assert (ex0 = ex') as -> by congruence.
    rewrite Hlog, creations_app, length_app, (tls_total _ _ Ht ex Hex).
    destruct Hst as [(Hs & -> & -> & _)|(Hi & Hcr & _)].
    + rewrite Hs in Hw. simpl in *. lia.
    + rewrite Hcr. rewrite Hi in Hw. simpl. lia.
  - intros l t' m Hm. rewrite Hlog, creations_app.
    destruct Hst as [(Hs & -> & -> & l' & Hl' & Htm)|(Hi & Hcr & Htm)];
      rewrite Htm in Hm.
    + destruct (decide ((l, t') = (l', t))) as [Heq|Hne].
      * injection Heq as -> ->. rewrite lookup_insert_eq in Hm.
        injection Hm as <-. apply elem_of_app. right. simpl. by left.
      * rewrite lookup_insert_ne in Hm by done.
        apply elem_of_app. left. by apply (tls_slots _ _ Ht l t' m).
    + apply elem_of_app. left. by apply (tls_slots _ _ Ht l t' m).
  - intros u m x Hin. rewrite Hlog, predictions_app in Hin.
    rewrite Hlog, creations_app.
    apply elem_of_app in Hin as [Hin|Hin].
    { destruct (tls_predictions _ _ Ht u m x Hin) as (t0 & -> & Hc).
      exists t0. split; [done|]. apply elem_of_app. by left. }
    destruct Hev as [(Hs & -> & Hl')|[(Hs & -> & Htm)|(f & fn & x' & Hs & Htm & Hcr & Hp)]].
    + simpl in Hin. by apply elem_of_nil in Hin.
    + by apply elem_of_nil in Hin.
    + destruct (Hp u m x Hin) as [-> Hfn].
      assert (Hit : fn = TlsPredict).
      { apply (tls_items _ _ Ht ex (f, fn, x') Hex).
        unfold pending_items. apply elem_of_app. right.
        unfold running. apply list_elem_of_omap. exists wk.
        split; [by eapply list_elem_of_lookup_2|]. by rewrite Hs. }
      subst fn. destruct Hfn as (-> & l & Htl & Hm).
      exists t. split; [done|]. apply elem_of_app. left.
      by apply (tls_slots _ _ Ht l t m).
  - intros u m Hin. rewrite Hlog, creations_app in Hin.
    apply elem_of_app in Hin as [Hin|Hin]; [by apply (tls_creators _ _ Ht u m)|].
    destruct Hst as [(_ & _ & -> & _)|(_ & Hcr & _)].
    + apply list_elem_of_singleton in Hin. injection Hin as -> ->. by exists t.
    + rewrite Hcr in Hin. by apply elem_of_nil in Hin.
Qed.

Lemma created_by_app (ex ex' : Executor) new t (b : bool) g :
  workers ex' = workers ex ++ new →
  Forall (λ wk : Worker ModelInput,
    status wk = (if b then Starting else Polling) ∧ globals wk = g) new →
  b = true →
  created_by ex' t = created_by ex t ∧ built ex' = built ex.
Proof.
  intros Hws Hnew ->. unfold created_by, built. rewrite Hws. split.
  - destruct (decide (t < length (workers ex))%nat) as [Hlt|Hge].
    + by rewrite lookup_app_l.
    + rewrite lookup_app_r by lia.
      rewrite (lookup_ge_None_2 (workers ex)) by lia.
      destruct (new !! (t - length (workers ex))%nat) as [wk|] eqn:E; [|done].
      rewrite Forall_forall in Hnew.
      destruct (Hnew wk) as [-> _]; [by eapply list_elem_of_lookup_2|done].
  - rewrite fmap_app, sum_list_with_app.
    assert (H0 : sum_list ((λ wk : Worker ModelInput,
                   if initialised (status wk) then 1%nat else 0%nat) <$> new) = 0%nat).
    { clear Hws. induction Hnew as [|wk new [Hs _] _ IH]; [done|].
      rewrite fmap_cons. simpl. by rewrite Hs, IH. }
    rewrite H0. lia.
Qed.

Lemma issue_tls_inv (s : Self) (w : World)
    (queries : QueryInput ModelInput) (callback : Callback) :
  pool_inv s → tls_inv s w →
  tls_inv (issue_query queries callback (s, w)).2.1
          (issue_query queries callback (s, w)).2.2.
Proof.
  intros Hinv Ht.
  destruct (pool_issue_query_cases s w queries callback) as (r & s' & Hrun & Hcase).
  rewrite Hrun. simpl.
  destruct Hcase as [->|[->|(ex & fn & Hf & Hex & Hfn & -> & ->)]].
  - done.
  - destruct Ht. by split.
  - pose proof (issued_pending_items s ex fn queries Hinv Hf Hex) as Hp.
    destruct (submit_all_fields (_model s) fn queries ex) as (Hm & Hi & _).
    destruct (submit_all_workers (_model s) fn queries ex) as (new & Hws & Hlen & Hnew).
    destruct (tls_executor _ _ Ht ex Hex) as (Hini & Hmax & Hle).
    destruct (created_by_app ex (submit_all (_model s) fn queries ex) new 0%nat
                (initializer ex) (_model s) Hws Hnew Hini) as [_ Hb].
    split; simpl.
    + apply Ht.
    + intros ? item [= <-] Hin. rewrite Hp in Hin.
      apply list_elem_of_fmap in Hin as (fqx & -> & _). simpl.
      unfold predictor_of in Hfn. rewrite (tls_kind _ _ Ht) in Hfn. congruence.
    + intros ? [= <-]. rewrite Hm, Hi, Hws. split; [done|]. split; [done|].
      by apply Hlen.
    + done.
    + intros ? t [= <-]. rewrite (tls_count _ _ Ht ex t Hex). symmetry.
      by apply (created_by_app ex _ new t (initializer ex) (_model s)).
    + intros ? [= <-]. by rewrite (tls_total _ _ Ht ex Hex), Hb.
    + apply Ht.
    + apply Ht.
    + apply Ht.
Qed.

Lemma step_shared_inv t (s s' : Self) (w w' : World) :
  pool_live s → shared_inv s w →
  step predict t (s, w) = Some (s', w') → shared_inv s' w'.
Proof.
  intros Hl Hs H.
  destruct (step_frame predict _ _ _ _ _ H)
    as (ex & ex' & Hex & Hex' & Hk & _ & Hm & Hm' & _ & _ & Hini & Hg).
  destruct (step_events t s s' w w' Hl H)
    as (ex0 & wk & evs & Hex0 & Hwk & Hlog & Hev).
  assert (ex0 = ex) as -> by congruence.
  assert (Hcr : creations evs = []).
  { destruct Hev as [(Hst & _)|[(_ & -> & _)|(f & fn & x & _ & _ & Hcr & _)]];
      [|done..].
    exfalso. assert (Hin : wk ∈ workers ex) by by eapply list_elem_of_lookup_2.
    destruct (live_tls _ Hl ex wk Hex Hin Hst) as [Hi _].
    by rewrite (shared_executor _ _ Hs ex Hex) in Hi. }
  split.
  - rewrite Hk. apply Hs.
  - rewrite Hk, Hm, Hm'. apply Hs.
  - intros ex0 He. assert (ex0 = ex') as -> by congruence.
    rewrite Hini. by apply Hs.
  - rewrite Hlog, creations_app, Hcr, app_nil_r. apply Hs.
  - intros ex0 wk' He Hin. assert (ex0 = ex') as -> by congruence.
    assert (Hing : globals wk' ∈ globals <$> workers ex').
    { apply list_elem_of_fmap. by exists wk'. }
    rewrite Hg in Hing. apply list_elem_of_fmap in Hing as (wk0 & -> & Hin0).
    rewrite Hm'. by apply (shared_globals _ _ Hs ex).
Qed.

Lemma issue_shared_inv (s : Self) (w : World)
    (queries : QueryInput ModelInput) (callback : Callback) :
  shared_inv s w →
  shared_inv (issue_query queries callback (s, w)).2.1
             (issue_query queries callback (s, w)).2.2.
Proof.
  intros Hs.
  destruct (pool_issue_query_cases s w queries callback) as (r & s' & Hrun & Hcase).
  rewrite Hrun. simpl.
  destruct Hcase as [->|[->|(ex & fn & Hf & Hex & Hfn & -> & ->)]].
  - done.
  - destruct Hs. by split.
  - destruct (submit_all_fields (_model s) fn queries ex) as (_ & Hi & _).
    destruct (submit_all_workers (_model s) fn queries ex) as (new & Hws & _ & Hnew).
    split; simpl.
    + apply Hs.
    + apply Hs.
    + intros ? [= <-]. rewrite Hi. by apply Hs.
    + apply Hs.
    + intros ? wk [= <-] Hin. rewrite Hws in Hin.
      apply elem_of_app in Hin as [Hin|Hin]; [by apply (shared_globals _ _ Hs ex)|].
      rewrite Forall_forall in Hnew. by destruct (Hnew wk Hin).
Qed.

(** After [__init__] and [__enter__] on a new world, whatever
    [max_concurrency] is. *)
Lemma entered_creation_inv (k : Kind) (n : nat) :
  let sw := (__enter__ (__init__ (ModelInput := ModelInput)
                          (QueryResult := QueryResult) k Factory n new_world)).2 in
  pool_inv sw.1 ∧ pool_live sw.1 ∧ max_concurrency sw.1 = n ∧
  kind sw.1 = k ∧
  match k with
  | ThreadPoolExecutorWithTLS => tls_inv sw.1 sw.2
  | _ => shared_inv sw.1 sw.2
  end.
Proof.
  destruct n as [|n].
  - simpl. unfold __enter__, mbind, M_bind, self. simpl.
    assert (Hmc : max_concurrency (__init__ (ModelInput := ModelInput)
              (QueryResult := QueryResult) k Factory 0 new_world).1 = 0%nat)
      by by destruct k.
    rewrite Hmc. simpl. split; [|split; [|split; [|split]]].
    + destruct k; by split.
    + destruct k; by split.
    + done.
    + by destruct k.
    + destruct k; split; simpl; try done.
      all: intros; by match goal with H : _ ∈ [] |- _ => apply elem_of_nil in H end.
  - destruct (entered_ok k (S n) (new_world (ModelInput := ModelInput)
                (QueryResult := QueryResult))) as (s1 & Hrun & Hf & Hex & Hk & Hinv & Hl & _);
      [lia|].
    simpl. rewrite Hrun. simpl. split; [done|]. split; [done|].
    assert (Hs1 : s1 = set_executor (Some (new_executor (S n)
                match k with ThreadPoolExecutorWithTLS => true | _ => false end))
              (__init__ k Factory (S n) new_world).1).
    { unfold __enter__, mbind, M_bind, self in Hrun. simpl in Hrun.
      assert (Hmc : max_concurrency (__init__ (ModelInput := ModelInput)
                (QueryResult := QueryResult) k Factory (S n) new_world).1 = S n)
        by by destruct k.
      rewrite Hmc in Hrun. simpl in Hrun. unfold update in Hrun. simpl in Hrun.
      injection Hrun as <-.
      assert (Hk' : kind (__init__ (ModelInput := ModelInput)
                (QueryResult := QueryResult) k Factory (S n) new_world).1 = k)
        by by destruct k.
      by rewrite Hk'. }
    split; [by rewrite Hs1; destruct k|]. split; [done|].
    destruct k; rewrite Hs1; split; simpl; try done.
    all: try (by intros ? [= <-]).
    all: try (intros ? wk [= <-] Hin; by apply elem_of_nil in Hin).
    all: try (intros ? item [= <-] Hin; by apply elem_of_nil in Hin).
    all: try (intros ??? Hin; by apply elem_of_nil in Hin).
    all: try (intros ?? Hin; by apply elem_of_nil in Hin).
    all: try (intros ??? Hin; by rewrite lookup_empty in Hin).
    + intros ? [= <-]. simpl. split; [done|]. split; [done|]. lia.
    + by intros ? t [= <-].
Qed.
End PoolCreationProofs.
(** ** The runner interface *)
Section RunnerProofs.
Context {ModelInput QueryResult : Type}.
Context (predict : ModelInput → option QueryResult).
#[local] Abbreviation World := (World ModelInput QueryResult).
#[local] Abbreviation Runner := (Runner ModelInput QueryResult).
#[local] Abbreviation Op := (Op ModelInput).

(** The loop of the actor pool runner builds no model and keeps the
    actors. *)
Lemma ray_for_results_frame fuel callback (s : ModelRunnerRay.Self ModelInput)
    (w : World) :
  ∃ r p' w',
    ModelRunnerRay.for_results predict fuel callback (s, w) =
      (r, (ModelRunnerRay.set_pool p' s, w')) ∧
    creations (log w') = creations (log w).
Proof.
  revert s w. induction fuel as [|fuel IH]; intros s w.
  - exists (Ok ()), (ModelRunnerRay.pool s), w. split; [by destruct s|done].
  - simpl. rewrite bind_unfold. unfold self at 1. simpl.
    destruct (ModelRunnerRay.pool s) as [p|] eqn:Hp; simpl.
    2:{ exists (Raise AttributeError), None, w. split; [|done].
        destruct s; simpl in *; by subst. }
    rewrite bind_unfold. unfold mret at 1, M_ret at 1.
    destruct (ModelRunnerRay.has_next p) eqn:Hn.
    2:{ exists (Ok ()), (Some p), w. split; [|done].
        destruct s; simpl in *; by subst. }
    rewrite bind_unfold. unfold ModelRunnerRay.get_next.
    rewrite bind_unfold. unfold self at 1. simpl. rewrite Hp. simpl.
    rewrite bind_unfold. unfold mret at 1, M_ret at 1.
    unfold ModelRunnerRay.has_next in Hn.
    destruct (ModelRunnerRay._in_flight p) as [|[a [q x]] rest]; [done|].
    rewrite bind_unfold. unfold update at 1. simpl.
    unfold ModelRunnerRay.RayModel_predict. rewrite bind_unfold.
    rewrite model_predict_spec. unfold prediction.
    destruct (predict x) as [r|]; simpl.
    + rewrite bind_unfold. unfold call, emit. simpl.
      match goal with |- context [ModelRunnerRay.for_results _ _ _ (?s1, ?w1)] =>
        destruct (IH s1 w1) as (r' & p' & w' & Hrun & Hcr) end.
      rewrite Hrun. exists r', p', w'. split; [done|].
      rewrite Hcr. simpl. rewrite !creations_app. simpl. by rewrite !app_nil_r.
    + eexists (Raise PredictionError), _, _. split; [done|].
      simpl. rewrite creations_app. simpl. by rewrite app_nil_r.
Qed.

Lemma ray_issue_query_frame (s : ModelRunnerRay.Self ModelInput) (w : World)
    (queries : QueryInput ModelInput) (callback : Callback) :
  ∃ r p' w',
    ModelRunnerRay.issue_query predict queries callback (s, w) =
      (r, (ModelRunnerRay.set_pool p' s, w')) ∧
    creations (log w') = creations (log w).
Proof.
  unfold ModelRunnerRay.issue_query.
  rewrite bind_unfold. unfold self at 1. simpl.
  destruct (ModelRunnerRay.pool s) as [p|] eqn:Hp; simpl.
  2:{ exists (Raise AttributeError), None, w. split; [|done].
      destruct s; simpl in *; by subst. }
  rewrite bind_unfold. unfold mret at 1, M_ret at 1.
  rewrite bind_unfold. unfold update at 1. simpl.
  match goal with |- context [ModelRunnerRay.for_results _ ?fuel _ (?s1, ?w1)] =>
    destruct (ray_for_results_frame fuel callback s1 w1) as (r' & p' & w' & Hrun & Hcr) end.
  rewrite Hrun. by exists r', p', w'.
Qed.

Lemma batch_issue_query_frame (s : ModelRunnerMultiProcessingPool.Self ModelInput)
    (w : World) (queries : QueryInput ModelInput) (callback : Callback) :
  ∃ r s',
    ModelRunnerMultiProcessingPool.issue_query queries callback (s, w) =
      (r, (s', w)) ∧
    ModelRunnerMultiProcessingPool._model s' = ModelRunnerMultiProcessingPool._model s ∧
    ModelRunnerMultiProcessingPool.pool s' = ModelRunnerMultiProcessingPool.pool s.
Proof.
  unfold ModelRunnerMultiProcessingPool.issue_query, mbind, M_bind, self, assert.
  simpl.
  destruct (ModelRunnerMultiProcessingPool.task s); simpl; [by eexists _, _|].
  destruct (ModelRunnerMultiProcessingPool.callback_fn s); simpl; [by eexists _, _|].
  destruct (ModelRunnerMultiProcessingPool.pool s) eqn:Hp; simpl;
    (eexists _, _; split; [done|]; simpl; by rewrite ?Hp).
Qed.

Lemma batch_flush_queries_frame (s : ModelRunnerMultiProcessingPool.Self ModelInput)
    (w : World) :
  ∃ r s' w',
    ModelRunnerMultiProcessingPool.flush_queries predict (s, w) = (r, (s', w')) ∧
    ModelRunnerMultiProcessingPool._model s' = ModelRunnerMultiProcessingPool._model s ∧
    ModelRunnerMultiProcessingPool.pool s' = ModelRunnerMultiProcessingPool.pool s ∧
    creations (log w') = creations (log w).
Proof.
  unfold ModelRunnerMultiProcessingPool.flush_queries, mbind, M_bind, self,
    lift_result. simpl.
  destruct (ModelRunnerMultiProcessingPool.task s) as [t|]; simpl;
    [|by eexists _, _, _].
  destruct (ModelRunnerMultiProcessingPool.MapResult_get predict t); simpl;
    [|by eexists _, _, _].
  destruct (ModelRunnerMultiProcessingPool.callback_fn s); simpl;
    [|by eexists _, _, _].
  eexists _, _, _. split; [done|]. simpl. split; [done|]. split; [done|].
  rewrite creations_app. simpl. by rewrite app_nil_r.
Qed.

Lemma inline_issue_query_frame (s : ModelRunnerInline.Self) (w : World)
    (queries : QueryInput ModelInput) (callback : Callback) :
  ∃ r w',
    ModelRunnerInline.issue_query predict queries callback (s, w) = (r, (s, w')) ∧
    creations (log w') = creations (log w).
Proof.
  revert w. unfold ModelRunnerInline.issue_query.
  match goal with |- context [for_ queries ?b] => set (body := b) end.
  induction queries as [|[q x] queries IH]; intros w.
  - by exists (Ok ()), w.
  - cbn [for_]. rewrite bind_unfold. unfold body at 1.
    rewrite bind_unfold. unfold self at 1. cbn [fst snd].
    rewrite bind_unfold, model_predict_spec. unfold prediction.
    destruct (predict x) as [r|].
    + unfold call, emit. cbn [fst snd].
      match goal with |- context [for_ queries body (s, ?w1)] =>
        destruct (IH w1) as (r' & w' & Hrun & Hcr) end.
      rewrite Hrun. exists r', w'. split; [done|].
      rewrite Hcr. simpl. rewrite !creations_app. simpl. by rewrite !app_nil_r.
    + eexists _, _. split; [done|]. simpl. rewrite creations_app. simpl.
      by rewrite app_nil_r.
Qed.

Lemma do_op_inv n (rw : Runner * World) (op : Op) :
  runner_inv n rw → runner_inv n (do_op predict rw op).
Proof.
  destruct rw as [r w]. intros Hinv. unfold runner_inv in *. simpl in Hinv.
  destruct op as [queries callback| |t]; simpl.
  - unfold issue_query, on. simpl. destruct r as [s|s|s|s]; simpl.
    + destruct (inline_issue_query_frame s w queries callback) as (r & w' & -> & Hcr).
      simpl. by rewrite Hcr.
    + destruct Hinv as (Hinv & Hl & Hn & Hk).
      destruct (pool_issue_query_inv s w queries callback Hinv Hl) as [Hinv' Hl'].
      split; [done|]. split; [done|].
      destruct (pool_issue_query_cases s w queries callback)
        as (r & s' & Hrun & Hcase).
      assert (Hk' : ModelRunnerPoolExecutor.kind s' = ModelRunnerPoolExecutor.kind s
                    ∧ ModelRunnerPoolExecutor.max_concurrency s'
                      = ModelRunnerPoolExecutor.max_concurrency s).
      { destruct Hcase as [->|[->|(ex & fn & _ & _ & _ & _ & ->)]]; done. }
      pose proof (issue_tls_inv s w queries callback Hinv) as Htls.
      pose proof (issue_shared_inv s w queries callback) as Hsh.
      rewrite Hrun in *. simpl in *. destruct Hk' as [-> ->].
      split; [done|].
      destruct (ModelRunnerPoolExecutor.kind s); auto.
    + destruct (batch_issue_query_frame s w queries callback)
        as (r & s' & -> & Hm & Hp). simpl. by rewrite Hm, Hp.
    + destruct (ray_issue_query_frame s w queries callback)
        as (r & p' & w' & -> & Hcr). simpl. by rewrite Hcr.
  - unfold flush_queries, on. simpl. destruct r as [s|s|s|s]; simpl; try done.
    destruct (batch_flush_queries_frame s w) as (r & s' & w' & -> & Hm & Hp & Hcr).
    simpl. by rewrite Hm, Hp, Hcr.
  - unfold worker_step. simpl. destruct r as [s|s|s|s]; simpl; try done.
    destruct (ModelRunnerPoolExecutor.step predict t (s, w)) as [[s' w']|] eqn:Hstep;
      simpl; [|done].
    destruct Hinv as (Hinv & Hl & Hn & Hk).
    destruct (step_frame predict _ _ _ _ _ Hstep)
      as (ex & ex' & _ & _ & Hk' & Hmc & _).
    split; [by eapply step_pool_inv|]. split; [by eapply step_pool_live|].
    split; [congruence|]. rewrite Hk'.
    destruct (ModelRunnerPoolExecutor.kind s);
      [by eapply step_shared_inv|by eapply step_tls_inv|by eapply step_shared_inv].
Qed.

Lemma creations_fmap_create {A} (u : A → ExecUnit) (m : A → Model) (l : list A) :
  creations ((λ a, ECreate (ModelInput := ModelInput)
                     (QueryResult := QueryResult) (u a) (m a)) <$> l)
  = (λ a, (u a, m a)) <$> l.
Proof.
  induction l as [|a l IH]; [done|].
  rewrite !fmap_cons. unfold creations in *. rewrite omap_cons_unfold. simpl.
  by rewrite IH.
Qed.

Lemma acquired_inv (k : Strategy) (n : nat) :
  runner_inv n (acquire (new_runner (ModelInput := ModelInput)
                           (QueryResult := QueryResult) k Factory n new_world)).2.
Proof.
  destruct k.
  6:{ assert (Heq : acquire (new_runner (ModelInput := ModelInput)
                       (QueryResult := QueryResult)
                       DistributedActorPoolRunner Factory n new_world)
                    = let out := ModelRunnerRay.__enter__
                                   (ModelRunnerRay.__init__ Factory n new_world) in
                      (out.1, (RRay out.2.1, out.2.2))) by reflexivity.
      rewrite Heq. clear Heq. destruct n as [|n].
      - unfold runner_inv. simpl. split; [done|]. constructor.
      - destruct (ray_entered (ModelInput := ModelInput) (QueryResult := QueryResult)
                    (S n) new_world) as (s1 & w1 & Hrun & _ & Hi & Hlog); [lia|].
        rewrite Hrun. unfold runner_inv. cbn [fst snd]. rewrite Hlog, Hi. split.
        + rewrite creations_app, creations_fmap_create.
          by rewrite <- list_fmap_compose.
        + rewrite <- list_fmap_compose.
          rewrite (list_fmap_ext _ id (seq 0 (S n))) by done.
          rewrite list_fmap_id. apply NoDup_seq. }
  all: unfold runner_inv, acquire, new_runner, on; simpl.
  - done.
  - destruct (entered_creation_inv (ModelInput := ModelInput)
                (QueryResult := QueryResult)
                ModelRunnerPoolExecutor.ThreadPoolExecutor n) as (? & ? & ? & Hk & Hs).
    simpl in *. by rewrite Hk.
  - destruct (entered_creation_inv (ModelInput := ModelInput)
                (QueryResult := QueryResult)
                ModelRunnerPoolExecutor.ThreadPoolExecutorWithTLS n)
      as (? & ? & ? & Hk & Hs).
    simpl in *. by rewrite Hk.
  - destruct (entered_creation_inv (ModelInput := ModelInput)
                (QueryResult := QueryResult)
                ModelRunnerPoolExecutor.ProcessPoolExecutor n) as (? & ? & ? & Hk & Hs).
    simpl in *. by rewrite Hk.
  - unfold ModelRunnerMultiProcessingPool.__enter__, mbind, M_bind, self. simpl.
    destruct n; simpl; [done|]. split; [done|]. split; [done|].
    by intros ? [= <-].
Qed.

Lemma lifetime_inv (k : Strategy) (n : nat) (ops : list Op) :
  runner_inv n (lifetime predict k n ops).
Proof.
  unfold lifetime. induction ops as [|op ops IH] using rev_ind.
  - apply acquired_inv.
  - rewrite foldl_app. simpl. by apply do_op_inv.
Qed.
End RunnerProofs.

Section StrategyProofs.
Context {ModelInput QueryResult : Type}.
Context (predict : ModelInput → option QueryResult).
#[local] Abbreviation World := (World ModelInput QueryResult).
#[local] Abbreviation Runner := (Runner ModelInput QueryResult).
#[local] Abbreviation Op := (Op ModelInput).

Lemma step_kind t (s s' : ModelRunnerPoolExecutor.Self ModelInput QueryResult)
    (w w' : World) :
  ModelRunnerPoolExecutor.step predict t (s, w) = Some (s', w') →
  ModelRunnerPoolExecutor.kind s' = ModelRunnerPoolExecutor.kind s.
Proof.
  intros H. step_inv H.
  - by injection H as <- <-.
  - rewrite tls_init_2_spec in H.
    destruct (ModelRunnerPoolExecutor.model_factory s) as [mf|];
      [destruct (ModelRunnerPoolExecutor.tls s) as [l|]|];
      simpl in H; by injection H as <- <-.
  - destruct (ModelRunnerPoolExecutor.work_queue ex) as [|[[f fn] x] q];
      by injection H as <- <-.
  - destruct (ModelRunnerPoolExecutor.work_queue ex) as [|[[f fn] x] q]; [done|].
    by injection H as <- <-.
  - destruct (run_work_item_frame predict t (ModelRunnerPoolExecutor.globals wk)
                f fn x s w) as (tbl & o & evs & Hrun & _).
    unfold mbind, M_bind in H. rewrite Hrun in H. simpl in H.
    by injection H as <- <-.
  - done.
Qed.

Lemma do_op_strategy (rw : Runner * World) (op : Op) :
  strategy_of (do_op predict rw op).1 = strategy_of rw.1.
Proof.
  destruct rw as [r w]. destruct op as [queries callback| |t]; simpl.
  - destruct r as [s|s|s|s]; unfold issue_query, on; simpl; try done.
    destruct (pool_issue_query_cases s w queries callback)
      as (res & s' & Hrun & [->|[->|(ex & fn & _ & _ & _ & _ & ->)]]);
      by rewrite Hrun.
  - by destruct r.
  - unfold worker_step. destruct r as [s|s|s|s]; simpl; try done.
    destruct (ModelRunnerPoolExecutor.step predict t (s, w)) as [[s' w']|] eqn:Hstep;
      simpl; [|done].
    by rewrite (step_kind _ _ _ _ _ Hstep).
Qed.

Lemma lifetime_strategy (k : Strategy) (n : nat) (ops : list Op) :
  strategy_of (lifetime predict k n ops).1 = k.
Proof.
  unfold lifetime. induction ops as [|op ops IH] using rev_ind.
  - destruct k; simpl; try done.
    all: unfold acquire, on, new_runner; simpl.
    1-3: unfold ModelRunnerPoolExecutor.__enter__, mbind, M_bind, self; simpl;
         by destruct (decide (n = 0)%nat).
  - by rewrite foldl_app; simpl; rewrite do_op_strategy.
Qed.

Lemma built_le (ex : ModelRunnerPoolExecutor.Executor ModelInput QueryResult) :
  (built ex ≤ length (ModelRunnerPoolExecutor.workers ex))%nat.
Proof.
  unfold built. induction (ModelRunnerPoolExecutor.workers ex) as [|wk ws IH];
    csimpl; [lia|].
  destruct (initialised (ModelRunnerPoolExecutor.status wk)); simpl; lia.
Qed.
End StrategyProofs.

(** ** The life cycle of the pool-backed runners *)
Section LifecycleProofs.
Context {ModelInput QueryResult : Type}.
Context (predict : ModelInput → option QueryResult).
#[local] Abbreviation World := (World ModelInput QueryResult).
#[local] Abbreviation Runner := (Runner ModelInput QueryResult).
#[local] Abbreviation Op := (Op ModelInput).

(** C3. On a pool-backed runner (a pool executor runner of any of the three
    kinds, or the batch runner), [issue_query] while a batch is pending (the
    table of futures is not empty, or a task is stored) raises a
    [LifecycleError] and leaves the runner and the world as they were:
    nothing is submitted.  Whenever [issue_query] returns, the runner was
    idle. *)
Theorem issue_query_needs_idle (r : Runner) (w : World)
    (queries : QueryInput ModelInput) (callback : Callback) :
  pool_backed r →
  (Pending r →
   ∃ e, LifecycleError e ∧
     issue_query predict queries callback (r, w) = (Raise e, (r, w))) ∧
  (∀ rw', issue_query predict queries callback (r, w) = (Ok (), rw') → Idle r).
Proof.
  intros Hr. destruct r as [s|s|s|s]; try done; unfold issue_query, on; simpl.
  - split.
    + intros Hp. exists AssertionError. split; [by left|].
      by rewrite pool_issue_query_pending.
    + intros rw' Hrun.
      destruct (ModelRunnerPoolExecutor.issue_query queries callback (s, w))
        as [res sw'] eqn:Hq.
      simpl in Hrun. injection Hrun as -> _.
      by eapply pool_issue_query_ok_inv.
  - split.
    + intros Hp. exists AssertionError. split; [by left|].
      rewrite issue_query_pending; [done|by left].
    + intros rw' Hrun.
      destruct (ModelRunnerMultiProcessingPool.issue_query queries callback (s, w))
        as [res sw'] eqn:Hq.
      simpl in Hrun. injection Hrun as -> _.
      by eapply issue_query_ok_inv.
Qed.

(** C10. For the batch runner with a task stored whose [get()] raises,
    [flush_queries] raises the same exception before it resets anything:
    the task and the callback stay, the runner is still pending, and so it
    stays whatever is called on it afterwards; every later [issue_query]
    fails its first assertion. *)
Theorem batch_failed_flush_stays_pending
    (s : ModelRunnerMultiProcessingPool.Self ModelInput) (w : World)
    (t : ModelRunnerMultiProcessingPool.MapResult ModelInput) (e : exn) :
  ModelRunnerMultiProcessingPool.task s = Some t →
  ModelRunnerMultiProcessingPool.MapResult_get predict t = Raise e →
  ModelRunnerMultiProcessingPool.flush_queries predict (s, w) = (Raise e, (s, w)) ∧
  Pending (RBatch s : Runner) ∧
  ∀ (ops : list Op) queries callback,
    let rw := foldl (do_op predict) (RBatch s, w) ops in
    rw = (RBatch s, w) ∧
    issue_query predict queries callback rw = (Raise AssertionError, rw).
Proof.
  intros Ht Hget.
  assert (Hflush := flush_queries_raise predict s w t e Ht Hget).
  split; [done|]. split; [simpl; by rewrite Ht|].
  assert (Hissue : ∀ queries callback,
    issue_query predict queries callback (RBatch s, w)
    = (Raise AssertionError, (RBatch s, w))).
  { intros queries callback. unfold issue_query, on. simpl.
    rewrite issue_query_pending; [done|]. left. by rewrite Ht. }
  intros ops queries callback.
  assert (Hops : foldl (do_op predict) (RBatch s, w) ops = (RBatch s, w)).
  { induction ops as [|op ops IH] using rev_ind; [done|].
    rewrite foldl_app, IH. cbn [foldl]. destruct op as [qs cb| |t0]; cbn [do_op].
    - by rewrite Hissue.
    - unfold flush_queries, on. simpl. by rewrite Hflush.
    - done. }
  simpl. rewrite Hops. split; [done|]. apply Hissue.
Qed.
End LifecycleProofs.

(** ** A prediction that fails *)
Section FailureProofs.
Context {ModelInput QueryResult : Type}.
Context (predict : ModelInput → option QueryResult).
#[local] Abbreviation World := (World ModelInput QueryResult).

(** When [issue_query] of a pool executor runner returns, it has issued the
    batch. *)
Lemma pool_issue_query_ok_issued
    (s : ModelRunnerPoolExecutor.Self ModelInput QueryResult) (w : World) ex
    (queries : QueryInput ModelInput) (callback : Callback) sw1 :
  ModelRunnerPoolExecutor.executor s = Some ex →
  ModelRunnerPoolExecutor.issue_query queries callback (s, w) = (Ok (), sw1) →
  ∃ fn, predictor_of s = Some fn ∧ ModelRunnerPoolExecutor.futures s = ∅ ∧
    sw1 = (issued s ex fn queries callback, w).
Proof.
  intros Hex Hrun.
  assert (Hf := pool_issue_query_ok_inv s w queries callback sw1 Hrun).
  destruct (predictor_of s) as [fn|] eqn:Hfn.
  - rewrite (pool_issue_query_idle s w ex fn) in Hrun by done.
    exists fn. split; [done|]. split; [done|]. congruence.
  - exfalso. revert Hrun. unfold ModelRunnerPoolExecutor.issue_query.
    rewrite bind_unfold. unfold self at 1. simpl.
    rewrite bool_decide_eq_true_2 by done. simpl.
    rewrite bind_unfold. unfold mret, M_ret. cbn beta iota.
    rewrite bind_unfold. unfold update at 1. cbn beta iota. simpl fst. simpl snd.
    rewrite bind_unfold, get_predictor_spec.
    change (predictor_of (ModelRunnerPoolExecutor.set_callback_fn (Some callback) s))
      with (predictor_of s).
    by rewrite Hfn.
Qed.
End FailureProofs.

(** ** Who builds the models *)
Section CreationProofs.
Context {ModelInput QueryResult : Type}.
Context (predict : ModelInput → option QueryResult).
#[local] Abbreviation World := (World ModelInput QueryResult).
#[local] Abbreviation Runner := (Runner ModelInput QueryResult).
#[local] Abbreviation Op := (Op ModelInput).

Lemma lifetime_tls (n : nat) (ops : list Op) :
  ∃ s, (lifetime predict ThreadLocalPoolRunner n ops).1 = RPool s ∧
    ModelRunnerPoolExecutor.max_concurrency s = n ∧
    tls_inv s (lifetime predict ThreadLocalPoolRunner n ops).2.
Proof.
  assert (Hinv := lifetime_inv predict ThreadLocalPoolRunner n ops).
  assert (Hk := lifetime_strategy predict ThreadLocalPoolRunner n ops).
  destruct (lifetime predict ThreadLocalPoolRunner n ops) as [r w].
  unfold runner_inv in Hinv. simpl in *.
  destruct r as [s|s|s|s]; try done. exists s.
  destruct Hinv as (_ & _ & Hn & Hinv).
  revert Hk Hinv. unfold strategy_of.
  by destruct (ModelRunnerPoolExecutor.kind s).
Qed.

Lemma lifetime_shared (k : Strategy) (n : nat) (ops : list Op) :
  k = ThreadPoolRunner ∨ k = ProcessPoolRunner →
  ∃ s, (lifetime predict k n ops).1 = RPool s ∧
    shared_inv s (lifetime predict k n ops).2.
Proof.
  intros Hk0.
  assert (Hinv := lifetime_inv predict k n ops).
  assert (Hk := lifetime_strategy predict k n ops).
  destruct (lifetime predict k n ops) as [r w].
  unfold runner_inv in Hinv. simpl in *.
  destruct r as [s|s|s|s]; simpl in Hk;
    try (destruct Hk0; congruence). exists s.
  destruct Hinv as (_ & _ & Hn & Hinv).
  revert Hk Hinv. unfold strategy_of.
  destruct (ModelRunnerPoolExecutor.kind s); try done.
  intros <-. destruct Hk0; congruence.
Qed.

Lemma created_by_cases (ex : ModelRunnerPoolExecutor.Executor ModelInput QueryResult)
    (t : nat) :
  created_by ex t = (if bool_decide (created_by ex t = 1%nat) then 1 else 0)%nat.
Proof.
  unfold created_by.
  destruct (ModelRunnerPoolExecutor.workers ex !! t) as [wk|]; [|done].
  by destruct (initialised (ModelRunnerPoolExecutor.status wk)).
Qed.

Lemma times_created_nil (u : ExecUnit) (l : list (Event ModelInput QueryResult)) :
  creations l = [] → times_created u l = 0%nat.
Proof. unfold times_created. by intros ->. Qed.

Lemma tls_times_created (s : ModelRunnerPoolExecutor.Self ModelInput QueryResult)
    (w : World) (t : nat) :
  tls_inv s w →
  times_created (WorkerThread t) (log w) =
    (if thread_initialised (RPool s) t then 1 else 0)%nat.
Proof.
  intros Hinv. simpl.
  destruct (ModelRunnerPoolExecutor.executor s) as [ex|] eqn:Hex.
  - rewrite (tls_count _ _ Hinv ex t Hex). apply created_by_cases.
  - apply times_created_nil. by apply (tls_unacquired _ _ Hinv).
Qed.

(** Every actor of a list without repetition occurs once among the units
    that built the models of the list. *)
Lemma times_created_actors (l : list (Event ModelInput QueryResult))
    (instances : list ModelRunnerRay.RayModel) (a : ModelRunnerRay.RayModel) :
  creations l =
    (λ a, (RemoteActor (ModelRunnerRay.actor a), ModelRunnerRay.model a))
      <$> instances →
  NoDup (ModelRunnerRay.actor <$> instances) →
  a ∈ instances →
  times_created (RemoteActor (ModelRunnerRay.actor a)) l = 1%nat.
Proof.
  unfold times_created. intros -> Hnd Hin. clear l.
  induction instances as [|b bs IH]; [by apply elem_of_nil in Hin|].
  rewrite fmap_cons in Hnd. apply NoDup_cons in Hnd as [Hb Hnd].
  rewrite fmap_cons, filter_cons. simpl.
  destruct (decide (RemoteActor (ModelRunnerRay.actor b)
                    = RemoteActor (ModelRunnerRay.actor a))) as [Heq|Hne].
  - injection Heq as Heq. simpl. f_equal.
    match goal with |- length ?l = _ => destruct l as [|um ums] eqn:Hflt end;
      [done|].
    assert (Hum : um ∈ um :: ums) by left. rewrite <- Hflt in Hum.
    apply list_elem_of_filter in Hum as [Hca Hum].
    apply list_elem_of_fmap in Hum as (c & -> & Hc). simpl in Hca.
    injection Hca as Hca. destruct Hb. rewrite Heq, <- Hca.
    apply list_elem_of_fmap. by exists c.
  - apply elem_of_cons in Hin as [->|Hin]; [done|]. by apply IH.
Qed.

(** C6, as the code has it.  Whatever happens to a thread-local pool runner
    built with [max_concurrency = n]: a worker thread has built one model if
    it has run the initializer to its end and none otherwise, nothing else
    builds a model, so there are as many models as initialised threads, at
    most as many as threads started, which are at most [n]; and every
    prediction runs on a worker thread with a model that this thread
    built. *)
Theorem tls_one_model_per_initialised_thread (n : nat) (ops : list Op) :
  let rw := lifetime predict ThreadLocalPoolRunner n ops in
  (∀ t, times_created (WorkerThread t) (log rw.2) =
          (if thread_initialised rw.1 t then 1 else 0)%nat) ∧
  (∀ u m, (u, m) ∈ creations (log rw.2) → ∃ t, u = WorkerThread t) ∧
  length (creations (log rw.2)) = initialised_count rw.1 ∧
  (initialised_count rw.1 ≤ length (worker_units rw.1))%nat ∧
  (length (worker_units rw.1) ≤ n)%nat ∧
  (∀ u m x, (u, m, x) ∈ predictions (log rw.2) →
     ∃ t, u = WorkerThread t ∧ (u, m) ∈ creations (log rw.2)).
Proof.
  destruct (lifetime_tls n ops) as (s & Hs & Hn & Hinv).
  destruct (lifetime predict ThreadLocalPoolRunner n ops) as [r w].
  simpl in Hs, Hinv. subst r. cbn [fst snd].
  split; [intros t; by apply tls_times_created|].
  split; [apply (tls_creators _ _ Hinv)|].
  assert (Hp := tls_predictions _ _ Hinv). simpl.
  destruct (ModelRunnerPoolExecutor.executor s) as [ex|] eqn:Hex.
  - destruct (tls_executor _ _ Hinv ex Hex) as (_ & Hmax & Hlen).
    split; [by apply (tls_total _ _ Hinv)|].
    rewrite length_fmap, length_seq.
    split; [apply built_le|]. split; [lia|done].
  - rewrite (tls_unacquired _ _ Hinv Hex) in Hp |- *. simpl.
    split; [done|]. split; [lia|]. split; [lia|done].
Qed.

(** C7, as the code has it.  Whatever happens to a runner: the inline
    runner, the thread pool runner, the process pool runner and the batch
    runner call [create()] once in all, on the main thread in [__init__],
    and every worker process sees that one model as the class attribute;
    the thread-local runner calls it on worker threads only, once on a
    thread that has run the initializer and never on another; the actor
    runner calls it on its actors only, once on each. *)
Theorem create_calls_by_strategy (k : Strategy) (n : nat) (ops : list Op) :
  let rw := lifetime predict k n ops in
  strategy_of rw.1 = k ∧
  match k with
  | InlineRunner | ThreadPoolRunner =>
      creations (log rw.2) = [(MainThread, 0%nat)]
  | ProcessPoolRunner | BatchPoolRunner =>
      creations (log rw.2) = [(MainThread, 0%nat)] ∧
      Forall (λ g, g = Some 0%nat) (process_models rw.1)
  | ThreadLocalPoolRunner =>
      (∀ u m, (u, m) ∈ creations (log rw.2) → ∃ t, u = WorkerThread t) ∧
      (∀ t, times_created (WorkerThread t) (log rw.2) =
              (if thread_initialised rw.1 t then 1 else 0)%nat)
  | DistributedActorPoolRunner =>
      (∀ u m, (u, m) ∈ creations (log rw.2) → u ∈ worker_units rw.1) ∧
      once_per_worker_unit rw
  end.
Proof.
  split; [apply lifetime_strategy|].
  assert (Hinv := lifetime_inv predict k n ops).
  assert (Hk := lifetime_strategy predict k n ops).
  destruct k.
  - destruct (lifetime predict InlineRunner n ops) as [r w].
    unfold runner_inv in Hinv. simpl in *.
    destruct r as [s|s|s|s]; try done.
    revert Hk. unfold strategy_of. by destruct (ModelRunnerPoolExecutor.kind s).
  - destruct (lifetime_shared ThreadPoolRunner n ops) as (s & Hs & Hsh);
      [by left|].
    apply (shared_creations _ _ Hsh).
  - destruct (lifetime_tls n ops) as (s & Hs & Hn & Htls).
    split; [apply (tls_creators _ _ Htls)|].
    intros t. rewrite Hs. by apply tls_times_created.
  - destruct (lifetime_shared ProcessPoolRunner n ops) as (s & Hs & Hsh);
      [by right|].
    split; [apply (shared_creations _ _ Hsh)|].
    rewrite Hs in Hk |- *. simpl in Hk |- *.
    destruct (ModelRunnerPoolExecutor.executor s) as [ex|] eqn:Hex; [|done].
    apply Forall_forall. intros g Hg.
    apply list_elem_of_fmap in Hg as (wk & -> & Hwk).
    rewrite (shared_globals _ _ Hsh ex wk Hex Hwk).
    assert (Hm := shared_model _ _ Hsh). revert Hk Hm.
    by destruct (ModelRunnerPoolExecutor.kind s).
  - destruct (lifetime predict BatchPoolRunner n ops) as [r w].
    unfold runner_inv in Hinv. simpl in *. destruct r as [s|s|s|s]; try done.
    { revert Hk. unfold strategy_of. by destruct (ModelRunnerPoolExecutor.kind s). }
    destruct Hinv as (Hc & Hm & Hp). split; [done|]. simpl.
    destruct (ModelRunnerMultiProcessingPool.pool s) as [p|]; [|done].
    rewrite (Hp p eq_refl). apply Forall_forall.
    intros g Hg. by apply elem_of_replicate in Hg as [-> _].
  - destruct (lifetime predict DistributedActorPoolRunner n ops) as [r w].
    unfold runner_inv, once_per_worker_unit in *. simpl in *.
    destruct r as [s|s|s|s]; try done.
    { revert Hk. unfold strategy_of. by destruct (ModelRunnerPoolExecutor.kind s). }
    simpl. destruct Hinv as [Hc Hnd]. split.
    + intros u m Hum. rewrite Hc in Hum.
      apply list_elem_of_fmap in Hum as (a & [= -> ->] & Ha).
      apply list_elem_of_fmap. by exists a.
    + intros u Hu. apply list_elem_of_fmap in Hu as (a & -> & Ha).
      by apply (times_created_actors _ (ModelRunnerRay.instances s)).
Qed.
End CreationProofs.

(** * The claims on concrete runs

    An echo model over strings, callback number 7. *)

(** C1. The thread-local pool runner with two workers and the batch
    [{1: "a", 2: "b"}], when the first worker runs its initializer to the
    end before the second one starts its own, and both then take a query:
    the first worker looks for its model in the [threading.local] that the
    second one has put in the class attribute since, finds none, and the
    [AttributeError] ends in the log of the executor.  The batch has
    drained, query 2 was delivered, query 1 never is, although its
    prediction exists. *)
Theorem tls_runner_loses_a_query :
  let batch : QueryInput string := [(1, "a"); (2, "b")]%string in
  let rw := lifetime echo ThreadLocalPoolRunner 2
              (OpIssue batch 7%nat :: (OpWorker <$> [0; 0; 1; 1; 0; 0; 1; 1]%nat)) in
  Idle rw.1 ∧
  callbacks (log rw.2) = [(7%nat, {[ 2 := "b"%string ]})] ∧
  logged (log rw.2) = [AttributeError] ∧
  owed echo 7%nat batch
    = [(7%nat, {[ 1 := "a"%string ]}); (7%nat, {[ 2 := "b"%string ]})].
Proof. vm_compute. by repeat split. Qed.

(** C6 as worded fails: with [max_concurrency = 2] and one batch of one
    query, which is delivered, one worker thread was started and one model
    built over the whole lifetime. *)
Lemma tls_one_query_one_model :
  let rw := lifetime echo ThreadLocalPoolRunner 2
              (OpIssue [(1, "a"%string)] 7%nat :: (OpWorker <$> [0; 0; 0; 0; 0]%nat)) in
  Idle rw.1 ∧
  callbacks (log rw.2) = [(7%nat, {[ 1 := "a"%string ]})] ∧
  creations (log rw.2) = [(WorkerThread 0, 0%nat)] ∧
  ¬ exactly_max_concurrency_models 2 rw.
Proof. vm_compute. repeat split; [done..|lia]. Qed.

(** C7 as worded fails: the process pool runner with two worker processes,
    each of which has served a query, has called [create()] once, on the
    main thread, and on no worker process. *)
Lemma process_pool_creates_on_main_thread :
  let rw := lifetime echo ProcessPoolRunner 2
              (OpIssue [(1, "a"); (2, "b")]%string 7%nat
                 :: (OpWorker <$> [0; 1; 0; 1]%nat)) in
  Idle rw.1 ∧
  worker_units rw.1 = [WorkerProcess 0; WorkerProcess 1] ∧
  creations (log rw.2) = [(MainThread, 0%nat)] ∧
  ¬ once_per_worker_unit rw.
Proof.
  split; [by vm_compute|]. split; [by vm_compute|]. split; [by vm_compute|].
  intros H. specialize (H (WorkerProcess 0)).
  assert (Hin : WorkerProcess 0 ∈ [WorkerProcess 0; WorkerProcess 1]) by left.
  specialize (H Hin). vm_compute in H. discriminate.
Qed.

(** ** The theorems at the example inputs *)

Lemma inline_issue_query_in_order_witness :
  Forall2 (λ qx r, echo qx.2 = Some r) abc ["a"; "b"; "c"]%string ∧
  ModelRunnerInline.issue_query echo abc 7%nat inline_runner =
    (Ok (),
     (inline_runner.1,
      {| log := log inline_runner.2 ++
           (zip abc ["a"; "b"; "c"]%string ≫= λ qxr,
              [EPredict MainThread (ModelRunnerInline.model inline_runner.1) qxr.1.2;
               ECallback 7%nat {[ qxr.1.1 := qxr.2 ]}]);
         next_model := next_model inline_runner.2 |})).
Proof.
  assert (H : Forall2 (λ qx r, echo qx.2 = Some r) abc ["a"; "b"; "c"]%string)
    by (repeat constructor).
  split; [exact H|].
  exact (inline_issue_query_in_order echo inline_runner.1 inline_runner.2
           abc ["a"; "b"; "c"]%string 7%nat H).
Defined.

Lemma issue_query_needs_idle_witness :
  let rw := lifetime echo ThreadPoolRunner 2 [OpIssue abc 7%nat] in
  pool_backed rw.1 ∧
  (Pending rw.1 →
   ∃ e, LifecycleError e ∧
     issue_query echo abc 8%nat (rw.1, rw.2) = (Raise e, (rw.1, rw.2))) ∧
  (∀ rw', issue_query echo abc 8%nat (rw.1, rw.2) = (Ok (), rw') → Idle rw.1).
Proof.
  intros rw.
  assert (H : pool_backed rw.1) by (vm_compute; exact I).
  split; [exact H|].
  exact (issue_query_needs_idle echo rw.1 rw.2 abc 8%nat H).
Defined.

Lemma batch_flush_idle_witness :
  ModelRunnerMultiProcessingPool.task (entered_batch 2).1 = None ∧
  ∃ e, LifecycleError e ∧
    ModelRunnerMultiProcessingPool.flush_queries echo
      ((entered_batch 2).1, (entered_batch 2).2)
    = (Raise e, ((entered_batch 2).1, (entered_batch 2).2)).
Proof.
  assert (H : ModelRunnerMultiProcessingPool.task (entered_batch 2).1 = None)
    by reflexivity.
  split; [exact H|].
  exact (batch_flush_idle echo (entered_batch 2).1 (entered_batch 2).2 H).
Defined.

Lemma batch_issue_then_flush_witness :
  let s := (entered_batch 2).1 in
  let w := (entered_batch 2).2 in
  let p := {| ModelRunnerMultiProcessingPool.processes := 2;
              ModelRunnerMultiProcessingPool.globals := Some 0%nat |} in
  wf_queries abc ∧
  Forall2 (λ qx r, echo qx.2 = Some r) abc ["a"; "b"; "c"]%string ∧
  ∃ s1 s2 d,
    ModelRunnerMultiProcessingPool.issue_query abc 7%nat (s, w) = (Ok (), (s1, w)) ∧
    ModelRunnerMultiProcessingPool.task s1 =
      Some {| ModelRunnerMultiProcessingPool.mr_pool := p;
              ModelRunnerMultiProcessingPool.mr_inputs := abc |} ∧
    ModelRunnerMultiProcessingPool.callback_fn s1 = Some 7%nat ∧
    ModelRunnerMultiProcessingPool.flush_queries echo (s1, w) =
      (Ok (), (s2, record (ECallback 7%nat d) w)) ∧
    dom d = list_to_set abc.*1 ∧
    (∀ q x, (q, x) ∈ abc → d !! q = echo x) ∧
    ModelRunnerMultiProcessingPool.task s2 = None ∧
    ModelRunnerMultiProcessingPool.callback_fn s2 = None ∧ s2 = s.
Proof.
  intros s w p.
  assert (Hwf : wf_queries abc).
  { unfold wf_queries. apply (bool_decide_unpack _). vm_compute. exact I. }
  assert (Hres : Forall2 (λ qx r, echo qx.2 = Some r) abc ["a"; "b"; "c"]%string)
    by (repeat constructor).
  split; [exact Hwf|]. split; [exact Hres|].
  exact (batch_issue_then_flush echo s w p 0%nat abc ["a"; "b"; "c"]%string 7%nat
           eq_refl eq_refl eq_refl eq_refl Hwf Hres).
Defined.

Lemma ray_issue_query_blocks_witness :
  let s := (entered_ray 2).1 in
  let w := (entered_ray 2).2 in
  ray_ready s ∧
  (predictable echo abc →
   ∃ s' w', ModelRunnerRay.issue_query echo abc 7%nat (s, w) = (Ok (), (s', w'))) ∧
  (∀ s' w',
     ModelRunnerRay.issue_query echo abc 7%nat (s, w) = (Ok (), (s', w')) →
     ∃ results,
       Forall2 (λ qx r, echo qx.2 = Some r) abc results ∧
       callbacks (log w') =
         callbacks (log w) ++
         zip_with (λ qx r, (7%nat, {[ qx.1 := r ]})) abc results ∧
       ray_ready s').
Proof.
  intros s w.
  assert (Hready : ray_ready s).
  { eexists. split; [reflexivity|]. split; [|reflexivity].
    split; [left; discriminate|]. intros H. exfalso. by apply H. }
  split; [exact Hready|].
  exact (ray_issue_query_blocks echo s w abc 7%nat Hready).
Defined.

Lemma batch_failed_flush_stays_pending_witness :
  let s := (ModelRunnerMultiProcessingPool.issue_query abc 7%nat
              ((entered_batch 2).1, (entered_batch 2).2)).2.1 in
  let w := (entered_batch 2).2 in
  let t := {| ModelRunnerMultiProcessingPool.mr_pool :=
                {| ModelRunnerMultiProcessingPool.processes := 2;
                   ModelRunnerMultiProcessingPool.globals := Some 0%nat |};
              ModelRunnerMultiProcessingPool.mr_inputs := abc |} in
  ModelRunnerMultiProcessingPool.task s = Some t ∧
  ModelRunnerMultiProcessingPool.MapResult_get (echo_but "b") t
    = Raise PredictionError ∧
  ModelRunnerMultiProcessingPool.flush_queries (echo_but "b") (s, w)
    = (Raise PredictionError, (s, w)) ∧
  Pending (RBatch s : Runner string string) ∧
  ∀ (ops : list (Op string)) queries callback,
    let rw := foldl (do_op (echo_but "b")) (RBatch s, w) ops in
    rw = (RBatch s, w) ∧
    issue_query (echo_but "b") queries callback rw = (Raise AssertionError, rw).
Proof.
  intros s w t.
  assert (Ht : ModelRunnerMultiProcessingPool.task s = Some t) by reflexivity.
  assert (Hget : ModelRunnerMultiProcessingPool.MapResult_get (echo_but "b") t
                 = Raise PredictionError) by (vm_compute; reflexivity).
  split; [exact Ht|]. split; [exact Hget|].
  exact (batch_failed_flush_stays_pending (echo_but "b") s w t PredictionError
           Ht Hget).
Defined.

(** * Further properties of the runners *)

(** ** The inline runner when a prediction fails *)
Section InlineFailureProofs.
Context {ModelInput QueryResult : Type}.
Context (predict : ModelInput → option QueryResult).
#[local] Abbreviation World := (World ModelInput QueryResult).

Lemma callbacks_handled_inline u m callback (queries : QueryInput ModelInput) :
  callbacks (queries ≫= handled_inline predict u m callback)
  = owed predict callback queries.
Proof.
  induction queries as [|[q x] queries IH]; [done|].
  rewrite bind_cons, callbacks_app, IH. unfold owed at 2.
  rewrite omap_cons_unfold. unfold handled_inline. simpl.
  by destruct (predict x).
Qed.

Lemma predictions_handled_inline u m callback (queries : QueryInput ModelInput) :
  predictions (queries ≫= handled_inline predict u m callback)
  = (λ qx, (u, m, qx.2)) <$> queries.
Proof.
  induction queries as [|[q x] queries IH]; [done|].
  rewrite bind_cons, predictions_app, IH, fmap_cons. unfold handled_inline. simpl.
  by destruct (predict x).
Qed.

Lemma creations_handled_inline u m callback (queries : QueryInput ModelInput) :
  creations (queries ≫= handled_inline predict u m callback) = [].
Proof.
  induction queries as [|[q x] queries IH]; [done|].
  rewrite bind_cons, creations_app, IH. unfold handled_inline. simpl.
  by destruct (predict x).
Qed.

(** X1. When the prediction of one query of a batch fails on the inline
    runner, [issue_query] raises at that query: the queries before it have
    been predicted and delivered in order, the failing one has been
    predicted, and the queries after it are neither predicted nor
    delivered. *)
Theorem inline_failure_aborts_batch (s : ModelRunnerInline.Self) (w : World)
    (before after : QueryInput ModelInput) (q : QueryId) (x : ModelInput)
    (callback : Callback) :
  predictable predict before →
  predict x = None →
  ∃ w',
    ModelRunnerInline.issue_query predict (before ++ (q, x) :: after) callback (s, w)
      = (Raise PredictionError, (s, w')) ∧
    callbacks (log w') = callbacks (log w) ++ owed predict callback before ∧
    predictions (log w') =
      predictions (log w) ++
      ((λ qx, (MainThread, ModelRunnerInline.model s, qx.2))
         <$> before ++ [(q, x)]) ∧
    creations (log w') = creations (log w).
Proof.
  intros Hbefore Hx. eexists. split.
  { by apply inline_issue_query_raise. }
  simpl. rewrite !callbacks_app, !predictions_app, !creations_app.
  rewrite callbacks_handled_inline, predictions_handled_inline, fmap_app.
  rewrite creations_handled_inline.
  simpl. rewrite !app_nil_r. split; [done|]. by rewrite app_assoc.
Qed.
End InlineFailureProofs.

Lemma inline_failure_aborts_batch_witness :
  predictable (echo_but "b") [(1, "a"%string)] ∧
  echo_but "b" "b" = None ∧
  ∃ w',
    ModelRunnerInline.issue_query (echo_but "b")
      ([(1, "a"%string)] ++ (2, "b"%string) :: [(3, "c"%string)]) 7%nat
      (inline_runner.1, inline_runner.2)
      = (Raise PredictionError, (inline_runner.1, w')) ∧
    callbacks (log w') =
      callbacks (log inline_runner.2)
      ++ owed (echo_but "b") 7%nat [(1, "a"%string)] ∧
    predictions (log w') =
      predictions (log inline_runner.2) ++
      ((λ qx, (MainThread, ModelRunnerInline.model inline_runner.1, qx.2))
         <$> [(1, "a"%string)] ++ [(2, "b"%string)]) ∧
    creations (log w') = creations (log inline_runner.2).
Proof.
  assert (H1 : predictable (echo_but "b") [(1, "a"%string)]).
  { repeat constructor. by eexists. }
  assert (H2 : echo_but "b" "b" = None) by reflexivity.
  split; [exact H1|]. split; [exact H2|].
  exact (inline_failure_aborts_batch (echo_but "b") inline_runner.1 inline_runner.2
           [(1, "a"%string)] [(3, "c"%string)] 2 "b"%string 7%nat H1 H2).
Defined.

(** ** [issue_query] on a runner that was not entered *)
Section EarlyIssueProofs.
Context {ModelInput QueryResult : Type}.
Context (predict : ModelInput → option QueryResult).
#[local] Abbreviation World := (World ModelInput QueryResult).
#[local] Abbreviation Runner := (Runner ModelInput QueryResult).
#[local] Abbreviation Op := (Op ModelInput).

(** The batch runner with a callback stored and no task: nothing moves it. *)
Lemma batch_stuck_op (s : ModelRunnerMultiProcessingPool.Self ModelInput)
    (w : World) (op : Op) :
  ModelRunnerMultiProcessingPool.task s = None →
  ModelRunnerMultiProcessingPool.callback_fn s ≠ None →
  do_op predict (RBatch s, w) op = (RBatch s, w).
Proof.
  intros Ht Hc. destruct op as [queries callback| |t]; cbn [do_op].
  - unfold issue_query, on. simpl.
    rewrite issue_query_pending; [done|by right].
  - unfold flush_queries, on. simpl.
    unfold ModelRunnerMultiProcessingPool.flush_queries, mbind, M_bind, self.
    simpl. by rewrite Ht.
  - done.
Qed.

Lemma batch_stuck_ops (s : ModelRunnerMultiProcessingPool.Self ModelInput)
    (w : World) (ops : list Op) :
  ModelRunnerMultiProcessingPool.task s = None →
  ModelRunnerMultiProcessingPool.callback_fn s ≠ None →
  foldl (do_op predict) (RBatch s, w) ops = (RBatch s, w).
Proof.
  intros Ht Hc. induction ops as [|op ops IH] using rev_ind; [done|].
  rewrite foldl_app, IH. cbn [foldl]. by apply batch_stuck_op.
Qed.

(** X2. [issue_query] on a batch runner that was built but not entered
    raises [AttributeError] (there is no [self.pool] yet) after it has stored
    the callback.  From then on the runner is of no use: whatever is called
    on it, before or after it is entered, the world stays as it was, so no
    callback is ever invoked, and every [issue_query] fails its second
    assertion. *)
Theorem batch_issue_before_enter_poisons
    (s : ModelRunnerMultiProcessingPool.Self ModelInput) (w : World)
    (queries : QueryInput ModelInput) (callback : Callback) :
  ModelRunnerMultiProcessingPool.pool s = None →
  ModelRunnerMultiProcessingPool.task s = None →
  ModelRunnerMultiProcessingPool.callback_fn s = None →
  ∃ s1,
    ModelRunnerMultiProcessingPool.issue_query queries callback (s, w)
      = (Raise AttributeError, (s1, w)) ∧
    ∀ (ops1 ops2 : list Op) queries' callback',
      let rw := foldl (do_op predict)
                  (acquire (foldl (do_op predict) (RBatch s1, w) ops1)).2 ops2 in
      rw.2 = w ∧
      issue_query predict queries' callback' rw = (Raise AssertionError, rw).
Proof.
  intros Hp Ht Hc. eexists. split; [by apply issue_query_no_pool|].
  intros ops1 ops2 queries' callback'.
  rewrite batch_stuck_ops by done.
  unfold acquire, on. cbn [fst snd].
  match goal with |- context [ModelRunnerMultiProcessingPool.__enter__ ?sw] =>
    assert (He : ∃ s2, (ModelRunnerMultiProcessingPool.__enter__ sw).2 = (s2, w) ∧
              ModelRunnerMultiProcessingPool.task s2 = None ∧
              ModelRunnerMultiProcessingPool.callback_fn s2 ≠ None)
  end.
  { unfold ModelRunnerMultiProcessingPool.__enter__, mbind, M_bind, self. simpl.
    destruct (decide _); simpl; eexists; (split; [done|]); by simpl. }
  destruct He as (s2 & He & Ht2 & Hc2). rewrite He. cbn [fst snd].
  rewrite batch_stuck_ops by done. cbn zeta. split; [done|].
  unfold issue_query, on. simpl.
  rewrite issue_query_pending; [done|by right].
Qed.

(** [issue_query] on a pool executor runner without executor. *)
Lemma pool_issue_query_no_executor
    (s : ModelRunnerPoolExecutor.Self ModelInput QueryResult) (w : World) fn
    (queries : QueryInput ModelInput) (callback : Callback) :
  ModelRunnerPoolExecutor.futures s = ∅ →
  ModelRunnerPoolExecutor.executor s = None →
  predictor_of s = Some fn →
  ModelRunnerPoolExecutor.issue_query queries callback (s, w) =
    (match queries with [] => Ok () | _ => Raise AttributeError end,
     (ModelRunnerPoolExecutor.set_callback_fn (Some callback) s, w)).
Proof.
  intros Hf Hex Hfn. unfold ModelRunnerPoolExecutor.issue_query.
  rewrite bind_unfold. unfold self at 1. simpl.
  rewrite bool_decide_eq_true_2 by done. simpl.
  rewrite bind_unfold. unfold mret, M_ret. cbn beta iota.
  rewrite bind_unfold. unfold update at 1. cbn beta iota. simpl fst. simpl snd.
  rewrite bind_unfold, get_predictor_spec.
  change (predictor_of (ModelRunnerPoolExecutor.set_callback_fn (Some callback) s))
    with (predictor_of s).
  rewrite Hfn. destruct queries as [|[q x] queries]; [done|].
  simpl. rewrite bind_unfold. unfold ModelRunnerPoolExecutor.executor_submit at 1.
  rewrite 2!bind_unfold. unfold self at 1. simpl. by rewrite Hex.
Qed.

(** X3. [issue_query] on a pool executor runner of any kind that was built
    but not entered stores the callback and then returns, for an empty
    batch, or raises [AttributeError] at the first [submit], for any other
    batch; nothing is submitted and the table of futures stays empty.  The
    call leaves no trace: once the runner is entered, a batch issued on it
    gives the very state it would have given without the early call. *)
Theorem pool_issue_before_enter_harmless (k : ModelRunnerPoolExecutor.Kind)
    (n : nat) (w : World) (queries : QueryInput ModelInput) (callback : Callback) :
  (0 < n)%nat →
  let sw := ModelRunnerPoolExecutor.__init__ (QueryResult := QueryResult)
              k Factory n w in
  let early := ModelRunnerPoolExecutor.issue_query queries callback sw in
  early.1 = match queries with [] => Ok () | _ => Raise AttributeError end ∧
  early.2.2 = sw.2 ∧
  ModelRunnerPoolExecutor.futures early.2.1 = ∅ ∧
  ModelRunnerPoolExecutor.executor early.2.1 = None ∧
  ∀ queries' callback',
    ModelRunnerPoolExecutor.issue_query queries' callback'
      (ModelRunnerPoolExecutor.__enter__ early.2).2
    = ModelRunnerPoolExecutor.issue_query queries' callback'
        (ModelRunnerPoolExecutor.__enter__ sw).2.
Proof.
  intros Hn sw early.
  assert (Hfn : ∃ fn, predictor_of sw.1 = Some fn).
  { subst sw. destruct k; by eexists. }
  destruct Hfn as [fn Hfn].
  assert (Hearly : early =
    (match queries with [] => Ok () | _ => Raise AttributeError end,
     (ModelRunnerPoolExecutor.set_callback_fn (Some callback) sw.1, sw.2))).
  { subst early. destruct sw as [s0 w0] eqn:Hsw. simpl in *.
    apply (pool_issue_query_no_executor s0 w0 fn); [| |done];
      subst sw; destruct k; by injection Hsw as <- <-. }
  rewrite Hearly. cbn [fst snd]. split; [done|]. split; [done|].
  split; [subst sw; by destruct k|]. split; [subst sw; by destruct k|].
  intros queries' callback'.
  destruct (entered_ok k n w Hn) as (s1 & Hent & Hf1 & Hex1 & Hk1 & _ & _ & [fn1 Hfn1] & _).
  fold sw in Hent. rewrite Hent. cbn [snd].
  rewrite (pool_issue_query_idle s1 sw.2 _ fn1 queries' callback' Hf1 Hex1 Hfn1).
  assert (Hent' : ModelRunnerPoolExecutor.__enter__
            (ModelRunnerPoolExecutor.set_callback_fn (Some callback) sw.1, sw.2)
          = (Ok (), (ModelRunnerPoolExecutor.set_callback_fn (Some callback) s1, sw.2))).
  { revert Hent. unfold ModelRunnerPoolExecutor.__enter__.
    rewrite !bind_unfold. unfold self. cbn [fst snd].
    change (ModelRunnerPoolExecutor.max_concurrency
              (ModelRunnerPoolExecutor.set_callback_fn (Some callback) sw.1))
      with (ModelRunnerPoolExecutor.max_concurrency sw.1).
    destruct sw as [s0 w0]. cbn [fst snd].
    destruct (decide (ModelRunnerPoolExecutor.max_concurrency s0 = 0%nat));
      [done|].
    unfold update. cbn [fst snd]. by intros [= <-]. }
  rewrite Hent'. cbn [snd].
  rewrite (pool_issue_query_idle _ sw.2
             (ModelRunnerPoolExecutor.new_executor n
                match k with
                | ModelRunnerPoolExecutor.ThreadPoolExecutorWithTLS => true
                | _ => false
                end) fn1 queries' callback'); [done|done|done|done].
Qed.
End EarlyIssueProofs.

Lemma batch_issue_before_enter_poisons_witness :
  let s := (ModelRunnerMultiProcessingPool.__init__
              (ModelInput := string) (QueryResult := string)
              Factory 2 new_world).1 in
  let w := (ModelRunnerMultiProcessingPool.__init__
              (ModelInput := string) (QueryResult := string)
              Factory 2 new_world).2 in
  ∃ s1,
    ModelRunnerMultiProcessingPool.issue_query abc 7%nat (s, w)
      = (Raise AttributeError, (s1, w)) ∧
    ∀ (ops1 ops2 : list (Op string)) queries' callback',
      let rw := foldl (do_op echo)
                  (acquire (foldl (do_op echo) (RBatch s1, w) ops1)).2 ops2 in
      rw.2 = w ∧
      issue_query echo queries' callback' rw = (Raise AssertionError, rw).
Proof.
  intros s w.
  exact (batch_issue_before_enter_poisons echo s w abc 7%nat
           eq_refl eq_refl eq_refl).
Defined.

Lemma pool_issue_before_enter_harmless_witness :
  let sw := ModelRunnerPoolExecutor.__init__ (ModelInput := string)
              (QueryResult := string)
              ModelRunnerPoolExecutor.ProcessPoolExecutor Factory 2 new_world in
  let early := ModelRunnerPoolExecutor.issue_query abc 7%nat sw in
  early.1 = Raise AttributeError ∧
  early.2.2 = sw.2 ∧
  ModelRunnerPoolExecutor.futures early.2.1 = ∅ ∧
  ModelRunnerPoolExecutor.executor early.2.1 = None ∧
  ∀ queries' callback',
    ModelRunnerPoolExecutor.issue_query queries' callback'
      (ModelRunnerPoolExecutor.__enter__ early.2).2
    = ModelRunnerPoolExecutor.issue_query queries' callback'
        (ModelRunnerPoolExecutor.__enter__ sw).2.
Proof.
  assert (Hn : (0 < 2)%nat) by lia.
  exact (pool_issue_before_enter_harmless
           ModelRunnerPoolExecutor.ProcessPoolExecutor 2 new_world abc 7%nat Hn).
Defined.

(** ** The actor pool runner when a prediction fails *)
Section RayFailureProofs.
Context {ModelInput QueryResult : Type}.
Context (predict : ModelInput → option QueryResult).
#[local] Abbreviation World := (World ModelInput QueryResult).

(** A batch has one first query whose prediction fails. *)
Lemma first_failure_unique (before before' after after' : QueryInput ModelInput)
    q x q' x' :
  before ++ (q, x) :: after = before' ++ (q', x') :: after' →
  predictable predict before → predict x = None →
  predictable predict before' → predict x' = None →
  before = before' ∧ after = after'.
Proof.
  revert before'.
  induction before as [|[q0 x0] before IH]; intros [|[q1 x1] before'] Hsplit
    Hpr Hx Hpr' Hx'; simpl in Hsplit.
  - by injection Hsplit as <- <- <-.
  - injection Hsplit as <- <- _.
    apply Forall_cons in Hpr' as [[r' Hr'] _]. simpl in Hr'. congruence.
  - injection Hsplit as -> -> _.
    apply Forall_cons in Hpr as [[r' Hr'] _]. simpl in Hr'. congruence.
  - injection Hsplit as -> -> Hsplit.
    apply Forall_cons in Hpr as [_ Hpr]. apply Forall_cons in Hpr' as [_ Hpr'].
    by destruct (IH before' Hsplit Hpr Hx Hpr' Hx') as [-> ->].
Qed.

(** X4. When the prediction of one query of a batch fails on the actor pool
    runner (entered, nothing left over), [issue_query] raises at that query:
    the callback has been invoked, in order, for the queries before it and
    for no other, and the calls for the queries after it are still held by
    the actor pool. *)
Theorem ray_failure_aborts_batch (s : ModelRunnerRay.Self ModelInput) (w : World)
    (before after : QueryInput ModelInput) (q : QueryId) (x : ModelInput)
    (callback : Callback) :
  ray_ready s → predictable predict before → predict x = None →
  ∃ s' w' p',
    ModelRunnerRay.issue_query predict (before ++ (q, x) :: after) callback (s, w)
      = (Raise PredictionError, (s', w')) ∧
    callbacks (log w') = callbacks (log w) ++ owed predict callback before ∧
    ModelRunnerRay.pool s' = Some p' ∧ outstanding p' = after.
Proof.
  intros (p & Hp & Hok & Hnil) Hpr Hx.
  destruct (ray_issue_query_spec predict s w p (before ++ (q, x) :: after)
              callback Hp Hok)
    as (r & s1 & w1 & p' & Hrun' & Hs1 & _ & _ & _ & Hcase).
  rewrite Hnil in Hcase. simpl in Hcase. exists s1, w1, p'.
  destruct Hcase as [(_ & Hall & _)|
    (-> & before' & q' & x' & after' & Hsplit & Hpr' & Hx' & Hout & Hc)].
  - exfalso. apply Forall_app in Hall as [_ Hall].
    apply Forall_cons in Hall as [[r' Hr'] _]. simpl in Hr'. congruence.
  - destruct (first_failure_unique _ _ _ _ _ _ _ _ Hsplit Hpr Hx Hpr' Hx')
      as [<- <-].
    split; [done|]. split; [done|]. split; [by rewrite Hs1|done].
Qed.
End RayFailureProofs.

Lemma ray_failure_aborts_batch_witness :
  let s := (entered_ray 2).1 in
  let w := (entered_ray 2).2 in
  ∃ s' w' p',
    ModelRunnerRay.issue_query (echo_but "b")
      ([(1, "a"%string)] ++ (2, "b"%string) :: [(3, "c"%string)]) 7%nat (s, w)
      = (Raise PredictionError, (s', w')) ∧
    callbacks (log w') =
      callbacks (log w) ++ owed (echo_but "b") 7%nat [(1, "a"%string)] ∧
    ModelRunnerRay.pool s' = Some p' ∧ outstanding p' = [(3, "c"%string)].
Proof.
  intros s w.
  assert (Hready : ray_ready s).
  { eexists. split; [reflexivity|]. split; [|reflexivity].
    split; [left; discriminate|]. intros H. exfalso. by apply H. }
  assert (H1 : predictable (echo_but "b") [(1, "a"%string)]).
  { repeat constructor. by eexists. }
  exact (ray_failure_aborts_batch (echo_but "b") s w [(1, "a"%string)]
           [(3, "c"%string)] 2 "b"%string 7%nat Hready H1 eq_refl).
Defined.

(** ** The pool executor runners over their lifetime *)
Section PoolLifetimeProofs.
Context {ModelInput QueryResult : Type}.
Context (predict : ModelInput → option QueryResult).
#[local] Abbreviation World := (World ModelInput QueryResult).
#[local] Abbreviation Runner := (Runner ModelInput QueryResult).
#[local] Abbreviation Op := (Op ModelInput).
#[local] Abbreviation PSelf := (ModelRunnerPoolExecutor.Self ModelInput QueryResult).

Lemma pool_strategy_runner (k : Strategy) (r : Runner) :
  pool_strategy k → strategy_of r = k → ∃ s, r = RPool s.
Proof.
  intros Hk Hr. destruct r as [s|s|s|s]; simpl in Hr;
    try (destruct Hk as [?|[?|?]]; congruence).
  by exists s.
Qed.

(** What holds when the runner is acquired, and is kept by [issue_query] and
    by every step of a worker, holds over the whole lifetime. *)
Lemma pool_lifetime_ind (P : PSelf → World → Prop) (k : Strategy) (n : nat) :
  pool_strategy k →
  (∀ s w, (acquire (new_runner k Factory n new_world)).2 = (RPool s, w) → P s w) →
  (∀ s w queries callback,
     runner_inv n (RPool s, w) → strategy_of (RPool s : Runner) = k → P s w →
     P (ModelRunnerPoolExecutor.issue_query queries callback (s, w)).2.1
       (ModelRunnerPoolExecutor.issue_query queries callback (s, w)).2.2) →
  (∀ t s w s' w',
     runner_inv n (RPool s, w) → strategy_of (RPool s : Runner) = k → P s w →
     ModelRunnerPoolExecutor.step predict t (s, w) = Some (s', w') → P s' w') →
  ∀ ops, ∃ s, (lifetime predict k n ops).1 = RPool s ∧
              P s (lifetime predict k n ops).2.
Proof.
  intros Hk Hacq Hissue Hstep ops.
  induction ops as [|op ops IH] using rev_ind.
  - destruct (pool_strategy_runner k (lifetime predict k n []).1 Hk
                (lifetime_strategy predict k n [])) as [s Hs].
    exists s. split; [done|]. apply Hacq. unfold lifetime in *. simpl in *.
    destruct (acquire (new_runner k Factory n new_world)).2 as [r w].
    simpl in *. by subst.
  - destruct IH as (s & Hs & HP).
    assert (Hinv := lifetime_inv predict k n ops).
    assert (Hstr := lifetime_strategy predict k n ops).
    unfold lifetime in *. rewrite foldl_app. cbn [foldl].
    destruct (foldl (do_op predict) (acquire (new_runner k Factory n new_world)).2 ops)
      as [r w].
    simpl in Hs, HP, Hstr. subst r.
    destruct op as [queries callback| |t]; cbn [do_op].
    + unfold issue_query, on. cbn [fst snd]. eexists. split; [done|].
      by apply Hissue.
    + exists s. by split.
    + unfold worker_step. cbn [fst snd].
      destruct (ModelRunnerPoolExecutor.step predict t (s, w)) as [[s' w']|] eqn:Hst;
        simpl.
      * exists s'. split; [done|]. by eapply Hstep.
      * exists s. by split.
Qed.

(** The executor of a runner built with [max_concurrency = n] has [n] as
    [max_workers] and never more workers than that. *)
Lemma lifetime_workers_bound (k : Strategy) (n : nat) (ops : list Op) :
  pool_strategy k →
  ∃ s, (lifetime predict k n ops).1 = RPool s ∧
    ∀ ex, ModelRunnerPoolExecutor.executor s = Some ex →
      ModelRunnerPoolExecutor.max_workers ex = n ∧
      (length (ModelRunnerPoolExecutor.workers ex) ≤ n)%nat.
Proof.
  intros Hk.
  apply (pool_lifetime_ind
           (λ s _, ∀ ex, ModelRunnerPoolExecutor.executor s = Some ex →
              ModelRunnerPoolExecutor.max_workers ex = n ∧
              (length (ModelRunnerPoolExecutor.workers ex) ≤ n)%nat) k n Hk).
  - intros s w Hacq ex Hex.
    assert (Hs : ModelRunnerPoolExecutor.executor s = None ∨
                 ∃ b, ModelRunnerPoolExecutor.executor s
                      = Some (ModelRunnerPoolExecutor.new_executor n b)).
    { revert Hacq. destruct Hk as [-> | [-> | ->]];
        unfold acquire, new_runner, on; simpl;
        unfold ModelRunnerPoolExecutor.__enter__; rewrite bind_unfold;
        unfold self; simpl; destruct (decide (n = 0)%nat); simpl;
        intros [= <- _]; simpl; eauto. }
    destruct Hs as [Hs|[b Hs]]; rewrite Hs in Hex; [done|].
    injection Hex as <-. simpl. split; [done|lia].
  - intros s w queries callback _ _ HP ex'.
    destruct (pool_issue_query_cases s w queries callback)
      as (r & s' & Hrun & [->|[->|(ex & fn & _ & Hex & _ & _ & ->)]]);
      rewrite Hrun; cbn [fst snd]; [apply HP|apply HP|].
    intros [= <-]. destruct (HP ex Hex) as [Hmax Hlen].
    destruct (submit_all_fields (ModelRunnerPoolExecutor._model s) fn queries ex)
      as (-> & _).
    destruct (submit_all_workers (ModelRunnerPoolExecutor._model s) fn queries ex)
      as (new & -> & Hle & _).
    split; [done|]. rewrite <- Hmax. apply Hle. lia.
  - intros t s w s' w' _ _ HP Hstep ex' Hex'.
    destruct (step_workers predict t s s' w w' Hstep)
      as (ex & ex2 & wk & st' & Hex & Hex2 & _ & Hws & _ & Hmax & _).
    assert (ex2 = ex') as -> by congruence.
    destruct (HP ex Hex) as [Hm Hl].
    rewrite Hws, length_alter. split; [congruence|done].
Qed.

Lemma length_running (ws : list (ModelRunnerPoolExecutor.Worker ModelInput)) :
  (length (running ws) ≤ length ws)%nat.
Proof.
  induction ws as [|wk ws IH]; [done|]. rewrite running_cons. simpl.
  destruct (ModelRunnerPoolExecutor.status wk); simpl; lia.
Qed.

(** X5. A pool executor runner built with [max_concurrency = n] never has
    more than [n] worker threads or processes, whatever batches are issued
    and however the workers are scheduled; so at most [n] predictions are
    under way at any time. *)
Theorem pool_concurrency_bound (k : Strategy) (n : nat) (ops : list Op) :
  pool_strategy k →
  let rw := lifetime predict k n ops in
  (length (worker_units rw.1) ≤ n)%nat ∧
  ∃ s, rw.1 = RPool s ∧
    ∀ ex, ModelRunnerPoolExecutor.executor s = Some ex →
      (length (running (ModelRunnerPoolExecutor.workers ex)) ≤ n)%nat.
Proof.
  intros Hk rw. destruct (lifetime_workers_bound k n ops Hk) as (s & Hs & Hb).
  subst rw. rewrite Hs. simpl. split.
  - destruct (ModelRunnerPoolExecutor.executor s) as [ex|] eqn:Hex; simpl; [|lia].
    rewrite length_fmap, length_seq. by apply Hb.
  - exists s. split; [done|]. intros ex Hex.
    etransitivity; [apply length_running|]. by apply Hb.
Qed.

(** A schedule that the executor can follow, as steps of the runner. *)
Lemma exec_run_workers sched (s s' : PSelf) (w w' : World) :
  ModelRunnerPoolExecutor.exec predict sched (s, w) = Some (s', w') →
  run_workers predict sched (RPool s, w) = (RPool s', w').
Proof.
  revert s w. induction sched as [|t sched IH]; intros s w Hexec.
  - by injection Hexec as <- <-.
  - simpl in Hexec.
    destruct (ModelRunnerPoolExecutor.step predict t (s, w)) as [[s1 w1]|] eqn:Hst;
      [|done].
    simpl in Hexec. unfold run_workers. rewrite fmap_cons. cbn [foldl do_op].
    unfold worker_step. cbn [fst snd]. rewrite Hst. simpl. by apply IH.
Qed.

(** The steps of the runner along any schedule: a worker that cannot move
    is skipped, the others follow a schedule of the executor. *)
Lemma run_workers_exec sched (s : PSelf) (w : World) :
  ∃ sched' s' w',
    run_workers predict sched (RPool s, w) = (RPool s', w') ∧
    ModelRunnerPoolExecutor.exec predict sched' (s, w) = Some (s', w').
Proof.
  revert s w. induction sched as [|t sched IH]; intros s w.
  - by exists [], s, w.
  - unfold run_workers. rewrite fmap_cons. cbn [foldl do_op].
    unfold worker_step. cbn [fst snd].
    destruct (ModelRunnerPoolExecutor.step predict t (s, w)) as [[s1 w1]|] eqn:Hst;
      simpl.
    + destruct (IH s1 w1) as (sched' & s' & w' & Hrun & Hexec).
      exists (t :: sched'), s', w'. split; [done|]. simpl. by rewrite Hst.
    + destruct (IH s w) as (sched' & s' & w' & Hrun & Hexec).
      by exists sched', s', w'.
Qed.

(** Over the lifetime of a pool executor runner with at least one worker
    allowed: the executor exists and [get_predictor] has a predictor. *)
Lemma lifetime_pool (k : Strategy) (n : nat) (ops : list Op) :
  pool_strategy k → (0 < n)%nat →
  ∃ s ex fn, (lifetime predict k n ops).1 = RPool s ∧
    pool_inv s ∧ pool_live s ∧
    ModelRunnerPoolExecutor.executor s = Some ex ∧ predictor_of s = Some fn.
Proof.
  intros Hk Hn.
  destruct (pool_lifetime_ind
              (λ s _, is_Some (ModelRunnerPoolExecutor.executor s)) k n Hk)
    with (ops := ops) as (s & Hs & [ex Hex]).
  - intros s w Hacq. revert Hacq.
    destruct Hk as [-> | [-> | ->]];
      unfold acquire, new_runner, on; simpl;
      unfold ModelRunnerPoolExecutor.__enter__; rewrite bind_unfold;
      unfold self; simpl; (destruct (decide (n = 0)%nat); [lia|]); simpl;
      by intros [= <- _].
  - intros s w queries callback _ _ HP.
    destruct (pool_issue_query_cases s w queries callback)
      as (r & s' & Hrun & [->|[->|(ex & fn & _ & Hex & _ & _ & ->)]]);
      rewrite Hrun; cbn [fst snd]; done.
  - intros t s w s' w' _ _ _ Hstep.
    destruct (step_workers predict t s s' w w' Hstep)
      as (ex & ex2 & _ & _ & _ & Hex2 & _). by rewrite Hex2.
  - assert (Hinv := lifetime_inv predict k n ops).
    assert (Hstr := lifetime_strategy predict k n ops).
    destruct (lifetime predict k n ops) as [r w]. simpl in Hs. subst r.
    unfold runner_inv in Hinv. simpl in Hinv, Hstr.
    destruct Hinv as (Hpi & Hpl & _ & Hkind).
    assert (Hfn : is_Some (predictor_of s)).
    { unfold predictor_of. revert Hkind.
      destruct (ModelRunnerPoolExecutor.kind s) eqn:Hkd; try done.
      intros Hsh. assert (Hm := shared_model _ _ Hsh).
      rewrite Hkd in Hm. by rewrite Hm. }
    destruct Hfn as [fn Hfn]. by exists s, ex, fn.
Qed.

Lemma lifetime_run_workers (k : Strategy) (n : nat) (ops : list Op) sched :
  run_workers predict sched (lifetime predict k n ops)
  = lifetime predict k n (ops ++ (OpWorker <$> sched)).
Proof. unfold run_workers, lifetime. by rewrite foldl_app. Qed.

(** X6. A pool executor runner of any kind, built with a positive
    [max_concurrency] and entered, cannot get stuck: in every state of its
    lifetime, also after predictions have failed, the workers can finish all
    the work that is pending, which empties the table of futures; and on
    the idle runner [issue_query] returns for every batch. *)
Theorem pool_runner_always_recovers (k : Strategy) (n : nat) (ops : list Op) :
  pool_strategy k → (0 < n)%nat →
  let rw := lifetime predict k n ops in
  ∃ sched,
    Idle (run_workers predict sched rw).1 ∧
    ∀ queries callback,
      ∃ rw', issue_query predict queries callback (run_workers predict sched rw)
             = (Ok (), rw').
Proof.
  intros Hk Hn rw.
  destruct (lifetime_pool k n ops Hk Hn) as (s & ex & fn & Hs & Hinv & Hlive & _).
  destruct (drain_exists predict s rw.2 Hinv Hlive) as (sched & s' & w' & Hexec & Hf).
  exists sched.
  assert (Hrun : run_workers predict sched rw = (RPool s', w')).
  { apply exec_run_workers in Hexec. rewrite <- Hexec. f_equal.
    subst rw. destruct (lifetime predict k n ops) as [r w]. simpl in *. by subst. }
  split; [by rewrite Hrun|].
  intros queries callback.
  destruct (lifetime_pool k n (ops ++ (OpWorker <$> sched)) Hk Hn)
    as (s2 & ex2 & fn2 & Hs2 & _ & _ & Hex2 & Hfn2).
  rewrite <- lifetime_run_workers in Hs2. fold rw in Hs2.
  rewrite Hrun in Hs2 |- *. simpl in Hs2. injection Hs2 as <-.
  unfold issue_query, on. cbn [fst snd].
  rewrite (pool_issue_query_idle s' w' ex2 fn2 queries callback Hf Hex2 Hfn2).
  by eexists.
Qed.

(** An idle runner with the one shared model finds it. *)
Lemma idle_shared_finds_model (s : PSelf) (w : World) :
  pool_inv s → shared_inv s w → ModelRunnerPoolExecutor.futures s = ∅ →
  finds_model s.
Proof.
  intros Hinv Hsh Hf. unfold finds_model.
  assert (Hm := shared_model _ _ Hsh). assert (Hk := shared_kind _ _ Hsh).
  destruct (ModelRunnerPoolExecutor.kind s) eqn:Hkd; [|done|].
  - rewrite Hm. split; [done|]. intros ex item Hex Hin.
    rewrite (idle_no_pending s ex Hinv Hf Hex) in Hin. by apply elem_of_nil in Hin.
  - rewrite Hm. split; [done|]. intros ex Hex. split.
    + intros item Hin.
      rewrite (idle_no_pending s ex Hinv Hf Hex) in Hin. by apply elem_of_nil in Hin.
    + intros wk Hwk. by rewrite (shared_globals _ _ Hsh ex wk Hex Hwk), Hm.
Qed.

(** X7. On the thread pool runner and on the process pool runner, built
    with a positive [max_concurrency] and entered, every batch of the
    lifetime is delivered exactly once: when the runner is idle,
    [issue_query] returns, the workers can finish the batch, and however
    they are scheduled, once the table of futures is empty again the
    callback has been invoked once for every query whose prediction
    returns, with the single-entry dict of that prediction, and for nothing
    else. *)
Theorem shared_pool_exactly_once (k : Strategy) (n : nat) (ops : list Op)
    (queries : QueryInput ModelInput) (callback : Callback) :
  k = ThreadPoolRunner ∨ k = ProcessPoolRunner → (0 < n)%nat →
  let rw := lifetime predict k n ops in
  Idle rw.1 →
  ∃ rw1,
    issue_query predict queries callback rw = (Ok (), rw1) ∧
    (∃ sched, Idle (run_workers predict sched rw1).1) ∧
    ∀ sched, Idle (run_workers predict sched rw1).1 →
      callbacks (log (run_workers predict sched rw1).2) ≡ₚ
        callbacks (log rw.2) ++ owed predict callback queries.
Proof.
  intros Hk Hn rw Hidle.
  assert (Hk' : pool_strategy k) by (destruct Hk; [by left|by right; right]).
  destruct (lifetime_pool k n ops Hk' Hn)
    as (s & ex & fn & Hs & Hinv & Hlive & Hex & Hfn).
  destruct (lifetime_shared predict k n ops Hk) as (s0 & Hs0 & Hsh).
  fold rw in Hs, Hs0, Hsh. rewrite Hs in Hs0. injection Hs0 as <-.
  destruct rw as [r w] eqn:Hrw. simpl in Hs, Hsh, Hidle. subst r. simpl in Hidle.
  assert (Hfm := idle_shared_finds_model s w Hinv Hsh Hidle).
  exists (RPool (issued s ex fn queries callback), w). split.
  { unfold issue_query, on. cbn [fst snd].
    by rewrite (pool_issue_query_idle s w ex fn queries callback Hidle Hex Hfn). }
  split.
  - destruct (drain_exists predict (issued s ex fn queries callback) w)
      as (sched & s' & w' & Hexec & Hf).
    { by apply issued_pool_inv. }
    { by apply issued_pool_live. }
    exists sched. by rewrite (exec_run_workers _ _ _ _ _ Hexec).
  - intros sched.
    destruct (run_workers_exec sched (issued s ex fn queries callback) w)
      as (sched' & s' & w' & Hrun & Hexec).
    rewrite Hrun. simpl. intros Hf.
    by apply (pool_exactly_once predict s s' w w' ex fn queries callback sched').
Qed.

(** The ledger of a pool executor runner: what was logged, and how many
    futures are done. *)
Lemma lifetime_ledger (k : Strategy) (n : nat) (ops : list Op) :
  pool_strategy k →
  ∃ s, (lifetime predict k n ops).1 = RPool s ∧
    (ModelRunnerPoolExecutor.kind s ≠ ModelRunnerPoolExecutor.ThreadPoolExecutorWithTLS →
     finds_model s) ∧
    (∀ e, e ∈ logged (log (lifetime predict k n ops).2) →
       e = PredictionError ∨
       (ModelRunnerPoolExecutor.kind s
        = ModelRunnerPoolExecutor.ThreadPoolExecutorWithTLS ∧ e = AttributeError)) ∧
    (length (callbacks (log (lifetime predict k n ops).2)) +
     length (logged (log (lifetime predict k n ops).2)) =
     match ModelRunnerPoolExecutor.executor s with
     | Some ex => size (ModelRunnerPoolExecutor.finished ex)
     | None => 0
     end)%nat.
Proof.
  intros Hk.
  apply (pool_lifetime_ind
    (λ s w,
      (ModelRunnerPoolExecutor.kind s ≠ ModelRunnerPoolExecutor.ThreadPoolExecutorWithTLS →
       finds_model s) ∧
      (∀ e, e ∈ logged (log w) →
         e = PredictionError ∨
         (ModelRunnerPoolExecutor.kind s
          = ModelRunnerPoolExecutor.ThreadPoolExecutorWithTLS ∧ e = AttributeError)) ∧
      (length (callbacks (log w)) + length (logged (log w)) =
       match ModelRunnerPoolExecutor.executor s with
       | Some ex => size (ModelRunnerPoolExecutor.finished ex)
       | None => 0
       end)%nat) k n Hk).
  - intros s w Hacq. revert Hacq.
    destruct Hk as [-> | [-> | ->]];
      unfold acquire, new_runner, on; simpl;
      unfold ModelRunnerPoolExecutor.__enter__; rewrite bind_unfold;
      unfold self; simpl; destruct (decide (n = 0)%nat); simpl;
      intros [= <- <-]; simpl;
      (split; [|split; [intros e0 He0; by apply elem_of_nil in He0|done]]);
      intros Hne; try done; unfold finds_model; simpl; (split; [done|]).
    all: try done.
    all: try (intros ex item [= <-] Hin; by apply elem_of_nil in Hin).
    intros ex [= <-]. split.
    + intros item Hin. by apply elem_of_nil in Hin.
    + intros wk Hwk. by apply elem_of_nil in Hwk.
  - intros s w queries callback Hinv _ (Hfm & Hlog & Hcount).
    unfold runner_inv in Hinv. simpl in Hinv. destruct Hinv as (Hpi & _).
    destruct (pool_issue_query_cases s w queries callback)
      as (r & s' & Hrun & [->|[->|(ex & fn & Hf & Hex & Hfn & _ & ->)]]);
      rewrite Hrun; cbn [fst snd]; [done|done|].
    split; [|split; [done|]].
    + intros Hkd. by apply issued_finds_model; [..|apply Hfm].
    + simpl. rewrite Hex in Hcount.
      by destruct (submit_all_fields (ModelRunnerPoolExecutor._model s) fn queries ex)
        as (_ & _ & _ & _ & ->).
  - intros t s w s' w' Hinv _ (Hfm & Hlog & Hcount) Hstep.
    unfold runner_inv in Hinv. simpl in Hinv. destruct Hinv as (Hpi & _).
    assert (Hkd := step_kind predict t s s' w w' Hstep).
    destruct (step_summary predict t s s' w w' Hpi Hstep)
      as (ex & ex' & wk & Hex & Hex' & Hwk & _ & _ & Hcase).
    rewrite Hkd, Hex'. rewrite Hex in Hcount.
    split; [intros Hne; by apply (step_finds_model predict t s s' w w'); [..|apply Hfm]|].
    destruct Hcase as [(_ & _ & Hfin & _ & Hcb & Hlg)|
      (f & fn & x & q & cb & o & _ & Hq & _ & _ & Hfin & _ & Hcb & Hlg & Hsound & Ho)].
    + by rewrite Hcb, Hlg, Hfin.
    + assert (Hnone : ModelRunnerPoolExecutor.finished ex !! f = None).
      { by apply (inv_pending _ Hpi ex f Hex). }
      rewrite Hcb, Hlg, Hfin, map_size_insert_None by done.
      rewrite !length_app. split.
      * intros e He. apply elem_of_app in He as [He|He]; [by apply Hlog|].
        destruct o as [r|e']; [by apply elem_of_nil in He|].
        apply list_elem_of_singleton in He as ->.
        destruct (ModelRunnerPoolExecutor.kind s) eqn:Hkind.
        -- specialize (Ho (Hfm ltac:(done))). unfold prediction in Ho.
           destruct (predict x); [done|]. injection Ho as ->. by left.
        -- simpl in Hsound. destruct Hsound as [->|[-> _]]; [by right|by left].
        -- specialize (Ho (Hfm ltac:(done))). unfold prediction in Ho.
           destruct (predict x); [done|]. injection Ho as ->. by left.
      * destruct o; simpl; lia.
Qed.

(** X8. Over the lifetime of a pool executor runner every future that is
    done is accounted for once: either the callback was invoked for it or
    its exception was logged, so the invocations and the logged exceptions
    together are as many as the futures done.  The done-callback itself
    never fails (the future is in the table, the callback is stored): a
    logged exception is that of a failed prediction or, on the thread-local
    runner only, the [AttributeError] of a thread that does not find its
    model. *)
Theorem pool_every_future_accounted (k : Strategy) (n : nat) (ops : list Op) :
  pool_strategy k →
  let rw := lifetime predict k n ops in
  (∀ e, e ∈ logged (log rw.2) →
     e = PredictionError ∨ (k = ThreadLocalPoolRunner ∧ e = AttributeError)) ∧
  ∃ s, rw.1 = RPool s ∧
    (length (callbacks (log rw.2)) + length (logged (log rw.2)) =
     match ModelRunnerPoolExecutor.executor s with
     | Some ex => size (ModelRunnerPoolExecutor.finished ex)
     | None => 0
     end)%nat.
Proof.
  intros Hk rw. destruct (lifetime_ledger k n ops Hk) as (s & Hs & _ & Hlog & Hcount).
  assert (Hstr := lifetime_strategy predict k n ops). fold rw in Hs, Hlog, Hcount, Hstr.
  split; [|by exists s].
  intros e He. destruct (Hlog e He) as [->|[Hkd ->]]; [by left|]. right.
  split; [|done]. rewrite Hs in Hstr. simpl in Hstr. by rewrite Hkd in Hstr.
Qed.

Lemma running_lookup (ws : list (ModelRunnerPoolExecutor.Worker ModelInput))
    t wk f fn x :
  ws !! t = Some wk →
  ModelRunnerPoolExecutor.status wk = ModelRunnerPoolExecutor.Running f fn x →
  (f, fn, x) ∈ running ws.
Proof.
  intros Hwk Hst. apply list_elem_of_omap. exists wk.
  split; [by eapply list_elem_of_lookup_2|]. by rewrite Hst.
Qed.

(** The runners with one model: every work item carries the predictor of
    that model, and every prediction was made with it on a worker. *)
Lemma lifetime_shared_predictions (k : Strategy) (n : nat) (ops : list Op) :
  k = ThreadPoolRunner ∨ k = ProcessPoolRunner →
  ∃ s, (lifetime predict k n ops).1 = RPool s ∧
    (∀ ex item, ModelRunnerPoolExecutor.executor s = Some ex →
       item ∈ pending_items ex →
       item.1.2 = match ModelRunnerPoolExecutor.kind s with
                  | ModelRunnerPoolExecutor.ThreadPoolExecutor =>
                      ModelRunnerPoolExecutor.BoundPredict 0
                  | ModelRunnerPoolExecutor.ThreadPoolExecutorWithTLS =>
                      ModelRunnerPoolExecutor.TlsPredict
                  | ModelRunnerPoolExecutor.ProcessPoolExecutor =>
                      ModelRunnerPoolExecutor.ProcessPredict
                  end) ∧
    (∀ u m x, (u, m, x) ∈ predictions (log (lifetime predict k n ops).2) →
       m = 0%nat ∧
       ∃ t, u = ModelRunnerPoolExecutor.unit_of (ModelRunnerPoolExecutor.kind s) t).
Proof.
  intros Hk.
  assert (Hk' : pool_strategy k) by (destruct Hk; [by left|by right; right]).
  apply (pool_lifetime_ind
    (λ s w,
      (∀ ex item, ModelRunnerPoolExecutor.executor s = Some ex →
         item ∈ pending_items ex →
         item.1.2 = match ModelRunnerPoolExecutor.kind s with
                    | ModelRunnerPoolExecutor.ThreadPoolExecutor =>
                        ModelRunnerPoolExecutor.BoundPredict 0
                    | ModelRunnerPoolExecutor.ThreadPoolExecutorWithTLS =>
                        ModelRunnerPoolExecutor.TlsPredict
                    | ModelRunnerPoolExecutor.ProcessPoolExecutor =>
                        ModelRunnerPoolExecutor.ProcessPredict
                    end) ∧
      (∀ u m x, (u, m, x) ∈ predictions (log w) →
         m = 0%nat ∧
         ∃ t, u = ModelRunnerPoolExecutor.unit_of (ModelRunnerPoolExecutor.kind s) t))
    k n Hk').
  - intros s w Hacq. revert Hacq.
    destruct Hk as [-> | ->];
      unfold acquire, new_runner, on; simpl;
      unfold ModelRunnerPoolExecutor.__enter__; rewrite bind_unfold;
      unfold self; simpl; destruct (decide (n = 0)%nat); simpl;
      intros [= <- <-]; simpl; split;
      try (intros u m x Hin; by apply elem_of_nil in Hin);
      try done; intros ex item [= <-] Hin; by apply elem_of_nil in Hin.
  - intros s w queries callback Hinv Hstr [Hitems Hpred].
    unfold runner_inv in Hinv. simpl in Hinv.
    destruct Hinv as (Hpi & _ & _ & Hsh0).
    assert (Hsh : shared_inv s w).
    { revert Hsh0 Hstr. simpl.
      destruct (ModelRunnerPoolExecutor.kind s); destruct Hk as [-> | ->]; done. }
    clear Hsh0.
    destruct (pool_issue_query_cases s w queries callback)
      as (r & s' & Hrun & [->|[->|(ex & fn & Hf & Hex & Hfn & _ & ->)]]);
      rewrite Hrun; cbn [fst snd]; [done|done|].
    split; [|done]. intros ex' item [= <-] Hin.
    rewrite (issued_pending_items s ex fn queries Hpi Hf Hex) in Hin.
    apply list_elem_of_fmap in Hin as (fqx & -> & _). simpl.
    revert Hfn Hsh. unfold predictor_of.
    destruct (ModelRunnerPoolExecutor.kind s) eqn:Hkd.
    + intros Hfn Hsh. assert (Hm := shared_model _ _ Hsh). rewrite Hkd in Hm.
      rewrite Hm in Hfn. by injection Hfn as <-.
    + by intros [= <-].
    + by intros [= <-].
  - intros t s w s' w' Hinv Hstr [Hitems Hpred] Hstep.
    unfold runner_inv in Hinv. simpl in Hinv.
    destruct Hinv as (Hpi & Hpl & _ & Hsh0).
    assert (Hsh : shared_inv s w).
    { revert Hsh0 Hstr. simpl.
      destruct (ModelRunnerPoolExecutor.kind s); destruct Hk as [-> | ->]; done. }
    clear Hsh0.
    assert (Hkd := step_kind predict t s s' w w' Hstep). rewrite Hkd.
    destruct (step_summary predict t s s' w w' Hpi Hstep)
      as (ex & ex' & wk & Hex & Hex' & Hwk & _ & _ & Hcase).
    split.
    + intros ex2 item Hex2 Hin. assert (ex2 = ex') as -> by congruence.
      apply (Hitems ex item Hex).
      destruct Hcase as [(_ & _ & _ & Hperm & _)|
        (f & fn & x & q & cb & o & _ & _ & _ & _ & _ & Hperm & _)].
      * by rewrite <- Hperm.
      * rewrite Hperm. by right.
    + destruct (step_events predict t s s' w w' Hpl Hstep)
        as (ex1 & wk1 & evs & Hex1 & Hwk1 & Hlog & Hev).
      assert (ex1 = ex) as -> by congruence.
      assert (wk1 = wk) as -> by congruence.
      intros u m x Hin. rewrite Hlog, predictions_app in Hin.
      apply elem_of_app in Hin as [Hin|Hin]; [by apply (Hpred u m x)|].
      destruct Hev as [(_ & -> & _)|[(_ & -> & _)|
        (f & fn & x0 & Hst & _ & _ & Hevs)]];
        [by apply elem_of_nil in Hin|by apply elem_of_nil in Hin|].
      destruct (Hevs u m x Hin) as [_ Hfn].
      assert (Hitem : (f, fn, x0) ∈ pending_items ex).
      { unfold pending_items. apply elem_of_app. right.
        by apply (running_lookup _ t wk). }
      specialize (Hitems ex _ Hex Hitem). simpl in Hitems.
      assert (Hm := shared_model _ _ Hsh). assert (Hne := shared_kind _ _ Hsh).
      destruct (ModelRunnerPoolExecutor.kind s) eqn:Hkind; [| done |].
      * subst fn. destruct Hfn as [-> ->]. split; [done|]. by exists t.
      * subst fn. destruct Hfn as [-> Hg]. split; [|by exists t].
        assert (Hwkin : wk ∈ ModelRunnerPoolExecutor.workers ex)
          by (by eapply list_elem_of_lookup_2).
        rewrite (shared_globals _ _ Hsh ex wk Hex Hwkin), Hm in Hg. congruence.
Qed.

(** X9. On the thread pool runner and on the process pool runner every
    prediction of the lifetime is made with the one model that [__init__]
    built on the main thread (in a worker process: with the copy the
    process got), and on a worker thread or process of the executor, never
    on the main thread. *)
Theorem shared_pool_predictions (k : Strategy) (n : nat) (ops : list Op) :
  k = ThreadPoolRunner ∨ k = ProcessPoolRunner →
  let rw := lifetime predict k n ops in
  creations (log rw.2) = [(MainThread, 0%nat)] ∧
  ∀ u m x, (u, m, x) ∈ predictions (log rw.2) →
    m = 0%nat ∧
    ∃ t, u = match k with
             | ProcessPoolRunner => WorkerProcess t
             | _ => WorkerThread t
             end.
Proof.
  intros Hk rw.
  destruct (lifetime_shared predict k n ops Hk) as (s0 & Hs0 & Hsh).
  split; [apply (shared_creations _ _ Hsh)|].
  destruct (lifetime_shared_predictions k n ops Hk) as (s & Hs & _ & Hpred).
  assert (Hstr := lifetime_strategy predict k n ops).
  fold rw in Hs, Hpred, Hstr. rewrite Hs in Hstr. simpl in Hstr.
  intros u m x Hin. destruct (Hpred u m x Hin) as [-> [t ->]].
  split; [done|]. exists t.
  destruct (ModelRunnerPoolExecutor.kind s); subst k; try done;
    destruct Hk; done.
Qed.
End PoolLifetimeProofs.

Lemma pool_concurrency_bound_witness :
  let rw := lifetime echo ThreadPoolRunner 2 [OpIssue abc 7%nat; OpWorker 0] in
  pool_strategy ThreadPoolRunner ∧
  (length (worker_units rw.1) ≤ 2)%nat ∧
  ∃ s, rw.1 = RPool s ∧
    ∀ ex, ModelRunnerPoolExecutor.executor s = Some ex →
      (length (running (ModelRunnerPoolExecutor.workers ex)) ≤ 2)%nat.
Proof.
  assert (Hk : pool_strategy ThreadPoolRunner) by (left; reflexivity).
  split; [exact Hk|].
  exact (pool_concurrency_bound echo ThreadPoolRunner 2
           [OpIssue abc 7%nat; OpWorker 0] Hk).
Defined.

Lemma pool_runner_always_recovers_witness :
  let rw := lifetime (echo_but "b") ThreadLocalPoolRunner 2
              [OpIssue abc 7%nat; OpWorker 0] in
  pool_strategy ThreadLocalPoolRunner ∧
  ∃ sched,
    Idle (run_workers (echo_but "b") sched rw).1 ∧
    ∀ queries callback,
      ∃ rw', issue_query (echo_but "b") queries callback
               (run_workers (echo_but "b") sched rw) = (Ok (), rw').
Proof.
  assert (Hk : pool_strategy ThreadLocalPoolRunner) by (right; left; reflexivity).
  assert (Hn : (0 < 2)%nat) by lia.
  split; [exact Hk|].
  exact (pool_runner_always_recovers (echo_but "b") ThreadLocalPoolRunner 2
           [OpIssue abc 7%nat; OpWorker 0] Hk Hn).
Defined.

Lemma shared_pool_exactly_once_witness :
  let rw := lifetime echo ProcessPoolRunner 2
              (OpIssue [(4, "d"%string)] 6%nat :: (OpWorker <$> [0; 0]%nat)) in
  Idle rw.1 ∧
  ∃ rw1,
    issue_query echo abc 7%nat rw = (Ok (), rw1) ∧
    (∃ sched, Idle (run_workers echo sched rw1).1) ∧
    ∀ sched, Idle (run_workers echo sched rw1).1 →
      callbacks (log (run_workers echo sched rw1).2) ≡ₚ
        callbacks (log rw.2) ++ owed echo 7%nat abc.
Proof.
  intros rw.
  assert (Hk : ProcessPoolRunner = ThreadPoolRunner ∨
               ProcessPoolRunner = ProcessPoolRunner) by (right; reflexivity).
  assert (Hn : (0 < 2)%nat) by lia.
  assert (Hidle : Idle rw.1) by (vm_compute; reflexivity).
  split; [exact Hidle|].
  exact (shared_pool_exactly_once echo ProcessPoolRunner 2
           (OpIssue [(4, "d"%string)] 6%nat :: (OpWorker <$> [0; 0]%nat))
           abc 7%nat Hk Hn Hidle).
Defined.

Lemma pool_every_future_accounted_witness :
  let rw := lifetime (echo_but "b") ThreadPoolRunner 2
              (OpIssue abc 7%nat :: (OpWorker <$> [0; 0; 1; 1]%nat)) in
  pool_strategy ThreadPoolRunner ∧
  (∀ e, e ∈ logged (log rw.2) →
     e = PredictionError ∨
     (ThreadPoolRunner = ThreadLocalPoolRunner ∧ e = AttributeError)) ∧
  ∃ s, rw.1 = RPool s ∧
    (length (callbacks (log rw.2)) + length (logged (log rw.2)) =
     match ModelRunnerPoolExecutor.executor s with
     | Some ex => size (ModelRunnerPoolExecutor.finished ex)
     | None => 0
     end)%nat.
Proof.
  assert (Hk : pool_strategy ThreadPoolRunner) by (left; reflexivity).
  split; [exact Hk|].
  exact (pool_every_future_accounted (echo_but "b") ThreadPoolRunner 2
           (OpIssue abc 7%nat :: (OpWorker <$> [0; 0; 1; 1]%nat)) Hk).
Defined.

Lemma shared_pool_predictions_witness :
  let rw := lifetime echo ProcessPoolRunner 2
              (OpIssue abc 7%nat :: (OpWorker <$> [0; 0; 1; 1]%nat)) in
  creations (log rw.2) = [(MainThread, 0%nat)] ∧
  ∀ u m x, (u, m, x) ∈ predictions (log rw.2) →
    m = 0%nat ∧ ∃ t, u = WorkerProcess t.
Proof.
  assert (Hk : ProcessPoolRunner = ThreadPoolRunner ∨
               ProcessPoolRunner = ProcessPoolRunner) by (right; reflexivity).
  exact (shared_pool_predictions echo ProcessPoolRunner 2
           (OpIssue abc 7%nat :: (OpWorker <$> [0; 0; 1; 1]%nat)) Hk).
Defined.

(** ** The actor pool runner over its lifetime *)
Section RayLifetimeProofs.
Context {ModelInput QueryResult : Type}.
Context (predict : ModelInput → option QueryResult).
#[local] Abbreviation World := (World ModelInput QueryResult).
#[local] Abbreviation Runner := (Runner ModelInput QueryResult).
#[local] Abbreviation Op := (Op ModelInput).
#[local] Abbreviation RSelf := (ModelRunnerRay.Self ModelInput).
#[local] Abbreviation ActorPool := (ModelRunnerRay.ActorPool ModelInput).

Lemma submit_actors (v : QueryId * ModelInput) (p : ActorPool) :
  pool_actors (ModelRunnerRay.submit v p) ≡ₚ pool_actors p.
Proof.
  unfold ModelRunnerRay.submit, pool_actors.
  destruct (reverse (ModelRunnerRay._idle_actors p)) as [|a idle] eqn:Hrev;
    simpl; [done|].
  assert (Hidle : ModelRunnerRay._idle_actors p = reverse idle ++ [a]).
  { by rewrite <- (reverse_involutive (ModelRunnerRay._idle_actors p)), Hrev,
      reverse_cons. }
  rewrite Hidle, fmap_app. simpl. rewrite <- !app_assoc.
  apply Permutation_app_head. apply Permutation_app_comm.
Qed.

Lemma submit_all_actors (queries : QueryInput ModelInput) (p : ActorPool) :
  pool_actors (foldl (λ p v, ModelRunnerRay.submit v p) p queries)
  ≡ₚ pool_actors p.
Proof.
  revert p. induction queries as [|v queries IH]; intros p; [done|].
  simpl. by rewrite IH, submit_actors.
Qed.

Lemma return_actor_actors (a : ModelRunnerRay.RayModel) (p : ActorPool) :
  pool_actors (ModelRunnerRay._return_actor a p) ≡ₚ a :: pool_actors p.
Proof.
  unfold ModelRunnerRay._return_actor. simpl.
  destruct (ModelRunnerRay._pending_submits p) as [|v rest].
  - unfold pool_actors. simpl. rewrite <- app_assoc. simpl.
    by rewrite <- Permutation_middle.
  - rewrite submit_actors. unfold pool_actors. simpl. rewrite <- app_assoc. simpl.
    by rewrite <- Permutation_middle.
Qed.

(** The loop over the results keeps the actors of the pool, and every
    prediction it fetches was made by one of them with its own model. *)
Lemma ray_for_results_actors fuel callback (s : RSelf) (w : World) p :
  ModelRunnerRay.pool s = Some p →
  ∃ r p' w',
    ModelRunnerRay.for_results predict fuel callback (s, w) =
      (r, (ModelRunnerRay.set_pool (Some p') s, w')) ∧
    pool_actors p' ≡ₚ pool_actors p ∧
    ∀ u m x, (u, m, x) ∈ predictions (log w') →
      (u, m, x) ∈ predictions (log w) ∨
      ∃ a, a ∈ pool_actors p ∧ u = RemoteActor (ModelRunnerRay.actor a) ∧
           m = ModelRunnerRay.model a.
Proof.
  revert s w p. induction fuel as [|fuel IH]; intros s w p Hp.
  - exists (Ok ()), p, w. split; [|split; [done|by left]].
    simpl. unfold mret, M_ret. do 2 f_equal. destruct s; simpl in *; by subst.
  - simpl. rewrite bind_unfold. unfold self at 1. simpl. rewrite Hp. simpl.
    rewrite bind_unfold. unfold mret at 1, M_ret at 1.
    destruct (ModelRunnerRay.has_next p) eqn:Hn.
    2:{ exists (Ok ()), p, w. split; [|split; [done|by left]].
        unfold mret, M_ret. do 2 f_equal. destruct s; simpl in *; by subst. }
    rewrite bind_unfold. unfold ModelRunnerRay.get_next.
    rewrite bind_unfold. unfold self at 1. simpl. rewrite Hp. simpl.
    rewrite bind_unfold. unfold mret at 1, M_ret at 1.
    unfold ModelRunnerRay.has_next in Hn.
    destruct (ModelRunnerRay._in_flight p) as [|[a [q x]] rest] eqn:Hfl; [done|].
    rewrite bind_unfold. unfold update at 1. simpl.
    unfold ModelRunnerRay.RayModel_predict. rewrite bind_unfold.
    rewrite model_predict_spec. unfold prediction.
    assert (Hact : pool_actors
              (ModelRunnerRay._return_actor a
                 {| ModelRunnerRay._idle_actors := ModelRunnerRay._idle_actors p;
                    ModelRunnerRay._in_flight := rest;
                    ModelRunnerRay._pending_submits :=
                      ModelRunnerRay._pending_submits p |})
            ≡ₚ pool_actors p).
    { rewrite return_actor_actors. unfold pool_actors. simpl. rewrite Hfl.
      simpl. by rewrite <- Permutation_middle. }
    assert (Ha : a ∈ pool_actors p).
    { unfold pool_actors. rewrite Hfl. apply elem_of_app. right. by left. }
    destruct (predict x) as [r|]; simpl.
    + rewrite bind_unfold. unfold call, emit. simpl.
      match goal with |- context [ModelRunnerRay.for_results _ _ _ (?s1, ?w1)] =>
        destruct (IH s1 w1 _ eq_refl) as (r' & p' & w' & Hrun & Hperm & Hpred) end.
      rewrite Hrun. exists r', p', w'. split; [done|].
      split; [by rewrite Hperm|].
      intros u m x0 Hin. destruct (Hpred u m x0 Hin) as [Hold|(a0 & Ha0 & -> & ->)].
      * simpl in Hold. rewrite !predictions_app in Hold. simpl in Hold.
        rewrite app_nil_r in Hold.
        apply elem_of_app in Hold as [Hold|Hold]; [by left|].
        apply list_elem_of_singleton in Hold as [= -> -> ->]. right. by exists a.
      * right. exists a0. by rewrite <- Hact.
    + eexists (Raise PredictionError), _, _. split; [done|].
      split; [done|]. intros u m x0 Hin. simpl in Hin.
      rewrite predictions_app in Hin. simpl in Hin.
      apply elem_of_app in Hin as [Hin|Hin]; [by left|].
      apply list_elem_of_singleton in Hin as [= -> -> ->]. right. by exists a.
Qed.

Lemma ray_issue_query_actors (s : RSelf) (w : World) p
    (queries : QueryInput ModelInput) (callback : Callback) :
  ModelRunnerRay.pool s = Some p →
  ∃ r p' w',
    ModelRunnerRay.issue_query predict queries callback (s, w) =
      (r, (ModelRunnerRay.set_pool (Some p') s, w')) ∧
    pool_actors p' ≡ₚ pool_actors p ∧
    ∀ u m x, (u, m, x) ∈ predictions (log w') →
      (u, m, x) ∈ predictions (log w) ∨
      ∃ a, a ∈ pool_actors p ∧ u = RemoteActor (ModelRunnerRay.actor a) ∧
           m = ModelRunnerRay.model a.
Proof.
  intros Hp. unfold ModelRunnerRay.issue_query.
  rewrite bind_unfold. unfold self at 1. simpl. rewrite Hp. simpl.
  rewrite bind_unfold. unfold mret at 1, M_ret at 1.
  rewrite bind_unfold. unfold update at 1. simpl.
  match goal with |- context [ModelRunnerRay.for_results _ ?fuel _ (?s1, ?w1)] =>
    destruct (ray_for_results_actors fuel callback s1 w1 _ eq_refl)
      as (r' & p' & w' & Hrun & Hperm & Hpred) end.
  rewrite Hrun. exists r', p', w'. split; [done|].
  rewrite submit_all_actors in Hperm. split; [done|].
  intros u m x Hin. destruct (Hpred u m x Hin) as [Hold|(a & Ha & -> & ->)];
    [by left|].
  right. exists a. by rewrite submit_all_actors in Ha.
Qed.

Lemma predictions_fmap_create {A} (u : A → ExecUnit) (m : A → Model) (l : list A) :
  predictions ((λ i, ECreate (ModelInput := ModelInput)
                       (QueryResult := QueryResult) (u i) (m i)) <$> l) = [].
Proof. induction l as [|a l IH]; [done|]. by rewrite fmap_cons. Qed.

Lemma ray_entered_state (n : nat) (w : World) :
  ∃ s1 w1 p1,
    ModelRunnerRay.__enter__ (ModelRunnerRay.__init__ Factory n w)
      = (Ok (), (s1, w1)) ∧
    ModelRunnerRay.instances s1 =
      (λ i, {| ModelRunnerRay.actor := i;
               ModelRunnerRay.model := next_model w + i |}) <$> seq 0 n ∧
    ModelRunnerRay.pool s1 = Some p1 ∧
    pool_actors p1 ≡ₚ ModelRunnerRay.instances s1 ∧
    log w1 = log w ++
      ((λ i, ECreate (RemoteActor i) (next_model w + i)%nat) <$> seq 0 n).
Proof.
  unfold ModelRunnerRay.__enter__, ModelRunnerRay.__init__.
  rewrite bind_unfold. unfold self at 1. simpl.
  rewrite bind_unfold.
  match goal with |- context [ModelRunnerRay.remote_instances n (?s1, ?w1)] =>
    destruct (remote_instances_spec (QueryResult := QueryResult) n s1 w1)
      as (l & Hrun & Hl); rewrite Hrun end.
  simpl in *. unfold update. simpl. eexists _, _, _. split; [done|]. simpl.
  split; [done|]. split; [done|]. split; [|done].
  unfold pool_actors. simpl. by rewrite app_nil_r.
Qed.

(** The actor pool runner after [__enter__]: its actors are numbered from 0,
    actor [i] has built model [i], the pool holds them all, and so it stays;
    every prediction was made by one of them with its own model. *)
Lemma lifetime_ray (n : nat) (ops : list Op) :
  ∃ s p, (lifetime predict DistributedActorPoolRunner n ops).1 = RRay s ∧
    ModelRunnerRay.instances s =
      (λ i, {| ModelRunnerRay.actor := i; ModelRunnerRay.model := i |}) <$> seq 0 n ∧
    ModelRunnerRay.pool s = Some p ∧
    pool_actors p ≡ₚ ModelRunnerRay.instances s ∧
    ∀ u m x,
      (u, m, x) ∈ predictions (log (lifetime predict DistributedActorPoolRunner n ops).2) →
      ∃ a, a ∈ ModelRunnerRay.instances s ∧
           u = RemoteActor (ModelRunnerRay.actor a) ∧ m = ModelRunnerRay.model a.
Proof.
  induction ops as [|op ops IH] using rev_ind.
  - unfold lifetime. cbn [foldl].
    assert (Heq : acquire (new_runner (ModelInput := ModelInput)
                     (QueryResult := QueryResult)
                     DistributedActorPoolRunner Factory n new_world)
                  = let out := ModelRunnerRay.__enter__
                                 (ModelRunnerRay.__init__ Factory n new_world) in
                    (out.1, (RRay out.2.1, out.2.2))) by reflexivity.
    rewrite Heq. clear Heq.
    destruct (ray_entered_state n new_world) as (s1 & w1 & p1 & Hrun & Hi & Hp & Hact & Hlog).
    rewrite Hrun. cbn [fst snd]. exists s1, p1.
    split; [done|]. split; [done|]. split; [done|]. split; [done|].
    intros u m x Hin. rewrite Hlog in Hin. simpl in Hin.
    rewrite predictions_fmap_create in Hin. by apply elem_of_nil in Hin.
  - destruct IH as (s & p & Hs & Hi & Hp & Hperm & Hpred).
    unfold lifetime in *. rewrite foldl_app. cbn [foldl].
    destruct (foldl (do_op predict)
                (acquire (new_runner DistributedActorPoolRunner Factory n new_world)).2
                ops) as [r w].
    simpl in Hs, Hpred. subst r.
    destruct op as [queries callback| |t]; cbn [do_op].
    + unfold issue_query, on. cbn [fst snd].
      destruct (ray_issue_query_actors s w p queries callback Hp)
        as (r' & p' & w' & Hrun & Hperm' & Hpred').
      rewrite Hrun. cbn [fst snd]. exists (ModelRunnerRay.set_pool (Some p') s), p'.
      split; [done|]. split; [done|]. split; [done|].
      split; [by rewrite Hperm'|].
      intros u m x Hin. destruct (Hpred' u m x Hin) as [Hold|(a & Ha & -> & ->)].
      * by apply (Hpred u m x).
      * exists a. split; [|done]. simpl. by rewrite <- Hperm.
    + by exists s, p.
    + by exists s, p.
Qed.

(** X10. The actor pool runner built with [max_concurrency = n] has [n]
    actors from [__enter__] on.  Over its whole lifetime every prediction is
    made by one of these actors with the model that this actor built in its
    [__init__], and no other actor has built that model: an actor never
    predicts with the model of another. *)
Theorem ray_actors_use_own_model (n : nat) (ops : list Op) :
  let rw := lifetime predict DistributedActorPoolRunner n ops in
  length (worker_units rw.1) = n ∧
  ∀ u m x, (u, m, x) ∈ predictions (log rw.2) →
    u ∈ worker_units rw.1 ∧
    (u, m) ∈ creations (log rw.2) ∧
    ∀ u', (u', m) ∈ creations (log rw.2) → u' = u.
Proof.
  intros rw. destruct (lifetime_ray n ops) as (s & p & Hs & Hi & _ & _ & Hpred).
  assert (Hinv := lifetime_inv predict DistributedActorPoolRunner n ops).
  fold rw in Hs, Hpred, Hinv. unfold runner_inv in Hinv. rewrite Hs in Hinv |- *.
  destruct Hinv as [Hc _]. simpl.
  split; [by rewrite length_fmap, Hi, length_fmap, length_seq|].
  intros u m x Hin. destruct (Hpred u m x Hin) as (a & Ha & -> & ->).
  split; [apply list_elem_of_fmap; by exists a|].
  rewrite Hc. split; [apply list_elem_of_fmap; by exists a|].
  intros u' Hu'. apply list_elem_of_fmap in Hu' as (b & [= -> Hm] & Hb).
  rewrite Hi in Ha, Hb.
  apply list_elem_of_fmap in Ha as (i & -> & _).
  apply list_elem_of_fmap in Hb as (j & -> & _). simpl in *. by subst.
Qed.
End RayLifetimeProofs.

(** ** The thread-local runner with a single worker *)
Section SingleWorkerProofs.
Context {ModelInput QueryResult : Type}.
Context (predict : ModelInput → option QueryResult).
#[local] Abbreviation World := (World ModelInput QueryResult).
#[local] Abbreviation Runner := (Runner ModelInput QueryResult).
#[local] Abbreviation Op := (Op ModelInput).
#[local] Abbreviation PSelf := (ModelRunnerPoolExecutor.Self ModelInput QueryResult).
Import ModelRunnerPoolExecutor.

(** A worker that finds its thread-local model stores the prediction in the
    future. *)
Lemma step_tls_outcome t (s s' : PSelf) (w w' : World) ex wk f x l m :
  pool_inv s → step predict t (s, w) = Some (s', w') →
  executor s = Some ex → workers ex !! t = Some wk →
  status wk = Running f TlsPredict x →
  tls s = Some l → tls_model s !! (l, t) = Some m →
  ∃ ex', executor s' = Some ex' ∧
    finished ex' = <[f := prediction predict x]> (finished ex).
Proof.
  intros Hinv H Hex0 Hwk0 Hst0 Hl Hm. step_inv H; 
    assert (ex0 = ex) as -> by congruence;
    assert (wk0 = wk) as -> by congruence; try congruence.
  assert (f0 = f ∧ fn = TlsPredict ∧ x0 = x) as (-> & -> & ->)
    by (split; [|split]; congruence).
  assert (Hin : f ∈ (pending_items ex).*1.*1).
  { apply list_elem_of_fmap. exists (f, TlsPredict). split; [done|].
    apply list_elem_of_fmap. exists (f, TlsPredict, x). split; [done|].
    unfold pending_items. apply elem_of_app. right.
    unfold running. apply list_elem_of_omap. exists wk.
    split; [by eapply list_elem_of_lookup_2|]. by rewrite Hst. }
  apply (inv_table _ Hinv ex f Hex) in Hin as [q Hq].
  destruct (callback_fn s) as [cb|] eqn:Hcb.
  2:{ destruct (inv_callback _ Hinv) as [? ?]; [|congruence].
      intros Hem. by rewrite Hem in Hq. }
  destruct (run_work_item_spec predict t (globals wk) f TlsPredict x q cb s w ex
              Hex Hq Hcb) as (o & evs & Happ & Hrun).
  unfold mbind, M_bind in H. rewrite Hrun in H. simpl in H.
  injection H as <- <-. eexists. split; [done|]. simpl. f_equal.
  destruct (apply_predictor_spec predict t (globals wk) TlsPredict x s w)
    as (o' & evs' & Happ' & _ & Hevs).
  rewrite Happ in Happ'. injection Happ' as <- _.
  destruct Hevs as [(_ & _ & [Hnone|(l' & Hl' & Hnone)])|(m' & -> & _)];
    [congruence| |done].
  assert (l' = l) as -> by congruence. congruence.
Qed.

Lemma step_single_tls t (s s' : PSelf) (w w' : World) :
  pool_inv s → pool_live s → single_tls_inv s →
  step predict t (s, w) = Some (s', w') → single_tls_inv s'.
Proof.
  intros Hinv Hlive [Hkind HJ] Hstep.
  split; [by rewrite (step_kind predict t s s' w w' Hstep)|].
  intros ex' Hex'.
  destruct (step_workers predict t s s' w w' Hstep)
    as (ex & ex2 & wk & st' & Hex & Hex2 & Hwk & Hws & _ & Hmax & Hini & Hcase).
  assert (ex2 = ex') as -> by congruence.
  destruct (HJ ex Hex) as (Hmw & Hinit0 & Hlen & Hitems & Hmodel).
  assert (t = 0)%nat as ->.
  { apply lookup_lt_Some in Hwk. lia. }
  split; [congruence|]. split; [congruence|].
  split; [by rewrite Hws, length_alter|]. split.
  - intros item Hin. apply Hitems.
    destruct (step_summary predict 0 s s' w w' Hinv Hstep)
      as (ex0 & ex1 & wk0 & Hex0 & Hex1 & _ & _ & _ & Hsum).
    assert (ex0 = ex) as -> by congruence.
    assert (ex1 = ex') as -> by congruence.
    destruct Hsum as [(_ & _ & _ & Hperm & _)|
      (f & fn & x & q & cb & o & _ & _ & _ & _ & _ & Hperm & _)].
    + by rewrite <- Hperm.
    + rewrite Hperm. by right.
  - intros wk' Hwk' Hinit. rewrite Hws, list_lookup_alter, Hwk in Hwk'.
    injection Hwk' as <-. simpl in Hinit.
    destruct (step_events predict 0 s s' w w' Hlive Hstep)
      as (ex0 & wk0 & evs & Hex0 & Hwk0 & _ & Hev).
    assert (ex0 = ex) as -> by congruence.
    assert (wk0 = wk) as -> by congruence.
    destruct Hcase as [(Hst & -> & _)|[(Hst & _ & _ & Htls & _)|
      [(Hst & -> & _ & _ & _ & Htls)|[(Hst & f & fn & x & -> & _ & _ & Htls)|
       (f & fn & x & Hst & -> & _ & _ & Htls)]]]].
    + done.
    + destruct Hev as [(_ & _ & l & Hl & Htm)|[([Hs|[Hs|Hs]] & _)|(f & fn & x & Hs & _)]];
        try congruence.
      exists l, (next_model w). split; [congruence|].
      rewrite Htm. apply lookup_insert_eq.
    + destruct (Hmodel wk Hwk) as (l & m & Hl & Hm); [by rewrite Hst|].
      exists l, m. split; [congruence|].
      destruct Hev as [(Hs & _)|[(_ & _ & Htm)|(f & fn & x & Hs & _)]];
        try congruence.
    + destruct (Hmodel wk Hwk) as (l & m & Hl & Hm);
        [by destruct Hst as [-> | ->]|].
      exists l, m. split; [congruence|].
      destruct Hev as [(Hs & _)|[(_ & _ & Htm)|(f0 & fn0 & x0 & Hs & _)]];
        [destruct Hst; congruence|congruence|destruct Hst; congruence].
    + destruct (Hmodel wk Hwk) as (l & m & Hl & Hm); [by rewrite Hst|].
      exists l, m. split; [congruence|].
      destruct Hev as [(Hs & _)|[([Hs|[Hs|Hs]] & _)|(f0 & fn0 & x0 & _ & Htm & _)]];
        congruence.
Qed.

Lemma issued_single_tls (s : PSelf) ex
    (queries : QueryInput ModelInput) (callback : Callback) :
  pool_inv s → futures s = ∅ → executor s = Some ex → single_tls_inv s →
  single_tls_inv (issued s ex TlsPredict queries callback).
Proof.
  intros Hinv Hf Hex [Hkind HJ]. split; [done|].
  intros ex' [= <-]. destruct (HJ ex Hex) as (Hmw & Hini & Hlen & Hitems & Hmodel).
  destruct (submit_all_fields (_model s) TlsPredict queries ex)
    as (Hmax & Hini' & _).
  destruct (submit_all_workers (_model s) TlsPredict queries ex)
    as (new & Hws & Hle & Hnew).
  split; [congruence|]. split; [congruence|].
  split; [rewrite Hws, <- Hmw; apply Hle; lia|]. split.
  - intros item Hin.
    rewrite (issued_pending_items s ex TlsPredict queries Hinv Hf Hex) in Hin.
    by apply list_elem_of_fmap in Hin as (fqx & -> & _).
  - intros wk Hwk Hinit. rewrite Hws in Hwk.
    destruct (workers ex) as [|wk0 ws] eqn:Hw.
    + simpl in Hwk. apply list_elem_of_lookup_2 in Hwk.
      rewrite Forall_forall in Hnew. destruct (Hnew wk Hwk) as [Hst _].
      rewrite Hini in Hst. by rewrite Hst in Hinit.
    + simpl in Hwk. injection Hwk as <-. by apply (Hmodel wk0).
Qed.

Lemma exec_single_tls sched (s s' : PSelf) (w w' : World) :
  pool_inv s → pool_live s → single_tls_inv s →
  exec predict sched (s, w) = Some (s', w') → single_tls_inv s'.
Proof.
  revert s w. induction sched as [|t sched IH]; intros s w Hinv Hlive HJ H;
    simpl in H.
  - by injection H as <- <-.
  - destruct (step predict t (s, w)) as [[s1 w1]|] eqn:Hstep; [|done].
    simpl in H. apply (IH s1 w1); [..|done].
    + by apply (step_pool_inv predict t s s1 w w1).
    + by apply (step_pool_live predict t s s1 w w1).
    + by apply (step_single_tls t s s1 w w1).
Qed.

(** With a single worker, the outcome stored for a future is the prediction
    of its input. *)
Lemma exec_outcome_single_tls sched (s s' : PSelf) (w w' : World) ex f fn x o :
  pool_inv s → pool_live s → single_tls_inv s →
  exec predict sched (s, w) = Some (s', w') →
  executor s = Some ex → (f, fn, x) ∈ pending_items ex →
  outcome s' f = Some o → o = prediction predict x.
Proof.
  revert s w ex.
  induction sched as [|t sched IH]; intros s w ex Hinv Hlive HJ H Hex Hin Ho;
    simpl in H.
  - injection H as <- <-. exfalso.
    assert (Hf : is_Some (futures s !! f)).
    { apply (inv_table _ Hinv ex f Hex), list_elem_of_fmap. exists (f, fn).
      split; [done|]. apply list_elem_of_fmap. by exists (f, fn, x). }
    destruct (inv_pending _ Hinv ex f Hex Hf) as [_ Hnone].
    unfold outcome in Ho. rewrite Hex in Ho. simpl in Ho. congruence.
  - destruct (step predict t (s, w)) as [[s1 w1]|] eqn:Hstep; [|done].
    simpl in H.
    pose proof (step_pool_inv predict _ _ _ _ _ Hinv Hstep) as Hinv1.
    pose proof (step_pool_live predict _ _ _ _ _ Hlive Hstep) as Hlive1.
    pose proof (step_single_tls _ _ _ _ _ Hinv Hlive HJ Hstep) as HJ1.
    destruct (step_summary predict _ _ _ _ _ Hinv Hstep)
      as (ex0 & ex1 & wk & Hex0 & Hex1 & Hwk & _ & _ & Hcase).
    assert (ex0 = ex) as -> by congruence.
    destruct Hcase as [(_ & _ & _ & Hp & _)|
      (f0 & fn0 & x0 & q & cb & o0 & Hst & Hq & _ & Hf & Hfin & Hp & _)].
    + apply (IH s1 w1 ex1 Hinv1 Hlive1 HJ1 H Hex1); [by rewrite Hp|done].
    + rewrite Hp in Hin. apply elem_of_cons in Hin as [Heq|Hin].
      * injection Heq as -> -> ->.
        destruct HJ as [_ HJ].
        destruct (HJ ex Hex) as (_ & _ & Hlen & Hitems & Hmodel).
        assert (t = 0)%nat as ->.
        { apply lookup_lt_Some in Hwk. lia. }
        assert (fn0 = TlsPredict) as ->.
        { apply (Hitems (f0, fn0, x0)). rewrite Hp. by left. }
        destruct (Hmodel wk Hwk) as (l & m & Hl & Hm); [by rewrite Hst|].
        destruct (step_tls_outcome 0 s s1 w w1 ex wk f0 x0 l m
                    Hinv Hstep Hex Hwk Hst Hl Hm) as (ex1' & Hex1' & Hfin').
        assert (ex1' = ex1) as -> by congruence.
        assert (outcome s' f0 = Some (prediction predict x0)) as Ho0.
        { eapply (exec_outcome_stable predict); [exact Hinv1|exact H|..].
          - rewrite Hf. apply lookup_delete_eq.
          - unfold outcome. rewrite Hex1. simpl. rewrite Hfin'.
            apply lookup_insert_eq. }
        congruence.
      * by apply (IH s1 w1 ex1 Hinv1 Hlive1 HJ1 H Hex1).
Qed.

Lemma lifetime_single_tls (ops : list Op) :
  ∃ s, (lifetime predict ThreadLocalPoolRunner 1 ops).1 = RPool s ∧
       single_tls_inv s.
Proof.
  apply (pool_lifetime_ind predict (λ s _, single_tls_inv s)
           ThreadLocalPoolRunner 1).
  - right. by left.
  - intros s w [= <- _]. split; [done|]. intros ex [= <-]. simpl.
    split; [done|]. split; [done|]. split; [lia|]. split; [|done].
    intros item Hin. by apply elem_of_nil in Hin.
  - intros s w queries callback Hinv _ HJ.
    unfold runner_inv in Hinv. simpl in Hinv. destruct Hinv as (Hpi & _).
    destruct (pool_issue_query_cases s w queries callback)
      as (r & s' & Hrun & [->|[->|(ex & fn & Hf & Hex & Hfn & _ & ->)]]);
      rewrite Hrun; cbn [fst snd]; [done|exact HJ|].
    assert (fn = TlsPredict) as ->.
    { destruct HJ as [Hkind _]. unfold predictor_of in Hfn.
      rewrite Hkind in Hfn. by injection Hfn as <-. }
    by apply issued_single_tls.
  - intros t s w s' w' Hinv _ HJ Hstep.
    unfold runner_inv in Hinv. simpl in Hinv. destruct Hinv as (Hpi & Hpl & _).
    by apply (step_single_tls t s s' w w').
Qed.
End SingleWorkerProofs.

Section SingleWorkerDelivery.
Context {ModelInput QueryResult : Type}.
Context (predict : ModelInput → option QueryResult).
#[local] Abbreviation World := (World ModelInput QueryResult).
#[local] Abbreviation Op := (Op ModelInput).

(** X11. The thread-local pool runner built with [max_concurrency = 1] and
    entered delivers every batch of its lifetime exactly once: its single
    worker thread is the only one that ever binds the class attribute
    [tls], so it always finds its model.  When the runner is idle,
    [issue_query] returns, the worker can finish the batch, and once the
    table of futures is empty again the callback has been invoked once for
    every query whose prediction returns, with the single-entry dict of
    that prediction, and for nothing else. *)
Theorem tls_single_worker_exactly_once (ops : list Op)
    (queries : QueryInput ModelInput) (callback : Callback) :
  let rw := lifetime predict ThreadLocalPoolRunner 1 ops in
  Idle rw.1 →
  ∃ rw1,
    issue_query predict queries callback rw = (Ok (), rw1) ∧
    (∃ sched, Idle (run_workers predict sched rw1).1) ∧
    ∀ sched, Idle (run_workers predict sched rw1).1 →
      callbacks (log (run_workers predict sched rw1).2) ≡ₚ
        callbacks (log rw.2) ++ owed predict callback queries.
Proof.
  intros rw Hidle.
  assert (Hk : pool_strategy ThreadLocalPoolRunner) by (right; by left).
  destruct (lifetime_pool predict ThreadLocalPoolRunner 1 ops Hk)
    as (s & ex & fn & Hs & Hinv & Hlive & Hex & Hfn); [lia|].
  destruct (lifetime_single_tls predict ops) as (s0 & Hs0 & HJ).
  fold rw in Hs, Hs0. rewrite Hs in Hs0. injection Hs0 as <-.
  destruct rw as [r w] eqn:Hrw. simpl in Hs, Hidle. subst r. simpl in Hidle.
  assert (fn = ModelRunnerPoolExecutor.TlsPredict) as ->.
  { destruct HJ as [Hkind _]. unfold predictor_of in Hfn.
    rewrite Hkind in Hfn. by injection Hfn as <-. }
  pose proof (issued_pool_inv s ex ModelRunnerPoolExecutor.TlsPredict queries callback Hinv Hidle Hex) as Hinv1.
  pose proof (issued_pool_live s ex ModelRunnerPoolExecutor.TlsPredict queries callback Hlive Hex) as Hlive1.
  pose proof (issued_single_tls s ex queries callback Hinv Hidle Hex HJ) as HJ1.
  exists (RPool (issued s ex ModelRunnerPoolExecutor.TlsPredict queries callback), w). split.
  { unfold issue_query, on. cbn [fst snd].
    by rewrite (pool_issue_query_idle s w ex ModelRunnerPoolExecutor.TlsPredict queries callback Hidle Hex Hfn). }
  split.
  - destruct (drain_exists predict (issued s ex ModelRunnerPoolExecutor.TlsPredict queries callback) w
                Hinv1 Hlive1) as (sched & s' & w' & Hexec & Hf).
    exists sched. by rewrite (exec_run_workers predict _ _ _ _ _ Hexec).
  - intros sched.
    destruct (run_workers_exec predict sched (issued s ex ModelRunnerPoolExecutor.TlsPredict queries callback) w)
      as (sched' & s' & w' & Hrun & Hexec).
    rewrite Hrun. simpl. intros Hf.
    destruct (pool_delivery predict s s' w w' ex ModelRunnerPoolExecutor.TlsPredict queries callback sched'
                Hinv Hidle Hex Hexec) as (Hc & _ & _ & Hdone).
    destruct (settled_all_predicted predict (outcome s') callback
                (handles (ModelRunnerPoolExecutor.next_future ex) queries)) as [Hsettled _].
    { intros fqx Hin. destruct (Hdone Hf fqx Hin) as [o Ho].
      rewrite Ho. f_equal.
      apply (exec_outcome_single_tls predict sched' (issued s ex ModelRunnerPoolExecutor.TlsPredict queries callback)
               s' w w' (submit_all (ModelRunnerPoolExecutor._model s) ModelRunnerPoolExecutor.TlsPredict queries ex)
               fqx.1 ModelRunnerPoolExecutor.TlsPredict fqx.2.2 o Hinv1 Hlive1 HJ1 Hexec eq_refl); [|done].
      rewrite (issued_pending_items s ex ModelRunnerPoolExecutor.TlsPredict queries Hinv Hidle Hex).
      apply list_elem_of_fmap. by exists fqx. }
    by rewrite Hc, Hsettled, handles_snd.
Qed.
End SingleWorkerDelivery.

Lemma tls_single_worker_exactly_once_witness :
  let rw := lifetime echo ThreadLocalPoolRunner 1
              (OpIssue [(4, "d"%string)] 6%nat :: (OpWorker <$> [0; 0; 0; 0]%nat)) in
  Idle rw.1 ∧
  ∃ rw1,
    issue_query echo abc 7%nat rw = (Ok (), rw1) ∧
    (∃ sched, Idle (run_workers echo sched rw1).1) ∧
    ∀ sched, Idle (run_workers echo sched rw1).1 →
      callbacks (log (run_workers echo sched rw1).2) ≡ₚ
        callbacks (log rw.2) ++ owed echo 7%nat abc.
Proof.
  intros rw.
  assert (Hidle : Idle rw.1) by (vm_compute; reflexivity).
  split; [exact Hidle|].
  exact (tls_single_worker_exactly_once echo
           (OpIssue [(4, "d"%string)] 6%nat :: (OpWorker <$> [0; 0; 0; 0]%nat))
           abc 7%nat Hidle).
Defined.

(** ** The table of futures *)
Section TableProofs.
Context {ModelInput QueryResult : Type}.
Context (predict : ModelInput → option QueryResult).
#[local] Abbreviation World := (World ModelInput QueryResult).
#[local] Abbreviation Op := (Op ModelInput).

(** X12. Over the lifetime of a pool executor runner the table
    [self.futures] holds exactly the futures whose work item is queued or
    held by a worker, each once; none of them is done, and every future
    that is done was handed out by the executor.  So the runner is idle
    exactly when no work is left. *)
Theorem pool_table_tracks_pending (k : Strategy) (n : nat) (ops : list Op) :
  pool_strategy k →
  ∃ s, (lifetime predict k n ops).1 = RPool s ∧
    (ModelRunnerPoolExecutor.executor s = None →
     ModelRunnerPoolExecutor.futures s = ∅) ∧
    ∀ ex, ModelRunnerPoolExecutor.executor s = Some ex →
      NoDup (pending_items ex).*1.*1 ∧
      (∀ f, is_Some (ModelRunnerPoolExecutor.futures s !! f) ↔
            f ∈ (pending_items ex).*1.*1) ∧
      (∀ f, is_Some (ModelRunnerPoolExecutor.futures s !! f) →
            ModelRunnerPoolExecutor.finished ex !! f = None) ∧
      (∀ f, is_Some (ModelRunnerPoolExecutor.finished ex !! f) →
            (f < ModelRunnerPoolExecutor.next_future ex)%nat) ∧
      (Idle (RPool s : Runner ModelInput QueryResult) ↔ pending_items ex = []).
Proof.
  intros Hk.
  destruct (pool_strategy_runner k (lifetime predict k n ops).1 Hk
              (lifetime_strategy predict k n ops)) as [s Hs].
  assert (Hinv := lifetime_inv predict k n ops).
  unfold runner_inv in Hinv. rewrite Hs in Hinv. destruct Hinv as (Hpi & _).
  exists s. split; [done|]. split; [apply Hpi|].
  intros ex Hex. split; [by apply Hpi|]. split; [intros f; by apply Hpi|].
  split; [intros f Hf; by apply (inv_pending _ Hpi ex f Hex)|].
  split; [intros f; by apply Hpi|]. simpl. split.
  - intros Hf. by apply (idle_no_pending s ex).
  - intros Hp. apply map_eq. intros f. rewrite lookup_empty.
    destruct (ModelRunnerPoolExecutor.futures s !! f) as [q|] eqn:Hq; [|done].
    assert (Hin : f ∈ (pending_items ex).*1.*1).
    { apply (inv_table _ Hpi ex f Hex). by rewrite Hq. }
    rewrite Hp in Hin. by apply elem_of_nil in Hin.
Qed.
End TableProofs.

Lemma pool_table_tracks_pending_witness :
  pool_strategy ThreadPoolRunner ∧
  ∃ s, (lifetime echo ThreadPoolRunner 2 [OpIssue abc 7%nat; OpWorker 0]).1
       = RPool s ∧
    (ModelRunnerPoolExecutor.executor s = None →
     ModelRunnerPoolExecutor.futures s = ∅) ∧
    ∀ ex, ModelRunnerPoolExecutor.executor s = Some ex →
      NoDup (pending_items ex).*1.*1 ∧
      (∀ f, is_Some (ModelRunnerPoolExecutor.futures s !! f) ↔
            f ∈ (pending_items ex).*1.*1) ∧
      (∀ f, is_Some (ModelRunnerPoolExecutor.futures s !! f) →
            ModelRunnerPoolExecutor.finished ex !! f = None) ∧
      (∀ f, is_Some (ModelRunnerPoolExecutor.finished ex !! f) →
            (f < ModelRunnerPoolExecutor.next_future ex)%nat) ∧
      (Idle (RPool s : Runner string string) ↔ pending_items ex = []).
Proof.
  assert (Hk : pool_strategy ThreadPoolRunner) by (left; reflexivity).
  split; [exact Hk|].
  exact (pool_table_tracks_pending echo ThreadPoolRunner 2
           [OpIssue abc 7%nat; OpWorker 0] Hk).
Defined.

(** ** The actor pool runner without actors *)
Section RayNoActorProofs.
Context {ModelInput QueryResult : Type}.
Context (predict : ModelInput → option QueryResult).
#[local] Abbreviation World := (World ModelInput QueryResult).
#[local] Abbreviation Op := (Op ModelInput).

Lemma submit_all_no_actor (queries : QueryInput ModelInput)
    (p : ModelRunnerRay.ActorPool ModelInput) :
  ModelRunnerRay._idle_actors p = [] →
  foldl (λ p v, ModelRunnerRay.submit v p) p queries =
    {| ModelRunnerRay._idle_actors := [];
       ModelRunnerRay._in_flight := ModelRunnerRay._in_flight p;
       ModelRunnerRay._pending_submits :=
         ModelRunnerRay._pending_submits p ++ queries |}.
Proof.
  revert p. induction queries as [|v queries IH]; intros p Hidle.
  - simpl. rewrite app_nil_r. destruct p; simpl in *; by subst.
  - simpl. rewrite IH.
    + unfold ModelRunnerRay.submit. rewrite Hidle. simpl.
      by rewrite <- app_assoc.
    + unfold ModelRunnerRay.submit. by rewrite Hidle.
Qed.

(** [issue_query] on a pool that has no actor and no call in flight. *)
Lemma ray_issue_query_no_actor (s : ModelRunnerRay.Self ModelInput) (w : World) p
    (queries : QueryInput ModelInput) (callback : Callback) :
  ModelRunnerRay.pool s = Some p →
  ModelRunnerRay._idle_actors p = [] → ModelRunnerRay._in_flight p = [] →
  ModelRunnerRay.issue_query predict queries callback (s, w) =
    (Ok (),
     (ModelRunnerRay.set_pool
        (Some {| ModelRunnerRay._idle_actors := [];
                 ModelRunnerRay._in_flight := [];
                 ModelRunnerRay._pending_submits :=
                   ModelRunnerRay._pending_submits p ++ queries |}) s, w)).
Proof.
  intros Hp Hidle Hfl. unfold ModelRunnerRay.issue_query.
  rewrite bind_unfold. unfold self at 1. simpl. rewrite Hp. simpl.
  rewrite bind_unfold. unfold mret at 1, M_ret at 1.
  rewrite bind_unfold. unfold update at 1. simpl.
  rewrite (submit_all_no_actor queries p Hidle), Hfl. simpl.
  destruct (length (ModelRunnerRay._pending_submits p ++ queries)); [done|].
  simpl. rewrite bind_unfold. unfold self at 1. simpl. by rewrite bind_unfold.
Qed.

(** X13. An actor pool runner built with [max_concurrency = 0] is entered
    without complaint and then drops every query in silence: over its whole
    lifetime nothing is built, predicted or delivered, and every
    [issue_query] returns as if all were well, the queries waiting in the
    pool for an actor that does not exist. *)
Theorem ray_without_actors_drops_queries (ops : list Op)
    (queries : QueryInput ModelInput) (callback : Callback) :
  let rw := lifetime predict DistributedActorPoolRunner 0 ops in
  log rw.2 = [] ∧
  ∃ s p, rw.1 = RRay s ∧ ModelRunnerRay.pool s = Some p ∧
    pool_actors p = [] ∧
    issue_query predict queries callback rw =
      (Ok (),
       (RRay (ModelRunnerRay.set_pool
                (Some {| ModelRunnerRay._idle_actors := [];
                         ModelRunnerRay._in_flight := [];
                         ModelRunnerRay._pending_submits :=
                           ModelRunnerRay._pending_submits p ++ queries |}) s),
        rw.2)).
Proof.
  intros rw. subst rw.
  assert (H : ∃ s p w, lifetime predict DistributedActorPoolRunner 0 ops = (RRay s, w) ∧
            log w = [] ∧ ModelRunnerRay.pool s = Some p ∧
            ModelRunnerRay._idle_actors p = [] ∧ ModelRunnerRay._in_flight p = []).
  { induction ops as [|op ops IH] using rev_ind.
    - by eexists _, _, _.
    - destruct IH as (s & p & w & Hrw & Hlog & Hp & Hidle & Hfl).
      unfold lifetime in *. rewrite foldl_app, Hrw. cbn [foldl].
      destruct op as [qs cb| |t]; cbn [do_op].
      + unfold issue_query, on. cbn [fst snd].
        rewrite (ray_issue_query_no_actor s w p qs cb Hp Hidle Hfl).
        by eexists _, _, _.
      + by exists s, p, w.
      + by exists s, p, w. }
  destruct H as (s & p & w & Hrw & Hlog & Hp & Hidle & Hfl).
  rewrite Hrw. cbn [fst snd]. split; [done|]. exists s, p.
  split; [done|]. split; [done|].
  split; [unfold pool_actors; by rewrite Hidle, Hfl|].
  unfold issue_query, on. cbn [fst snd].
  by rewrite (ray_issue_query_no_actor s w p queries callback Hp Hidle Hfl).
Qed.
End RayNoActorProofs.

(** ** An executor with one worker *)
Section FifoProofs.
Context {ModelInput QueryResult : Type}.
Context (predict : ModelInput → option QueryResult).
#[local] Abbreviation World := (World ModelInput QueryResult).
#[local] Abbreviation PSelf := (ModelRunnerPoolExecutor.Self ModelInput QueryResult).
Import ModelRunnerPoolExecutor.

(** What is assumed of the runner: something that every step keeps and that
    makes a worker store the prediction in the future it completes. *)
Context (good : PSelf → Prop).
Context (good_step : ∀ t (s s' : PSelf) (w w' : World),
  pool_inv s → pool_live s → good s →
  step predict t (s, w) = Some (s', w') → good s').
Context (good_outcome : ∀ t (s s' : PSelf) (w w' : World) ex ex' wk f fn x o,
  pool_inv s → good s → step predict t (s, w) = Some (s', w') →
  executor s = Some ex → executor s' = Some ex' →
  workers ex !! t = Some wk → status wk = Running f fn x →
  finished ex' = <[f := o]> (finished ex) → o = prediction predict x).

Lemma owed_snoc callback (l : QueryInput ModelInput) q x :
  owed predict callback (l ++ [(q, x)]) =
    owed predict callback l ++
    match predict x with
    | Some r => [(callback, {[ q := r ]})]
    | None => []
    end.
Proof.
  unfold owed. rewrite omap_app. f_equal. simpl. by destruct (predict x).
Qed.

Lemma step_in_order t callback w0 hs fn (s s' : PSelf) (w w' : World) :
  pool_inv s → good s → NoDup hs.*1 →
  in_order predict callback w0 hs fn s w →
  step predict t (s, w) = Some (s', w') →
  in_order predict callback w0 hs fn s' w'.
Proof.
  intros Hinv Hgood Hnd (done & rest & ex & Hhs & Hex & Hlist & Hlen & Hcb & Htab & Hcbs)
    Hstep.
  destruct (step_workers predict t s s' w w' Hstep)
    as (ex0 & ex' & wk & st' & Hex0 & Hex' & Hwk & Hws & _ & _ & _ & Hcase).
  assert (ex0 = ex) as -> by congruence.
  destruct (step_summary predict t s s' w w' Hinv Hstep)
    as (ex1 & ex2 & wk1 & Hex1 & Hex2 & Hwk1 & Hcb' & _ & Hsum).
  assert (ex1 = ex) as -> by congruence.
  assert (ex2 = ex') as -> by congruence.
  assert (wk1 = wk) as -> by congruence.
  assert (Hone : t = 0%nat ∧ workers ex = [wk]).
  { destruct (workers ex) as [|wk0 [|wk2 ws]]; simpl in Hlen; [done| |lia].
    destruct t as [|t]; [|done]. by injection Hwk as ->. }
  destruct Hone as [-> Hw1]. rewrite Hw1 in Hws, Hlist.
  cbn [alter list_alter] in Hws.
  rewrite running_cons in Hlist. simpl in Hlist. rewrite app_nil_r in Hlist.
  assert (Hquiet : item_of (status wk) = [] →
            work_queue ex' = work_queue ex ∨
            (∃ item, st' = Running item.1.1 item.1.2 item.2 ∧
                     work_queue ex = item :: work_queue ex') →
            in_order predict callback w0 hs fn s' w').
  { intros Hitem Hq.
    destruct Hsum as [(_ & Hf & _ & _ & Hc & _)|
      (f & fn0 & x & q & cb & o & Hst & _)]; [|by rewrite Hst in Hitem].
    exists done, rest, ex'. split; [done|]. split; [done|].
    split.
    { rewrite Hws, running_cons. simpl. rewrite app_nil_r.
      rewrite Hitem in Hlist. simpl in Hlist.
      destruct Hq as [Hq|([[f fn0] x] & -> & Hq)].
      - destruct Hcase as [(_ & -> & _)|[(_ & _ & _ & _ & [-> | [-> _]])|
          [(_ & -> & _)|[(_ & f & fn0 & x & -> & Hq' & _)|(f & fn0 & x & Hst & _)]]]];
          simpl; try (by rewrite Hq).
        + rewrite Hq' in Hq. exfalso. 
          assert (Hl := f_equal length Hq). simpl in Hl. lia.
        + by rewrite Hst in Hitem.
      - simpl. by rewrite <- Hlist, Hq. }
    split; [by rewrite Hws|]. split; [congruence|].
    split; [intros fqx Hin; rewrite Hf; by apply Htab|]. by rewrite Hc. }
  destruct Hcase as [(Hst & _ & Hq & _)|[(Hst & Hq & _)|
    [(Hst & _ & Hq & Hq' & _)|[(Hst & f & fn0 & x & -> & Hq & _)|
     (f & fn0 & x & Hst & -> & Hq & _)]]]].
  - apply Hquiet; [by rewrite Hst|by left].
  - apply Hquiet; [by rewrite Hst|by left].
  - apply Hquiet; [by rewrite Hst|]. left. congruence.
  - apply Hquiet; [by destruct Hst as [-> | ->]|].
    right. by exists (f, fn0, x).
  - rewrite Hst in Hlist. simpl in Hlist.
    destruct rest as [|[f1 [q1 x1]] rest]; [done|].
    rewrite fmap_cons in Hlist. simpl in Hlist.
    injection Hlist as -> -> -> Hlist.
    destruct Hsum as [(Hitem & _)|
      (f2 & fn2 & x2 & q & cb & o & Hst2 & Hq2 & Hcb2 & Hf & Hfin & _ & Hc & _)];
      [by rewrite Hst in Hitem|].
    assert (f2 = f1 ∧ fn2 = fn ∧ x2 = x1) as (-> & -> & ->)
      by (split; [|split]; congruence).
    assert (q = q1) as ->.
    { assert (Hq1 := Htab (f1, (q1, x1)) ltac:(by left)). simpl in Hq1. congruence. }
    assert (cb = callback) as -> by congruence.
    assert (o = prediction predict x1) as ->.
    { by apply (good_outcome 0%nat s s' w w' ex ex' wk f1 fn x1 o). }
    exists (done ++ [(f1, (q1, x1))]), rest, ex'.
    split; [by rewrite <- app_assoc|]. split; [done|].
    split; [rewrite Hws, running_cons; simpl; by rewrite Hq|].
    split; [by rewrite Hws|]. split; [congruence|]. split.
    + intros fqx Hin. rewrite Hf.
      rewrite lookup_delete_ne; [apply Htab; by right|].
      intros Heq. rewrite Hhs, fmap_app, fmap_cons in Hnd.
      apply NoDup_app in Hnd as (_ & _ & Hnd). apply NoDup_cons in Hnd as [Hnin _].
      apply Hnin. simpl. rewrite Heq. apply list_elem_of_fmap. by exists fqx.
    + rewrite Hc, Hcbs, fmap_app.
      change ([(f1, (q1, x1))].*2) with [(q1, x1)].
      rewrite owed_snoc, <- app_assoc. simpl.
      unfold prediction. by destruct (predict x1).
Qed.

Lemma exec_in_order sched callback w0 hs fn (s s' : PSelf) (w w' : World) :
  pool_inv s → pool_live s → good s → NoDup hs.*1 →
  in_order predict callback w0 hs fn s w →
  exec predict sched (s, w) = Some (s', w') →
  in_order predict callback w0 hs fn s' w'.
Proof.
  revert s w. induction sched as [|t sched IH]; intros s w Hinv Hlive Hg Hnd Hio H;
    simpl in H.
  - by injection H as <- <-.
  - destruct (step predict t (s, w)) as [[s1 w1]|] eqn:Hstep; [|done].
    simpl in H. apply (IH s1 w1); [..|done|idtac|done].
    + by apply (step_pool_inv predict t s s1 w w1).
    + by apply (step_pool_live predict t s s1 w w1).
    + by apply (good_step t s s1 w w1).
    + by apply (step_in_order t callback w0 hs fn s s1 w w1).
Qed.

(** A batch issued on an idle runner whose executor may have one worker
    only is delivered in the order of the batch. *)
Lemma fifo_delivery sched (s s' : PSelf) (w w' : World) ex fn
    (queries : QueryInput ModelInput) (callback : Callback) :
  pool_inv s → pool_live s → futures s = ∅ → executor s = Some ex →
  max_workers ex = 1%nat → (length (workers ex) ≤ 1)%nat →
  good (issued s ex fn queries callback) →
  exec predict sched (issued s ex fn queries callback, w) = Some (s', w') →
  futures s' = ∅ →
  callbacks (log w') = callbacks (log w) ++ owed predict callback queries.
Proof.
  intros Hinv Hlive Hf Hex Hmax Hlen Hg Hexec Hdone.
  assert (Hnd : NoDup (handles (next_future ex) queries).*1).
  { rewrite handles_fst. apply NoDup_seq. }
  assert (Hio : in_order predict callback w (handles (next_future ex) queries) fn
                  (issued s ex fn queries callback) w).
  { exists [], (handles (next_future ex) queries),
      (submit_all (_model s) fn queries ex).
    split; [done|]. split; [done|].
    pose proof (idle_no_pending s ex Hinv Hf Hex) as Hp.
    unfold pending_items in Hp. apply app_eq_nil in Hp as [Hq Hr].
    destruct (submit_all_fields (_model s) fn queries ex) as (_ & _ & Hwq & _).
    destruct (submit_all_workers (_model s) fn queries ex) as (new & Hws & Hle & Hnew).
    split.
    { rewrite Hwq, Hws, Hq, running_app, Hr, (running_new new _ _ Hnew). done. }
    split; [rewrite Hws, <- Hmax; apply Hle; lia|]. split; [done|].
    split; [|by rewrite app_nil_r].
    intros fqx Hin. simpl. apply elem_of_list_to_map_1.
    - rewrite <- list_fmap_compose.
      by rewrite (list_fmap_ext
                    (fst ∘ (λ fqx : nat * (QueryId * ModelInput), (fqx.1, fqx.2.1)))
                    fst) by done.
    - apply list_elem_of_fmap. by exists fqx. }
  destruct (exec_in_order sched callback w _ fn _ s' w w'
              (issued_pool_inv s ex fn queries callback Hinv Hf Hex)
              (issued_pool_live s ex fn queries callback Hlive Hex)
              Hg Hnd Hio Hexec)
    as (done & rest & ex' & Hhs & _ & _ & _ & _ & Htab & Hcbs).
  destruct rest as [|fqx rest].
  - rewrite app_nil_r in Hhs. by rewrite Hcbs, <- Hhs, handles_snd.
  - specialize (Htab fqx ltac:(by left)). by rewrite Hdone, lookup_empty in Htab.
Qed.
End FifoProofs.

Section SingleWorkerOrder.
Context {ModelInput QueryResult : Type}.
Context (predict : ModelInput → option QueryResult).
#[local] Abbreviation World := (World ModelInput QueryResult).
#[local] Abbreviation Op := (Op ModelInput).
#[local] Abbreviation PSelf := (ModelRunnerPoolExecutor.Self ModelInput QueryResult).

Lemma finds_model_outcome t (s s' : PSelf) (w w' : World) ex ex' wk f fn x o :
  pool_inv s → finds_model s →
  ModelRunnerPoolExecutor.step predict t (s, w) = Some (s', w') →
  ModelRunnerPoolExecutor.executor s = Some ex →
  ModelRunnerPoolExecutor.executor s' = Some ex' →
  ModelRunnerPoolExecutor.workers ex !! t = Some wk →
  ModelRunnerPoolExecutor.status wk = ModelRunnerPoolExecutor.Running f fn x →
  ModelRunnerPoolExecutor.finished ex' =
    <[f := o]> (ModelRunnerPoolExecutor.finished ex) →
  o = prediction predict x.
Proof.
  intros Hinv Hfm Hstep Hex Hex' Hwk Hst Hfin.
  destruct (step_summary predict t s s' w w' Hinv Hstep)
    as (ex1 & ex2 & wk1 & Hex1 & Hex2 & Hwk1 & _ & _ & Hsum).
  assert (ex1 = ex) as -> by congruence.
  assert (ex2 = ex') as -> by congruence.
  assert (wk1 = wk) as -> by congruence.
  destruct Hsum as [(Hitem & _)|
    (f2 & fn2 & x2 & q & cb & o2 & Hst2 & _ & _ & _ & Hfin2 & _ & _ & _ & _ & Ho)];
    [by rewrite Hst in Hitem|].
  assert (f2 = f ∧ x2 = x) as (-> & ->) by (split; congruence).
  rewrite <- (Ho Hfm).
  assert (Hl : (<[f := o]> (ModelRunnerPoolExecutor.finished ex)) !! f
               = (<[f := o2]> (ModelRunnerPoolExecutor.finished ex)) !! f)
    by congruence.
  rewrite !lookup_insert_eq in Hl. congruence.
Qed.

Lemma single_tls_outcome t (s s' : PSelf) (w w' : World) ex ex' wk f fn x o :
  pool_inv s → single_tls_inv s →
  ModelRunnerPoolExecutor.step predict t (s, w) = Some (s', w') →
  ModelRunnerPoolExecutor.executor s = Some ex →
  ModelRunnerPoolExecutor.executor s' = Some ex' →
  ModelRunnerPoolExecutor.workers ex !! t = Some wk →
  ModelRunnerPoolExecutor.status wk = ModelRunnerPoolExecutor.Running f fn x →
  ModelRunnerPoolExecutor.finished ex' =
    <[f := o]> (ModelRunnerPoolExecutor.finished ex) →
  o = prediction predict x.
Proof.
  intros Hinv [_ HJ] Hstep Hex Hex' Hwk Hst Hfin.
  destruct (HJ ex Hex) as (_ & _ & Hlen & Hitems & Hmodel).
  assert (t = 0)%nat as ->.
  { apply lookup_lt_Some in Hwk. lia. }
  assert (fn = ModelRunnerPoolExecutor.TlsPredict) as ->.
  { apply (Hitems (f, fn, x)). unfold pending_items. apply elem_of_app. right.
    by apply (running_lookup _ 0%nat wk). }
  destruct (Hmodel wk Hwk) as (l & m & Hl & Hm); [by rewrite Hst|].
  destruct (step_tls_outcome predict 0 s s' w w' ex wk f x l m
              Hinv Hstep Hex Hwk Hst Hl Hm) as (ex1 & Hex1 & Hfin1).
  assert (ex1 = ex') as -> by congruence.
  assert (Hlk : (<[f := o]> (ModelRunnerPoolExecutor.finished ex)) !! f
                = (<[f := prediction predict x]>
                     (ModelRunnerPoolExecutor.finished ex)) !! f)
    by congruence.
  rewrite !lookup_insert_eq in Hlk. congruence.
Qed.

(** X14. A pool executor runner of any kind built with
    [max_concurrency = 1] and entered delivers every batch of its lifetime
    in the order of the batch, as the inline runner does: when the runner is
    idle, [issue_query] returns, and once the single worker has emptied the
    table of futures the callback has been invoked, in the iteration order
    of the batch, once for every query whose prediction returns, with the
    single-entry dict of that prediction. *)
Theorem single_worker_delivers_in_order (k : Strategy) (ops : list Op)
    (queries : QueryInput ModelInput) (callback : Callback) :
  pool_strategy k →
  let rw := lifetime predict k 1 ops in
  Idle rw.1 →
  ∃ rw1,
    issue_query predict queries callback rw = (Ok (), rw1) ∧
    ∀ sched, Idle (run_workers predict sched rw1).1 →
      callbacks (log (run_workers predict sched rw1).2) =
        callbacks (log rw.2) ++ owed predict callback queries.
Proof.
  intros Hk rw Hidle.
  destruct (lifetime_pool predict k 1 ops Hk)
    as (s & ex & fn & Hs & Hinv & Hlive & Hex & Hfn); [lia|].
  destruct (lifetime_workers_bound predict k 1 ops Hk) as (s0 & Hs0 & Hb).
  fold rw in Hs, Hs0. rewrite Hs in Hs0. injection Hs0 as <-.
  destruct (Hb ex Hex) as [Hmax Hlen].
  assert (Hgood : (k = ThreadLocalPoolRunner ∧ single_tls_inv s) ∨
                  (k ≠ ThreadLocalPoolRunner ∧ ∃ w0, shared_inv s w0)).
  { destruct Hk as [-> | [-> | ->]].
    - right. split; [done|].
      destruct (lifetime_shared predict ThreadPoolRunner 1 ops) as (s1 & Hs1 & Hsh);
        [by left|].
      fold rw in Hs1, Hsh. rewrite Hs in Hs1. injection Hs1 as <-. by eexists.
    - left. split; [done|].
      destruct (lifetime_single_tls predict ops) as (s1 & Hs1 & HJ).
      fold rw in Hs1. rewrite Hs in Hs1. by injection Hs1 as <-.
    - right. split; [done|].
      destruct (lifetime_shared predict ProcessPoolRunner 1 ops) as (s1 & Hs1 & Hsh);
        [by right|].
      fold rw in Hs1, Hsh. rewrite Hs in Hs1. injection Hs1 as <-. by eexists. }
  destruct rw as [r w] eqn:Hrw. simpl in Hs, Hidle. subst r. simpl in Hidle.
  exists (RPool (issued s ex fn queries callback), w). split.
  { unfold issue_query, on. cbn [fst snd].
    by rewrite (pool_issue_query_idle s w ex fn queries callback Hidle Hex Hfn). }
  intros sched.
  destruct (run_workers_exec predict sched (issued s ex fn queries callback) w)
    as (sched' & s' & w' & Hrun & Hexec).
  rewrite Hrun. simpl. intros Hf.
  destruct Hgood as [[_ HJ]|[_ [w0 Hsh]]].
  - assert (fn = ModelRunnerPoolExecutor.TlsPredict) as ->.
    { destruct HJ as [Hkind _]. unfold predictor_of in Hfn.
      rewrite Hkind in Hfn. by injection Hfn as <-. }
    apply (fifo_delivery predict single_tls_inv (step_single_tls predict)
             single_tls_outcome sched' s s' w w' ex
             ModelRunnerPoolExecutor.TlsPredict queries callback);
      try done.
    by apply issued_single_tls.
  - apply (fifo_delivery predict finds_model
             (λ t s s' w w' Hi _ Hg Hst, step_finds_model predict t s s' w w' Hi Hst Hg)
             finds_model_outcome sched' s s' w w' ex fn queries callback);
      try done.
    apply issued_finds_model; try done.
    by apply (idle_shared_finds_model s w0).
Qed.
End SingleWorkerOrder.

Lemma single_worker_delivers_in_order_witness :
  let rw := lifetime (echo_but "b") ThreadPoolRunner 1
              (OpIssue [(4, "d"%string)] 6%nat :: (OpWorker <$> [0; 0]%nat)) in
  pool_strategy ThreadPoolRunner ∧ Idle rw.1 ∧
  ∃ rw1,
    issue_query (echo_but "b") abc 7%nat rw = (Ok (), rw1) ∧
    ∀ sched, Idle (run_workers (echo_but "b") sched rw1).1 →
      callbacks (log (run_workers (echo_but "b") sched rw1).2) =
        callbacks (log rw.2) ++ owed (echo_but "b") 7%nat abc.
Proof.
  intros rw.
  assert (Hk : pool_strategy ThreadPoolRunner) by (left; reflexivity).
  assert (Hidle : Idle rw.1) by (vm_compute; reflexivity).
  split; [exact Hk|]. split; [exact Hidle|].
  exact (single_worker_delivers_in_order (echo_but "b") ThreadPoolRunner
           (OpIssue [(4, "d"%string)] 6%nat :: (OpWorker <$> [0; 0]%nat))
           abc 7%nat Hk Hidle).
Defined.

(** ** One prediction of a batch fails *)

(** C9. The thread-local pool runner with two workers, a model whose
    prediction fails for ["c"] and for no other input, and the batch
    [{1: "a", 2: "b", 3: "c"}]: the predictor fails for query 3 only.  The
    first worker runs its initializer to the end before the second one
    starts its own, then the first takes query 1, the second query 2 and the
    first query 3.  The first worker no longer finds its model in the
    [threading.local] that the second one has bound since: queries 1 and 3
    both end in a logged [AttributeError].  The batch has drained and only
    query 2 was delivered; query 1, whose prediction exists, never is. *)
Theorem tls_one_failure_loses_another_query :
  let predict := echo_but "c" in
  let rw := lifetime predict ThreadLocalPoolRunner 2
              (OpIssue abc 7%nat
                 :: (OpWorker <$> [0; 0; 1; 1; 0; 0; 1; 1; 0; 0; 0]%nat)) in
  (∀ qx, qx ∈ abc → predict qx.2 = None ↔ qx.1 = 3) ∧
  Idle rw.1 ∧
  callbacks (log rw.2) = [(7%nat, {[ 2 := "b"%string ]})] ∧
  logged (log rw.2) = [AttributeError; AttributeError] ∧
  owed predict 7%nat (filter (λ qx, qx.1 ≠ 3) abc)
    = [(7%nat, {[ 1 := "a"%string ]}); (7%nat, {[ 2 := "b"%string ]})].
Proof.
  split.
  { intros qx Hin. unfold abc in Hin.
    rewrite !elem_of_cons, elem_of_nil in Hin.
    destruct Hin as [->|[->|[->|[]]]]; by vm_compute. }
  vm_compute. by repeat split.
Qed.

Section FailedPredictionProofs.
Context {ModelInput QueryResult : Type}.
Context (predict : ModelInput → option QueryResult).
#[local] Abbreviation World := (World ModelInput QueryResult).
#[local] Abbreviation Op := (Op ModelInput).


End FailedPredictionProofs.


